(** * aimuzon: the result-aggregation pipeline

    A shallow embedding of the search pipeline of the AI Muzon application,
    in three parts of the repository:
    - the client's search module (the TypeScript module of [src/README.md]
      that exports [fetchSearch]): the date-window helpers,
      [normalizeSearchOptions], the blocklist, [fetchYouTubeDirect] and
      [fetchSearch] with its two cache tiers and its in-flight map;
    - the [App] component ([src/unnamed/part_001]): [computeNextMonthWindow],
      [fetchNextMonthWindowGlobal], [loadMoreForAny] and
      [computeCategoriesPool];
    - the Express proxy ([src/server/index.js]): the handler of
      [GET /api/search], with its cache;
    - around them: [shuffle] and the initial load of [App], the favourites
      slice ([src/unnamed/part_002]), the notifications
      ([src/unnamed/part_000]) and the scroll logger of [CategorySection].

    Conventions of the embedding.
    - A JavaScript string is a [string]; its characters are code units
      below 256, and [toLowerCase] is the Unicode lower-casing restricted to
      that range.
    - A JavaScript number that the code uses as an integer is a [Z]; where
      the code can meet [NaN] the value is an [option Z] and [None] is [NaN].
      Where the code reads a Number out of a text ([Number(s)]) the value
      is a [Number]: [NaN], an infinity or a finite double, with rounding
      to the nearest double.
    - A date string is represented by what [new Date(s)] makes of it
      ([DateString]); [toISOString] followed by [new Date] is the identity
      on valid time values, as ECMAScript guarantees.
    - [undefined]/[null] fields are [option]s; [x || d] is spelled out at
      every use with the falsy values of the type at hand.
    - Asynchronous code is a transition system: one event per synchronous
      stretch of the source (a call up to its first suspension, the
      settlement of an upstream operation).

    The file has two parts: the definitions (the embedding, then the
    vocabulary of the statements and the sample inputs), and the
    properties. *)

From stdpp Require Import gmap strings list sorting.
From Stdlib Require Import ZArith Lia Ascii String.

#[local] Set Warnings "-clear-no-such-hyp".

Local Open Scope string_scope.
Local Open Scope list_scope.
Local Open Scope Z_scope.

(** ** JavaScript strings *)

Module JsString.

Definition code (c : ascii) : Z := Z.of_N (N_of_ascii c).

(** [String.prototype.toLowerCase] on one code unit below 256: A-Z and
    the Latin-1 capitals (0xC0-0xDE without the multiplication sign). *)
Definition lower_char (c : ascii) : ascii :=
  let n := code c in
  if ((65 <=? n) && (n <=? 90)) || ((192 <=? n) && (n <=? 222) && negb (n =? 215))
  then ascii_of_N (Z.to_N (n + 32))
  else c.

Fixpoint toLowerCase (s : string) : string :=
  match s with
  | EmptyString => EmptyString
  | String c s' => String (lower_char c) (toLowerCase s')
  end.

Fixpoint startsWith (s p : string) {struct p} : bool :=
  match p, s with
  | EmptyString, _ => true
  | String _ _, EmptyString => false
  | String a p', String b s' => if Ascii.eqb a b then startsWith s' p' else false
  end.

(** [s.includes(k)]: [k] occurs in [s] at some position. *)
Fixpoint includes (s k : string) : bool :=
  startsWith s k ||
  match s with
  | EmptyString => false
  | String _ s' => includes s' k
  end.

(** White space of [\s] and of [trim] among the code units below 256:
    TAB, LF, VT, FF, CR, SP and NBSP. *)
Definition isWhiteSpace (c : ascii) : bool :=
  let n := code c in
  ((9 <=? n) && (n <=? 13)) || (n =? 32) || (n =? 160).

Fixpoint trimStart (s : string) : string :=
  match s with
  | EmptyString => EmptyString
  | String c s' => if isWhiteSpace c then trimStart s' else s
  end.

(** Drops the white space at the end: a character is kept when it is not
    white space or when something is kept after it. *)
Fixpoint trimEnd (s : string) : string :=
  match s with
  | EmptyString => EmptyString
  | String c s' =>
      match trimEnd s' with
      | EmptyString => if isWhiteSpace c then EmptyString else String c EmptyString
      | r => String c r
      end
  end.

Definition trim (s : string) : string := trimEnd (trimStart s).

(** [s.replace(/\s+/g, ' ')]: every maximal run of white space becomes
    one space; [inRun] tells that the previous character was white space. *)
Fixpoint collapseFrom (inRun : bool) (s : string) : string :=
  match s with
  | EmptyString => EmptyString
  | String c s' =>
      if isWhiteSpace c
      then (if inRun then collapseFrom true s'
            else String " "%char (collapseFrom true s'))
      else String c (collapseFrom false s')
  end.

Definition collapseSpaces (s : string) : string := collapseFrom false s.

Definition isDigit (c : ascii) : bool := (48 <=? code c) && (code c <=? 57).

(** The value of the longest prefix of decimal digits, with the number of
    digits read. *)
Fixpoint digitsPrefix (acc : Z) (n : nat) (s : string) : Z * nat :=
  match s with
  | String c s' =>
      if isDigit c then digitsPrefix (10 * acc + (code c - 48)) (S n) s'
      else (acc, n)
  | EmptyString => (acc, n)
  end.

(** [parseInt(s, 10)]: leading white space, an optional sign, then the
    longest run of digits; [NaN] when there is no digit. The value is the
    integer that was read; the Number [parseInt] returns is that integer
    rounded ([roundInteger] below), which makes a difference only where
    the code looks at the value itself or at its finiteness
    ([getMaxAllowedAge]), not where it compares it with a small
    constant. *)
Definition parseInt (s : string) : option Z :=
  let s1 := trimStart s in
  let '(neg, s2) :=
    match s1 with
    | String "-"%char r => (true, r)
    | String "+"%char r => (false, r)
    | _ => (false, s1)
    end in
  let '(v, n) := digitsPrefix 0 0 s2 in
  match n with
  | O => None
  | _ => Some (if neg then - v else v)
  end.

(** A case-insensitive occurrence of [k] in [s], stated on [s] itself:
    some substring of [s] equals [k] up to letter case. *)
Definition occurs_ci (k s : string) : Prop :=
  ∃ pre mid post : string,
    s = pre +:+ mid +:+ post ∧ toLowerCase mid = toLowerCase k.

End JsString.

Import JsString.

(** ** Numbers *)

Module JsNumber.

(** A Number value: [NaN], an infinity, or a finite double. Every finite
    double is a whole multiple of [2^-1074], the least positive double, and
    the doubles are the multiples [k × 2^-1074] in which [k] has at most 53
    significant bits and is below [2^2098]. [Finite k] is [k × 2^-1074].
    The sign of zero is not kept: nothing here tells [-0] from [+0]. *)
Inductive Number :=
  | NaN
  | Infinity (negative : bool)
  | Finite (k : Z).

#[global] Instance Number_eq_dec : EqDecision Number.
Proof. solve_decision. Defined.

(** The integer [n] as a Number; exact for [|n| ≤ 2^53]. *)
Definition ofZ (n : Z) : Number := Finite (n * 2 ^ 1074).

(** The integer nearest to [N / D], the even one of two equally near
    ([0 ≤ N], [0 < D]). *)
Definition roundHalfEven (N D : Z) : Z :=
  let q := N / D in
  let r := N mod D in
  if 2 * r <? D then q
  else if D <? 2 * r then q + 1
  else if Z.even q then q else q + 1.

(** The integer nearest to [N / D] among those with at most 53
    significant bits, the one with the even significand of two equally
    near: round to nearest, ties to even. *)
Definition roundSignificand (N D : Z) : Z :=
  let s := Z.max 0 (Z.log2 (N / D) + 1 - 53) in
  roundHalfEven N (D * 2 ^ s) * 2 ^ s.

(** The Number for the real [± N / D × 2^-1074]. *)
Definition roundNumber (negative : bool) (N D : Z) : Number :=
  let k := roundSignificand N D in
  if 2 ^ 2098 <=? k then Infinity negative
  else Finite (if negative then - k else k).

(** The Number for the integer [n], when it is finite: an integer again. *)
Definition roundInteger (n : Z) : option Z :=
  let r := roundSignificand (Z.abs n) 1 in
  if 2 ^ 1024 <=? r then None
  else Some (if n <? 0 then - r else r).

(** [a - b] *)
Definition Number_sub (a b : Number) : Number :=
  match a, b with
  | NaN, _ | _, NaN => NaN
  | Infinity s, Infinity t => if Bool.eqb s t then NaN else Infinity s
  | Infinity s, Finite _ => Infinity s
  | Finite _, Infinity t => Infinity (negb t)
  | Finite x, Finite y => roundNumber (x - y <? 0) (Z.abs (x - y)) 1
  end.

(** What [Array.prototype.sort] makes of the result [v] of a comparison
    function: it looks at [v < 0] and [v > 0] only, and [NaN] is neither. *)
Definition Number_sign (v : Number) : option Z :=
  match v with
  | NaN => None
  | Infinity negative => Some (if negative then -1 else 1)
  | Finite k => Some (Z.sgn k)
  end.

(** *** [Number(s)], the StringToNumber of ECMAScript *)

(** The longest prefix of decimal digits, read on top of [acc]: the value,
    the number of digits read, and the rest of the text. *)
Fixpoint splitDigits (acc : Z) (n : nat) (s : string) : Z * nat * string :=
  match s with
  | String c s' =>
      if isDigit c then splitDigits (10 * acc + (code c - 48)) (S n) s'
      else (acc, n, s)
  | EmptyString => (acc, n, s)
  end.

(** The digit [c] stands for in the given radix. *)
Definition digitOf (radix : Z) (c : ascii) : option Z :=
  let n := code c in
  let v := if (48 <=? n) && (n <=? 57) then Some (n - 48)
           else if (97 <=? n) && (n <=? 102) then Some (n - 87)
           else if (65 <=? n) && (n <=? 70) then Some (n - 55)
           else None in
  d ← v; if d <? radix then Some d else None.

(** The value of a text made of digits of the radix only. *)
Fixpoint radixValue (radix acc : Z) (s : string) : option Z :=
  match s with
  | EmptyString => Some acc
  | String c s' => d ← digitOf radix c; radixValue radix (radix * acc + d) s'
  end.

(** A text that starts like a NonDecimalIntegerLiteral ([0x], [0o], [0b],
    in either case): its value, or [None] when what follows the prefix is
    not one or more digits of the radix. *)
Definition nonDecimalLiteral (t : string) : option (option Z) :=
  match t with
  | String "0"%char (String c r) =>
      let radix :=
        if bool_decide (c = "x"%char ∨ c = "X"%char) then Some 16
        else if bool_decide (c = "o"%char ∨ c = "O"%char) then Some 8
        else if bool_decide (c = "b"%char ∨ c = "B"%char) then Some 2
        else None in
      match radix with
      | Some rd => Some (if bool_decide (r = "") then None else radixValue rd 0 r)
      | None => None
      end
  | _ => None
  end.

(** An optional ExponentPart that ends the text: the exponent, 0 when
    there is none. *)
Definition exponentPart (r : string) : option Z :=
  match r with
  | EmptyString => Some 0
  | String c r1 =>
      if bool_decide (c = "e"%char ∨ c = "E"%char) then
        let '(negative, r2) :=
          match r1 with
          | String "-"%char x => (true, x)
          | String "+"%char x => (false, x)
          | _ => (false, r1)
          end in
        let '(x, n, r3) := splitDigits 0 0 r2 in
        if (0 <? Z.of_nat n) && bool_decide (r3 = "")
        then Some (if negative then - x else x)
        else None
      else None
  end.

(** A StrUnsignedDecimalLiteral other than [Infinity]: digits with an
    optional fraction and an optional exponent, at least one digit before
    the exponent. The result [(m, e)] stands for [m × 10^e]. *)
Definition unsignedDecimal (u : string) : option (Z * Z) :=
  let '(i, ni, r1) := splitDigits 0 0 u in
  match r1 with
  | String "."%char r2 =>
      let '(m, nf, r3) := splitDigits i 0 r2 in
      if 0 <? Z.of_nat (ni + nf)
      then e ← exponentPart r3; Some (m, e - Z.of_nat nf)
      else None
  | _ =>
      if 0 <? Z.of_nat ni
      then e ← exponentPart r1; Some (i, e)
      else None
  end.

(** [Number(s)]: white space around the literal is dropped, the empty text
    is 0, a text that is no numeric literal is [NaN], and the value of a
    literal is rounded to the nearest Number. *)
Definition Number_of_string (s : string) : Number :=
  let t := trim s in
  if bool_decide (t = "") then Finite 0
  else
    match nonDecimalLiteral t with
    | Some (Some v) => roundNumber false (v * 2 ^ 1074) 1
    | Some None => NaN
    | None =>
        let '(negative, u) :=
          match t with
          | String "-"%char x => (true, x)
          | String "+"%char x => (false, x)
          | _ => (false, t)
          end in
        if bool_decide (u = "Infinity") then Infinity negative
        else
          match unsignedDecimal u with
          | Some (m, e) =>
              if 0 <=? e then roundNumber negative (m * 10 ^ e * 2 ^ 1074) 1
              else roundNumber negative (m * 2 ^ 1074) (10 ^ (- e))
          | None => NaN
          end
    end.

End JsNumber.

Import JsNumber.

(** ** Data model *)

(** What [new Date(s)] makes of a date string: an invalid date, or the
    instant (milliseconds since the epoch) the string denotes. An instant
    outside the range of [Date] reads as an invalid date too. *)
Inductive DateString :=
  | Unparseable
  | Iso (t : Z).

#[global] Instance DateString_eq_dec : EqDecision DateString.
Proof. solve_decision. Defined.

(** [s || d] on a string that may be missing: [undefined], [null] and the
    empty string are falsy. *)
Definition str_or (o : option string) (d : string) : string :=
  match o with
  | Some s => if decide (s = "") then d else s
  | None => d
  end.

Definition truthy (o : option string) : bool :=
  match o with
  | Some s => negb (bool_decide (s = ""))
  | None => false
  end.

(** The upstream (YouTube Data API) shapes the search module declares:
    [YTSearchItem], [YTVideoDetails], [YTChannel]. *)
Module YT.

Record Snippet := {
  channelId : option string;
  title : option string;
  channelTitle : option string;
  publishedAt : option DateString;
  thumbnail_medium : option string;
  thumbnail_default : option string;
  description : option string;
}.

Record SearchItem := {
  videoId : option string;          (* id?.videoId *)
  snippet : option Snippet;
}.

Record VideoDetails := {
  id : string;
  duration : option string;         (* contentDetails?.duration *)
  ytRating : option string;         (* contentDetails?.contentRating?.ytRating *)
  viewCount : option string;        (* statistics?.viewCount *)
  madeForKids : option bool;        (* status?.madeForKids *)
  tags : option (list string);      (* snippet?.tags *)
  categoryId : option string;       (* snippet?.categoryId *)
}.

Record Channel := {
  ch_id : string;
  subscriberCount : option string;  (* statistics?.subscriberCount *)
}.

End YT.

(** [VideoItem] of [src/src/types.ts]. [videoId] is a [string] for the type checker
    but is produced by a cast from a possibly missing id, and every consumer
    tests it, so it is optional here. *)
Record VideoItem := {
  videoId : option string;
  title : option string;
  channelTitle : option string;
  thumbnailUrl : option string;
  publishedAt : option DateString;
  duration : option string;
  viewCount : option string;
  description : option string;
  tags : list string;
  videoCategoryId : option string;
  madeForKids : bool;
}.

Record SearchResponse := {
  q : string;
  items : list VideoItem;
  nextPageToken : option string;
  cached : option bool;
}.

(** [new Map(xs.map(x => [key(x), x]))]: a later entry replaces an earlier
    one with the same key. *)
Definition Map_of {A} (key : A → string) (xs : list A) : gmap string A :=
  foldl (λ m x, <[key x := x]> m) ∅ xs.

(** [m.get(k)] where [k] may be [undefined] (never a key of these maps). *)
Definition Map_get {A} (m : gmap string A) (k : option string) : option A :=
  k ≫= (m !!.).

(** ** Safety filter *)

Definition CONTENT_BLOCKLIST : list string := [
  "sanwariya"; "pajama"; "naked"; "sex";
  "sexual"; "nsfw"; "xxx"; "porn"; "erotic"; "18+"; "x-rated"; "nude"; "nudity"; "fetish"; "bdsm";
  "violent"; "violence"; "murder"; "kill"; "killing"; "blood"; "gore"; "weapon"; "gun"; "shoot";
  "shooting"; "stab"; "stabbing"; "war"; "fight"; "assault"; "suicide";
  "explicit"; "swear"; "profanity"; "fuck"; "shit"; "bitch"; "asshole"; "cunt"; "dick"; "bastard";
  "age restricted" ].

(** The server keeps its own copy of the list ([BLOCKLIST] in
    [server/index.js]). *)
Definition BLOCKLIST : list string := [
  "sanwariya"; "pajama"; "naked"; "sex";
  "sexual"; "nsfw"; "xxx"; "porn"; "erotic"; "18+"; "x-rated"; "nude"; "nudity"; "fetish"; "bdsm";
  "violent"; "violence"; "murder"; "kill"; "killing"; "blood"; "gore"; "weapon"; "gun"; "shoot";
  "shooting"; "stab"; "stabbing"; "war"; "fight"; "assault"; "suicide";
  "explicit"; "swear"; "profanity"; "fuck"; "shit"; "bitch"; "asshole"; "cunt"; "dick"; "bastard";
  "age restricted" ].

Definition isTitleBlocked (title : option string) : bool :=
  let t := toLowerCase (str_or title "") in
  existsb (λ w, includes t w) CONTENT_BLOCKLIST.

(** [getMaxAllowedAge]: [env] is [process.env.REACT_APP_MAX_ALLOWED_AGE];
    [val] is the Number [parseInt] returns, which is not finite when the
    text has too many digits. *)
Definition getMaxAllowedAge (env : option string) : Z :=
  match parseInt (default "" env) with
  | Some n =>
      match roundInteger n with
      | Some val => if 0 <? val then val else 14
      | None => 14
      end
  | None => 14
  end.

(** [isKidFriendly] of [fetchYouTubeDirect]. Its [try]/[catch] is not
    modelled: on values of the declared types no statement of the body
    throws. *)
Definition isKidFriendly (maxAge : Z) (sn : option YT.Snippet) (det : option YT.VideoDetails) : bool :=
  let title := toLowerCase (str_or (sn ≫= YT.title) "") in
  let desc := toLowerCase (str_or (sn ≫= YT.description) "") in
  let tags := map toLowerCase (default [] (det ≫= YT.tags)) in
  let rating := det ≫= YT.ytRating in
  if (maxAge <? 18) && bool_decide (rating = Some "ytAgeRestricted") then false
  else if existsb (λ k, includes title k || includes desc k) CONTENT_BLOCKLIST then false
  else if (0 <? Z.of_nat (List.length tags))
          && existsb (λ k, existsb (λ t, includes t k) tags) CONTENT_BLOCKLIST then false
  else true.

(** The filtering step of [fetchYouTubeDirect]. *)
Definition filteredItems (maxAge : Z) (detailsMap : gmap string YT.VideoDetails)
    (items : list YT.SearchItem) : list YT.SearchItem :=
  List.filter
    (λ i, isKidFriendly maxAge (YT.snippet i) (Map_get detailsMap (YT.videoId i)))
    items.

(** The proxy: [MAX_ALLOWED_AGE = parseInt(process.env.MAX_ALLOWED_AGE || '14', 10)],
    possibly [NaN]. *)
Definition MAX_ALLOWED_AGE (env : option string) : option Z :=
  parseInt (str_or env "14").

(** [NaN < 18] is false. *)
Definition num_ltb (a : option Z) (b : Z) : bool :=
  match a with
  | Some x => x <? b
  | None => false
  end.

(** [detailsMap.get(vid) || {}]: the empty object has no field. *)
Definition emptyDetails : YT.VideoDetails :=
  {| YT.id := ""; YT.duration := None; YT.ytRating := None; YT.viewCount := None;
     YT.madeForKids := None; YT.tags := None; YT.categoryId := None |}.

(** [isBlocked] of the proxy's search handler. *)
Definition isBlocked (maxAge : option Z) (sn : option YT.Snippet) (det : YT.VideoDetails) : bool :=
  let title := toLowerCase (str_or (sn ≫= YT.title) "") in
  let desc := toLowerCase (str_or (sn ≫= YT.description) "") in
  let tags := map toLowerCase (default [] (YT.tags det)) in
  let rating := YT.ytRating det in
  if num_ltb maxAge 18 && bool_decide (rating = Some "ytAgeRestricted") then true
  else if existsb (λ k, includes title k || includes desc k) BLOCKLIST then true
  else if (0 <? Z.of_nat (List.length tags))
          && existsb (λ k, existsb (λ t, includes t k) tags) BLOCKLIST then true
  else false.

Definition server_details (detailsMap : gmap string YT.VideoDetails) (i : YT.SearchItem)
    : YT.VideoDetails :=
  default emptyDetails (Map_get detailsMap (YT.videoId i)).

Definition server_filtered (maxAge : option Z) (detailsMap : gmap string YT.VideoDetails)
    (items : list YT.SearchItem) : list YT.SearchItem :=
  List.filter (λ i, negb (isBlocked maxAge (YT.snippet i) (server_details detailsMap i))) items.

(** ** Exceptions *)

(** The outcome of code that may throw: the value, or the message of the
    [Error] thrown. *)
Inductive Result (A : Type) :=
  | Ok (a : A)
  | Throw (msg : string).
Arguments Ok {A} a.
Arguments Throw {A} msg.

Definition Result_bind {A B} (r : Result A) (f : A → Result B) : Result B :=
  match r with
  | Ok a => f a
  | Throw m => Throw m
  end.

Notation "x ←! r ; k" := (Result_bind r (λ x, k))
  (at level 20, r at level 100, k at level 200, right associativity, only parsing).

Definition RangeError : string := "Invalid time value".

(** ** The [Date] object *)

(** Time values and the civil calendar of ECMAScript (section "Date
    Objects"): days are counted from 1970-01-01, the calendar is the
    proleptic Gregorian one. *)
Module JsDate.

Definition msPerDay : Z := 86400000.
Definition maxTime : Z := 8640000000000000.

Definition TimeClip (t : Z) : option Z :=
  if (- maxTime <=? t) && (t <=? maxTime) then Some t else None.

Definition Day (t : Z) : Z := t / msPerDay.
Definition TimeWithinDay (t : Z) : Z := t mod msPerDay.

(** Number of the day on which month [m] (1..12) of year [y] shows day [d].
    The year is taken to start in March, so that the leap day is its last
    day. *)
Definition days_from_civil (y m d : Z) : Z :=
  let y' := if m <=? 2 then y - 1 else y in
  let mp := if m <=? 2 then m + 9 else m - 3 in
  365 * y' + y' / 4 - y' / 100 + y' / 400 + (153 * mp + 2) / 5 + d - 1 - 719468.

(** Year, month (1..12) and day of the month of day number [z]. *)
Definition civil_from_days (z : Z) : Z * Z * Z :=
  let z0 := z + 719468 in
  let era := z0 / 146097 in
  let doe := z0 - era * 146097 in
  let yoe := (doe - doe / 1460 + doe / 36524 - doe / 146096) / 365 in
  let doy := doe - (365 * yoe + yoe / 4 - yoe / 100) in
  let mp := (5 * doy + 2) / 153 in
  let d := doy - (153 * mp + 2) / 5 + 1 in
  let m := if mp <? 10 then mp + 3 else mp - 9 in
  let y := yoe + era * 400 in
  (if m <=? 2 then y + 1 else y, m, d).

Definition YearFromTime (t : Z) : Z := (civil_from_days (Day t)).1.1.
(** Months are numbered from 0. *)
Definition MonthFromTime (t : Z) : Z := (civil_from_days (Day t)).1.2 - 1.
Definition DateFromTime (t : Z) : Z := (civil_from_days (Day t)).2.

(** [MakeDay(year, month, date)]: [month] may lie outside 0..11 and carries
    into the year; [date] may lie outside the month and carries into the
    days. *)
Definition MakeDay (year month date : Z) : Z :=
  days_from_civil (year + month / 12) (month mod 12 + 1) 1 + date - 1.

Definition MakeDate (day time : Z) : Z := day * msPerDay + time.

(** The time zone of the host: [LocalTZA t isUTC] is the offset of local
    time, in milliseconds, at the instant [t] read as UTC or as local
    time. *)
Class Host := { LocalTZA : Z → bool → Z }.

Section Local.
Context {host : Host}.

Definition LocalTime (t : Z) : Z := t + LocalTZA t true.
Definition UTC (t : Z) : Z := t - LocalTZA t false.

(** A [Date] object is its time value; [None] is the invalid date. *)
Definition Date := option Z.

(** [new Date(s)] *)
Definition Date_of_string (s : DateString) : Date :=
  match s with
  | Iso t => TimeClip t
  | Unparseable => None
  end.

(** [new Date()] when the clock reads [now]. *)
Definition Date_now (now : Z) : Date := TimeClip now.

Definition getTime (d : Date) : option Z := d.

Definition getMonth (d : Date) : option Z :=
  t ← d; Some (MonthFromTime (LocalTime t)).

Definition getDate (d : Date) : option Z :=
  t ← d; Some (DateFromTime (LocalTime t)).

Definition setMonth (d : Date) (month : option Z) : Date :=
  t ← d; m ← month;
  let t' := LocalTime t in
  TimeClip (UTC (MakeDate (MakeDay (YearFromTime t') m (DateFromTime t')) (TimeWithinDay t'))).

Definition setDate (d : Date) (date : Z) : Date :=
  t ← d;
  let t' := LocalTime t in
  TimeClip (UTC (MakeDate (MakeDay (YearFromTime t') (MonthFromTime t') date) (TimeWithinDay t'))).

(** [toISOString] throws a [RangeError] on the invalid date. *)
Definition toISOString (d : Date) : Result DateString :=
  match d with
  | Some t => Ok (Iso t)
  | None => Throw RangeError
  end.

End Local.

(** Arithmetic and comparison of numbers one of which may be [NaN]. *)
Definition num_sub (a b : option Z) : option Z :=
  x ← a; y ← b; Some (x - y).

Definition num_lt (a b : option Z) : bool :=
  match a, b with
  | Some x, Some y => x <? y
  | _, _ => false
  end.

Definition num_ge (a b : option Z) : bool :=
  match a, b with
  | Some x, Some y => y <=? x
  | _, _ => false
  end.

(** [a !== b] on numbers: [NaN] differs from everything. *)
Definition num_neq (a b : option Z) : bool :=
  match a, b with
  | Some x, Some y => negb (x =? y)
  | _, _ => true
  end.

End JsDate.

Import JsDate.

(** ** Date windows (search module) *)

Record DateWindow := {
  publishedAfter : DateString;
  publishedBefore : DateString;
}.

Section Windows.
Context {host : Host}.

(** [toIsoUTC]: the empty string is the same as no string. *)
Definition toIsoUTC (input : option DateString) : option DateString :=
  s ← input; t ← Date_of_string s; Some (Iso t).

(** [getDefaultDateWindow], [now] being the reading of the clock. *)
Definition getDefaultDateWindow (now : Z) : Result DateWindow :=
  let now_ : Date := Date_now now in
  let after := setMonth now_ (num_sub (getMonth now_) (Some 1)) in
  a ←! toISOString after;
  b ←! toISOString now_;
  Ok {| publishedAfter := a; publishedBefore := b |}.

Definition getNextWindowByMonths (current : DateWindow) (monthsBack : Z) : Result DateWindow :=
  let before := Date_of_string (publishedAfter current) in
  let after := setMonth before (num_sub (getMonth before) (Some monthsBack)) in
  a ←! toISOString after;
  b ←! toISOString before;
  Ok {| publishedAfter := a; publishedBefore := b |}.

(** [n] applications of [getNextWindowByMonths], the windows listed in the
    order they are produced. *)
Fixpoint nextWindows (n : nat) (current : DateWindow) (monthsBack : Z)
    : Result (list DateWindow) :=
  match n with
  | O => Ok []
  | S n' =>
      w ←! getNextWindowByMonths current monthsBack;
      ws ←! nextWindows n' w monthsBack;
      Ok (w :: ws)
  end.

End Windows.

(** ** Search options (search module) *)

Inductive Order := OrderDate | OrderViewCount | OrderRelevance.
Inductive VideoDuration := DurShort | DurMedium | DurLong.
Inductive Mode := ModeYt | ModeProxy.

#[global] Instance Order_eq_dec : EqDecision Order.
Proof. solve_decision. Defined.
#[global] Instance VideoDuration_eq_dec : EqDecision VideoDuration.
Proof. solve_decision. Defined.
#[global] Instance Mode_eq_dec : EqDecision Mode.
Proof. solve_decision. Defined.

Module Opts.

Record SearchOptions := {
  order : option Order;
  maxResults : option Z;
  publishedAfter : option DateString;   (* [None]: missing or empty *)
  publishedBefore : option DateString;
  kidFriendlyOnly : option bool;
  videoCategoryId : option string;
  videoDuration : option VideoDuration;
  videoSyndicated : option bool;
}.

(** [{}] *)
Definition empty : SearchOptions :=
  {| order := None; maxResults := None; publishedAfter := None; publishedBefore := None;
     kidFriendlyOnly := None; videoCategoryId := None; videoDuration := None;
     videoSyndicated := None |}.

Definition with_window (o : SearchOptions) (a b : DateString) : SearchOptions :=
  {| order := order o; maxResults := maxResults o;
     publishedAfter := Some a; publishedBefore := Some b;
     kidFriendlyOnly := kidFriendlyOnly o; videoCategoryId := videoCategoryId o;
     videoDuration := videoDuration o; videoSyndicated := videoSyndicated o |}.

End Opts.

Abbreviation SearchOptions := Opts.SearchOptions.

#[global] Instance SearchOptions_eq_dec : EqDecision SearchOptions.
Proof. solve_decision. Defined.

Definition InvertedWindow : string := "publishedAfter must be before publishedBefore".

Section Normalize.
Context {host : Host}.

(** [normalizeSearchOptions], [now] being the reading of the clock. *)
Definition normalizeSearchOptions (now : Z) (opts : option SearchOptions)
    : Result SearchOptions :=
  let o := default Opts.empty opts in
  def ←! getDefaultDateWindow now;
  let afterIso := default (publishedAfter def) (toIsoUTC (Opts.publishedAfter o)) in
  let beforeIso := default (publishedBefore def) (toIsoUTC (Opts.publishedBefore o)) in
  let afterDate := Date_of_string afterIso in
  let beforeDate := Date_of_string beforeIso in
  if negb (num_lt (getTime afterDate) (getTime beforeDate))
  then Throw InvertedWindow
  else Ok (Opts.with_window o afterIso beforeIso).

End Normalize.

(** ** Ranking policy *)

(** [Array.prototype.sort] with a comparison function. A comparator result
    of [NaN] counts as [+0] (SortCompare). For a consistent comparator
    ECMAScript fixes the outcome: the stable arrangement in comparator
    order, which is what this insertion sort computes. *)
Definition SortCompare {A} (comparefn : A → A → option Z) (x y : A) : Z :=
  default 0 (comparefn x y).

Fixpoint sort_insert {A} (comparefn : A → A → option Z) (x : A) (l : list A) : list A :=
  match l with
  | [] => [x]
  | y :: l' =>
      if SortCompare comparefn x y <=? 0 then x :: l
      else y :: sort_insert comparefn x l'
  end.

Definition Array_sort {A} (comparefn : A → A → option Z) (l : list A) : list A :=
  foldr (sort_insert comparefn) [] l.

(** [x ? 1 : 0] *)
Definition bit (b : bool) : Z := if b then 1 else 0.

(** [da?.status?.madeForKids ? 1 : 0] *)
Definition mk (det : option YT.VideoDetails) : Z :=
  bit (default false (det ≫= YT.madeForKids)).

(** [parseInt(ch?.statistics?.subscriberCount || '0', 10) || 0] *)
Definition subs (ch : option YT.Channel) : Z :=
  default 0 (parseInt (str_or (ch ≫= YT.subscriberCount) "0")).

Definition verified (ch : option YT.Channel) : Z := bit (100000 <=? subs ch).

(** [new Date(x?.snippet?.publishedAt || 0).getTime()] *)
Definition published (i : YT.SearchItem) : option Z :=
  match YT.snippet i ≫= YT.publishedAt with
  | Some s => getTime (Date_of_string s)
  | None => Some 0
  end.

(** The comparison function of the prioritising sort; [byDate] is the test
    on the active order, [(opts?.order ?? 'date') === 'date'] in the client
    and [(order || 'date') === 'date'] in the proxy. *)
Definition prioritize (byDate : bool)
    (detailsMap : gmap string YT.VideoDetails) (channelMap : gmap string YT.Channel)
    (a b : YT.SearchItem) : option Z :=
  let da := Map_get detailsMap (YT.videoId a) in
  let db := Map_get detailsMap (YT.videoId b) in
  let mka := mk da in
  let mkb := mk db in
  if negb (mkb =? mka) then Some (mkb - mka)
  else
    let cha := Map_get channelMap (YT.snippet a ≫= YT.channelId) in
    let chb := Map_get channelMap (YT.snippet b ≫= YT.channelId) in
    let verifiedA := verified cha in
    let verifiedB := verified chb in
    if negb (verifiedB =? verifiedA) then Some (verifiedB - verifiedA)
    else if byDate then num_sub (published b) (published a)
    else Some 0.

Definition client_byDate (opts : option SearchOptions) : bool :=
  bool_decide (default OrderDate (opts ≫= Opts.order) = OrderDate).

Definition server_byDate (order : string) : bool :=
  bool_decide ((if decide (order = "") then "date" else order) = "date").

(** [filteredItems.slice().sort(...)] *)
Definition prioritizedItems (byDate : bool)
    (detailsMap : gmap string YT.VideoDetails) (channelMap : gmap string YT.Channel)
    (filtered : list YT.SearchItem) : list YT.SearchItem :=
  Array_sort (prioritize byDate detailsMap channelMap) filtered.

(** *** Arrays as objects

    [sort] works in place on the array it is called on; [slice] allocates
    a copy. Where a property is about which array an operation writes to,
    arrays live in a heap, a map from locations to contents. *)
Definition Array_slice {A} (h : gmap nat (list A)) (a : nat) : nat * gmap nat (list A) :=
  let fresh_loc := fresh (dom h) in
  (fresh_loc, <[fresh_loc := default [] (h !! a)]> h).

Definition Array_sort_at {A} (comparefn : A → A → option Z) (h : gmap nat (list A)) (a : nat)
    : gmap nat (list A) :=
  alter (Array_sort comparefn) a h.

(** [const prioritizedItems = filteredItems.slice().sort(cmp)] on the heap:
    the location of the result and the heap after the statement. *)
Definition prioritize_stmt {A} (comparefn : A → A → option Z)
    (h : gmap nat (list A)) (filteredItems_loc : nat) : nat * gmap nat (list A) :=
  let '(copy, h1) := Array_slice h filteredItems_loc in
  (copy, Array_sort_at comparefn h1 copy).

(** ** The direct fetch ([fetchYouTubeDirect]) *)

(** What the three upstream requests deliver when the search request
    succeeds. A details or channels request that is skipped or fails leaves
    its list empty. *)
Record Upstream := {
  up_items : list YT.SearchItem;
  up_nextPageToken : option string;
  up_details : list YT.VideoDetails;
  up_channels : list YT.Channel;
}.

(** The outcome of the network for one upstream operation. *)
Inductive Network (A : Type) :=
  | NetFail (msg : string)
  | NetOk (a : A).
Arguments NetFail {A} msg.
Arguments NetOk {A} a.

(** [x || null] on an optional string *)
Definition or_null (o : option string) : option string :=
  match o with
  | Some s => if decide (s = "") then None else Some s
  | None => None
  end.

(** The [VideoItem] built from a search item and its details. *)
Definition toVideoItem (detailsMap : gmap string YT.VideoDetails) (i : YT.SearchItem) : VideoItem :=
  let vid := YT.videoId i in
  let sn := YT.snippet i in
  let d := Map_get detailsMap vid in
  {| videoId := vid;
     title := sn ≫= YT.title;
     channelTitle := sn ≫= YT.channelTitle;
     thumbnailUrl :=
       match or_null (sn ≫= YT.thumbnail_medium) with
       | Some u => Some u
       | None => sn ≫= YT.thumbnail_default
       end;
     publishedAt := sn ≫= YT.publishedAt;
     duration := or_null (d ≫= YT.duration);
     viewCount := or_null (d ≫= YT.viewCount);
     description := sn ≫= YT.description;
     tags := default [] (d ≫= YT.tags);
     videoCategoryId := or_null (d ≫= YT.categoryId);
     madeForKids := default false (d ≫= YT.madeForKids) |}.

(** [v.videoId && !isTitleBlocked(v.title)] *)
Definition validItem (v : VideoItem) : bool :=
  truthy (videoId v) && negb (isTitleBlocked (title v)).

(** The stateful filter against the seen set: an item passes when its id is
    new, and passing records the id. Returns the items that pass and the
    set afterwards. *)
Fixpoint uniqueItems (seen : gset string) (results : list VideoItem)
    : list VideoItem * gset string :=
  match results with
  | [] => ([], seen)
  | v :: rest =>
      match videoId v with
      | Some vid =>
          if bool_decide (vid = "") then uniqueItems seen rest
          else if bool_decide (vid ∈ seen) then uniqueItems seen rest
          else
            let '(us, seen') := uniqueItems ({[vid]} ∪ seen) rest in
            (v :: us, seen')
      | None => uniqueItems seen rest
      end
  end.

(** [process.env] as the client reads it. *)
Record ClientEnv := {
  REACT_APP_MAX_ALLOWED_AGE : option string;
  REACT_APP_YOUTUBE_API_KEY : option string;
  REACT_APP_YT_API_KEY : option string;
}.

Definition getYouTubeKey (env : ClientEnv) : string :=
  trim (str_or (REACT_APP_YOUTUBE_API_KEY env) (str_or (REACT_APP_YT_API_KEY env) "")).

Definition NoKey : string :=
  "YouTube API key is not configured. Please set REACT_APP_YOUTUBE_API_KEY in your .env.".

Section DirectFetch.
Context {host : Host}.

(** Everything [fetchYouTubeDirect] does once the upstream data is there:
    filter, rank, convert, drop invalid items, drop ids already seen for
    this query. Returns the response and the seen map afterwards. *)
Definition directResponse (env : ClientEnv) (seenMap : gmap string (gset string))
    (q : string) (opts : option SearchOptions) (u : Upstream)
    : SearchResponse * gmap string (gset string) :=
  let detailsMap := Map_of YT.id (up_details u) in
  let channelMap := Map_of YT.ch_id (up_channels u) in
  let filtered := filteredItems (getMaxAllowedAge (REACT_APP_MAX_ALLOWED_AGE env)) detailsMap (up_items u) in
  let prioritized := prioritizedItems (client_byDate opts) detailsMap channelMap filtered in
  let seenKey := toLowerCase q in
  let seen := default ∅ (seenMap !! seenKey) in
  let results := List.filter validItem (map (toVideoItem detailsMap) prioritized) in
  let '(unique, seen') := uniqueItems seen results in
  ({| q := q; items := unique; nextPageToken := or_null (up_nextPageToken u); cached := None |},
   <[seenKey := seen']> seenMap).

(** [fetchYouTubeDirect]: [now] is the clock when the call starts, [net] the
    outcome of the search request ([NetFail] with the message of the error
    thrown for a response that is not ok). *)
Definition fetchYouTubeDirect (env : ClientEnv) (now : Z)
    (seenMap : gmap string (gset string))
    (q : string) (pageToken : option string) (opts : option SearchOptions)
    (net : Network Upstream)
    : Result SearchResponse * gmap string (gset string) :=
  if decide (getYouTubeKey env = "") then (Throw NoKey, seenMap)
  else
    match getDefaultDateWindow now with
    | Throw m => (Throw m, seenMap)
    | Ok def =>
        let afterIso := default (publishedAfter def) (toIsoUTC (opts ≫= Opts.publishedAfter)) in
        let beforeIso := default (publishedBefore def) (toIsoUTC (opts ≫= Opts.publishedBefore)) in
        if num_ge (getTime (Date_of_string afterIso)) (getTime (Date_of_string beforeIso))
        then (Throw InvertedWindow, seenMap)
        else
          match net with
          | NetFail m => (Throw m, seenMap)
          | NetOk u =>
              let '(resp, seenMap') := directResponse env seenMap q opts u in
              (Ok resp, seenMap')
          end
    end.

End DirectFetch.

(** ** The cached search ([fetchSearch]) *)

(** The cache key. [stableStringify] is a JSON text with sorted property
    names, which determines and is determined by the four components, so the
    key is kept as the record of them. *)
Record CacheKey := {
  key_q : string;
  key_pageToken : string;
  key_opts : SearchOptions;
  key_mode : Mode;
}.

#[global] Instance CacheKey_eq_dec : EqDecision CacheKey.
Proof. solve_decision. Defined.

#[global] Instance DateString_countable : Countable DateString.
Proof.
  refine (inj_countable'
    (λ d, match d with Unparseable => None | Iso t => Some t end)
    (λ o, match o with None => Unparseable | Some t => Iso t end) _).
  by intros [].
Defined.

#[global] Instance Order_countable : Countable Order.
Proof.
  refine (inj_countable'
    (λ o, match o with OrderDate => 0%nat | OrderViewCount => 1%nat | OrderRelevance => 2%nat end)
    (λ n, match n with 0%nat => OrderDate | 1%nat => OrderViewCount | _ => OrderRelevance end) _).
  by intros [].
Defined.

#[global] Instance VideoDuration_countable : Countable VideoDuration.
Proof.
  refine (inj_countable'
    (λ o, match o with DurShort => 0%nat | DurMedium => 1%nat | DurLong => 2%nat end)
    (λ n, match n with 0%nat => DurShort | 1%nat => DurMedium | _ => DurLong end) _).
  by intros [].
Defined.

#[global] Instance Mode_countable : Countable Mode.
Proof.
  refine (inj_countable'
    (λ m, match m with ModeYt => true | ModeProxy => false end)
    (λ b : bool, if b then ModeYt else ModeProxy) _).
  by intros [].
Defined.

#[global] Instance SearchOptions_countable : Countable SearchOptions.
Proof.
  refine (inj_countable'
    (λ o, (Opts.order o, Opts.maxResults o, Opts.publishedAfter o, Opts.publishedBefore o,
           Opts.kidFriendlyOnly o, Opts.videoCategoryId o, Opts.videoDuration o,
           Opts.videoSyndicated o))
    (λ '(a, b, c, d, e, f, g, h),
       {| Opts.order := a; Opts.maxResults := b; Opts.publishedAfter := c;
          Opts.publishedBefore := d; Opts.kidFriendlyOnly := e; Opts.videoCategoryId := f;
          Opts.videoDuration := g; Opts.videoSyndicated := h |}) _).
  by intros [].
Defined.

#[global] Instance CacheKey_countable : Countable CacheKey.
Proof.
  refine (inj_countable'
    (λ k, (key_q k, key_pageToken k, key_opts k, key_mode k))
    (λ '(a, b, c, d), {| key_q := a; key_pageToken := b; key_opts := c; key_mode := d |}) _).
  by intros [].
Defined.

Definition makeSearchKey (q : string) (pageToken : option string)
    (opts : option SearchOptions) (mode : Mode) : CacheKey :=
  {| key_q := q; key_pageToken := str_or pageToken "";
     key_opts := default Opts.empty opts; key_mode := mode |}.

(** [deepClone] copies a value so that the copy shares nothing with the
    original. Values of the embedding have no identity: the copy is the
    value. *)
Definition deepClone {A} (val : A) : A := val.

(** [res.cached = true] *)
Definition mark_cached (r : SearchResponse) : SearchResponse :=
  {| q := q r; items := items r; nextPageToken := nextPageToken r; cached := Some true |}.

(** [result.items = (result.items || []).filter(...)] *)
Definition with_items (r : SearchResponse) (its : list VideoItem) : SearchResponse :=
  {| q := q r; items := its; nextPageToken := nextPageToken r; cached := cached r |}.

(** An upstream operation started by [fetchSearch]: the arguments of the
    call to [fetchYouTubeDirect] or [fetchViaProxy], the key it will be
    cached under and the clock when it started. *)
Record Request := {
  req_mode : Mode;
  req_q : string;
  req_pageToken : option string;
  req_opts : SearchOptions;
  req_key : CacheKey;
  req_at : Z;
}.

(** The state of the search module and the browser's session storage.
    - [sessionStorage] is [None] where the storage cannot be used (every
      access throws, which the code ignores); an entry is the pair
      [{ at, data }] stored under [yt_cache:<key>].
    - [inFlightSearch] maps a key to its pending promise; promises are
      numbered in the order they are created.
    - [running] holds, per pending promise, the variables its body closes
      over.
    - [upstreamLog] lists the upstream operations started so far; the code
      has no such variable, it is there to count them. *)
Record Store := {
  searchCache : gmap CacheKey SearchResponse;
  sessionStorage : option (gmap CacheKey (Z * SearchResponse));
  inFlightSearch : gmap CacheKey nat;
  seenMap : gmap string (gset string);
  running : gmap nat Request;
  nextPromise : nat;
  upstreamLog : list Request;
}.

Definition initialStore (storage : option (gmap CacheKey (Z * SearchResponse))) : Store :=
  {| searchCache := ∅; sessionStorage := storage; inFlightSearch := ∅; seenMap := ∅;
     running := ∅; nextPromise := 0; upstreamLog := [] |}.

Definition set_searchCache (f : gmap CacheKey SearchResponse → gmap CacheKey SearchResponse)
    (st : Store) : Store :=
  {| searchCache := f (searchCache st); sessionStorage := sessionStorage st;
     inFlightSearch := inFlightSearch st; seenMap := seenMap st; running := running st;
     nextPromise := nextPromise st; upstreamLog := upstreamLog st |}.

Definition set_sessionStorage
    (f : gmap CacheKey (Z * SearchResponse) → gmap CacheKey (Z * SearchResponse))
    (st : Store) : Store :=
  {| searchCache := searchCache st; sessionStorage := f <$> sessionStorage st;
     inFlightSearch := inFlightSearch st; seenMap := seenMap st; running := running st;
     nextPromise := nextPromise st; upstreamLog := upstreamLog st |}.

Definition set_seenMap (m : gmap string (gset string)) (st : Store) : Store :=
  {| searchCache := searchCache st; sessionStorage := sessionStorage st;
     inFlightSearch := inFlightSearch st; seenMap := m; running := running st;
     nextPromise := nextPromise st; upstreamLog := upstreamLog st |}.

(** Registers a new pending promise for [req] and records the upstream
    operation. *)
Definition start_request (req : Request) (st : Store) : nat * Store :=
  let p := nextPromise st in
  (p, {| searchCache := searchCache st; sessionStorage := sessionStorage st;
         inFlightSearch := <[req_key req := p]> (inFlightSearch st);
         seenMap := seenMap st; running := <[p := req]> (running st);
         nextPromise := S p; upstreamLog := upstreamLog st ++ [req] |}).

(** The [finally] of the promise body, and the end of the body. *)
Definition finish_request (p : nat) (key : CacheKey) (st : Store) : Store :=
  {| searchCache := searchCache st; sessionStorage := sessionStorage st;
     inFlightSearch := delete key (inFlightSearch st);
     seenMap := seenMap st; running := delete p (running st);
     nextPromise := nextPromise st; upstreamLog := upstreamLog st |}.

Definition MAX_AGE_MS : Z := 15 * 60 * 1000.

Definition EmptyQuery : string := "Query is empty".

(** What a call of [fetchSearch] hands back: a promise already rejected,
    a promise already resolved, or a pending promise. *)
Inductive Reply :=
  | Rejected (msg : string)
  | Resolved (r : SearchResponse)
  | Pending (p : nat).

(** The second cache tier: a fresh entry is returned marked as cached and
    warms the first tier, a stale one is removed. *)
Definition sessionLookup (now : Z) (cacheKey : CacheKey) (st : Store)
    : option SearchResponse * Store :=
  match sessionStorage st with
  | None => (None, st)
  | Some storage =>
      match storage !! cacheKey with
      | None => (None, st)
      | Some (at_, data) =>
          if now - at_ <? MAX_AGE_MS then
            let res := mark_cached (deepClone data) in
            (Some res, set_searchCache (insert cacheKey (deepClone res)) st)
          else (None, set_sessionStorage (delete cacheKey) st)
      end
  end.

Section FetchSearch.
Context {host : Host}.

(** The first part of [fetchSearch]: the query is sanitised, the options
    are normalised and the cache key is made; either step may throw. The
    result gathers what the rest of the function works with. [now] is the
    reading of the clock during the call. *)
Definition prepare (env : ClientEnv) (now : Z)
    (q_ : string) (pageToken : option string) (opts : option SearchOptions)
    : Result Request :=
  let qSan := collapseSpaces (trim q_) in
  if decide (qSan = "") then Throw EmptyQuery
  else
    normOpts ←! normalizeSearchOptions now opts;
    let hasClientKey := negb (bool_decide (getYouTubeKey env = "")) in
    let mode := if hasClientKey then ModeYt else ModeProxy in
    let cacheKey := makeSearchKey qSan pageToken (Some normOpts) mode in
    Ok {| req_mode := mode; req_q := qSan; req_pageToken := pageToken;
          req_opts := normOpts; req_key := cacheKey; req_at := now |}.

(** The second part: the two cache tiers, then the pending operation of
    the same key, then a new upstream operation. *)
Definition serve (req : Request) (st : Store) : Reply * Store :=
  let cacheKey := req_key req in
  match searchCache st !! cacheKey with
  | Some cachedMem => (Resolved (mark_cached (deepClone cachedMem)), st)
  | None =>
      match sessionLookup (req_at req) cacheKey st with
      | (Some res, st1) => (Resolved res, st1)
      | (None, st1) =>
          match inFlightSearch st1 !! cacheKey with
          | Some inFlight => (Pending inFlight, st1)
          | None =>
              let '(p, st2) := start_request req st1 in
              (Pending p, st2)
          end
      end
  end.

(** [fetchSearch] up to the point where it returns its promise. *)
Definition fetchSearch (env : ClientEnv) (now : Z)
    (q_ : string) (pageToken : option string) (opts : option SearchOptions)
    (st : Store) : Reply * Store :=
  match prepare env now q_ pageToken opts with
  | Throw m => (Rejected m, st)
  | Ok req => serve req st
  end.

(** What arrives for a pending operation: the outcome of the upstream
    requests of [fetchYouTubeDirect], or the body of the proxy's answer for
    [fetchViaProxy]. Only the one matching the mode of the request is
    read. [quota_ok] tells whether session storage accepts the write. *)
Record Arrival := {
  from_youtube : Network Upstream;
  from_proxy : Network SearchResponse;
  quota_ok : bool;
}.

(** The rest of the promise body of [fetchSearch], run when the upstream
    operation of promise [p] completes at clock [now]: the value the promise
    settles with ([None] when [p] is not pending) and the state
    afterwards. The end of [fetchYouTubeDirect] (from its last [await] on)
    and the continuation of [fetchSearch] are one step: the first writes the
    seen map only, the second the caches and the in-flight map only, so
    that what may run between the two commutes with them. *)
Definition settle (env : ClientEnv) (now : Z) (p : nat) (arr : Arrival) (st : Store)
    : option (Result SearchResponse) * Store :=
  match running st !! p with
  | None => (None, st)
  | Some req =>
      let '(result, st1) :=
        match req_mode req with
        | ModeYt =>
            let '(r, seen') :=
              fetchYouTubeDirect env (req_at req) (seenMap st) (req_q req)
                (req_pageToken req) (Some (req_opts req)) (from_youtube arr) in
            (r, set_seenMap seen' st)
        | ModeProxy =>
            (match from_proxy arr with
             | NetOk r => Ok r
             | NetFail m => Throw m
             end, st)
        end in
      match result with
      | Ok r =>
          let r' := with_items r (List.filter validItem (items r)) in
          let toCache := deepClone r' in
          let st2 := set_searchCache (insert (req_key req) (deepClone toCache)) st1 in
          let st3 :=
            if quota_ok arr
            then set_sessionStorage (insert (req_key req) (now, toCache)) st2
            else st2 in
          (Some (Ok (deepClone toCache)), finish_request p (req_key req) st3)
      | Throw m =>
          (Some (Throw m), finish_request p (req_key req) st1)
      end
  end.

End FetchSearch.

(** ** The pool orchestrator (the [App] component) *)

Definition AI_KEYWORDS : list string :=
  ["ai music video"; "ai song"; "ai ethnic music"; "ai music"].

Definition BATCH_SIZE : Z := 30.
Definition MONTH_CAP : nat := 12.

(** The refs of the [App] component that the loaders read and write. *)
Record AppState := {
  oldestPublishedDate : option DateString;    (* [None]: the empty string *)
  monthsBackCounter : gmap string Z;
  keywordIndex : nat;
  globalDisplayedIds : gset string;
  allVideos : list VideoItem;
  loadingMoreRef : bool;
}.

Definition initialApp : AppState :=
  {| oldestPublishedDate := None; monthsBackCounter := ∅; keywordIndex := 0;
     globalDisplayedIds := ∅; allVideos := []; loadingMoreRef := false |}.

(** [fetchSearch] as the orchestrator sees it: the response or the error of
    the awaited promise. The answer may depend on the attempt (first
    argument), the keyword and the options. *)
Definition Fetcher := nat → string → SearchOptions → Result SearchResponse.

(** The options of every orchestrator request. *)
Definition windowOptions (after before : DateString) : SearchOptions :=
  {| Opts.order := Some OrderDate; Opts.maxResults := Some BATCH_SIZE;
     Opts.publishedAfter := Some after; Opts.publishedBefore := Some before;
     Opts.kidFriendlyOnly := Some true; Opts.videoCategoryId := None;
     Opts.videoDuration := None; Opts.videoSyndicated := None |}.

(** [counters[kw] || 1] *)
Definition counterOf (counters : gmap string Z) (kw : string) : Z :=
  match counters !! kw with
  | Some c => if c =? 0 then 1 else c
  | None => 1
  end.

(** [v && v.videoId && !globalDisplayedIdsRef.current.has(v.videoId)] *)
Definition isNewItem (seen : gset string) (v : VideoItem) : bool :=
  match videoId v with
  | Some vid => negb (bool_decide (vid = "")) && negb (bool_decide (vid ∈ seen))
  | None => false
  end.

Section Orchestrator.
Context {host : Host}.

Definition minusMonths (d : Date) (months : Z) : Date :=
  let day := getDate d in
  let dt := setMonth d (num_sub (getMonth d) (Some months)) in
  if num_neq (getDate dt) day then setDate dt 0 else dt.

(** [computeNextMonthWindow]; [now] is read only while no oldest date is
    recorded. *)
Definition computeNextMonthWindow (now : Z) (oldestPublished : option DateString)
    (offsetMonths : Z) : Result (DateString * DateString) :=
  let oldest : Date :=
    match oldestPublished with
    | Some s => Date_of_string s
    | None => Date_now now
    end in
  let windowEndDate := minusMonths oldest (offsetMonths - 1) in
  let windowStartDate := minusMonths oldest offsetMonths in
  after ←! toISOString windowStartDate;
  before ←! toISOString windowEndDate;
  Ok (after, before).

(** The [while] loop of [fetchNextMonthWindowGlobal]; [remaining] is
    [MONTH_CAP - attempts]. Returns the outcome of the function and the
    counters afterwards. *)
Fixpoint windowLoop (fetch : Fetcher) (clock : nat → Z)
    (oldestPublished : option DateString) (seen : gset string) (kw : string)
    (remaining attempts : nat) (counter : Z) (counters : gmap string Z)
    : Result (list VideoItem) * gmap string Z :=
  match remaining with
  | O => (Ok [], counters)
  | S remaining' =>
      match computeNextMonthWindow (clock attempts) oldestPublished counter with
      | Throw m => (Throw m, counters)
      | Ok (after, before) =>
          match fetch attempts kw (windowOptions after before) with
          | Throw m => (Throw m, counters)
          | Ok resp =>
              let filtered := List.filter (isNewItem seen) (items resp) in
              if 0 <? Z.of_nat (List.length filtered)
              then (Ok filtered, <[kw := counter + 1]> counters)
              else
                windowLoop fetch clock oldestPublished seen kw remaining' (S attempts)
                  (counter + 1) (<[kw := counter + 1]> counters)
          end
      end
  end.

Definition set_loop_result (st : AppState) (idx : nat) (counters : gmap string Z) : AppState :=
  {| oldestPublishedDate := oldestPublishedDate st; monthsBackCounter := counters;
     keywordIndex := idx; globalDisplayedIds := globalDisplayedIds st;
     allVideos := allVideos st; loadingMoreRef := loadingMoreRef st |}.

(** [fetchNextMonthWindowGlobal] over the keyword list [keywords]
    ([AI_KEYWORDS.current]). *)
Definition fetchNextMonthWindowGlobal (keywords : list string) (fetch : Fetcher)
    (clock : nat → Z) (st : AppState) : Result (list VideoItem) * AppState :=
  let idx := (keywordIndex st mod List.length keywords)%nat in
  match keywords !! idx with
  | None => (Throw "keyword is undefined", st)
  | Some kw =>
      let idx' := (S idx mod List.length keywords)%nat in
      let counter := counterOf (monthsBackCounter st) kw in
      let '(r, counters) :=
        windowLoop fetch clock (oldestPublishedDate st) (globalDisplayedIds st) kw
          MONTH_CAP 0 counter (monthsBackCounter st) in
      (r, set_loop_result st idx' counters)
  end.

(** [items.forEach(v => globalDisplayedIdsRef.current.add(v.videoId))];
    the items at hand all carry an id. *)
Definition addIds (seen : gset string) (its : list VideoItem) : gset string :=
  foldl (λ s v, match videoId v with Some vid => {[vid]} ∪ s | None => s end) seen its.

Definition set_loaded (st : AppState) (its : list VideoItem) : AppState :=
  {| oldestPublishedDate := oldestPublishedDate st; monthsBackCounter := monthsBackCounter st;
     keywordIndex := keywordIndex st;
     globalDisplayedIds := addIds (globalDisplayedIds st) its;
     allVideos := allVideos st ++ its; loadingMoreRef := false |}.

Definition set_loadingMoreRef (st : AppState) (b : bool) : AppState :=
  {| oldestPublishedDate := oldestPublishedDate st; monthsBackCounter := monthsBackCounter st;
     keywordIndex := keywordIndex st; globalDisplayedIds := globalDisplayedIds st;
     allVideos := allVideos st; loadingMoreRef := b |}.

(** [loadMoreForAny], run to completion: the batch appended to the pool
    ([None] when the call does nothing because a load is going on, the
    empty list when the fetch fails or finds nothing) and the state
    afterwards. *)
Definition loadMoreForAny (fetch : Fetcher) (clock : nat → Z) (st : AppState)
    : option (list VideoItem) * AppState :=
  if loadingMoreRef st then (None, st)
  else
    let st0 := set_loadingMoreRef st true in
    match fetchNextMonthWindowGlobal AI_KEYWORDS fetch clock st0 with
    | (Ok its, st1) =>
        if 0 <? Z.of_nat (List.length its) then (Some its, set_loaded st1 its)
        else (Some [], set_loadingMoreRef st1 false)
    | (Throw _, st1) => (Some [], set_loadingMoreRef st1 false)
    end.

(** A run of incremental loads, one [Fetcher] and clock per load: the
    batches in the order they were appended. *)
Fixpoint loadMoreRun (loads : list (Fetcher * (nat → Z))) (st : AppState)
    : list (list VideoItem) * AppState :=
  match loads with
  | [] => ([], st)
  | (fetch, clock) :: rest =>
      let '(b, st1) := loadMoreForAny fetch clock st in
      let '(bs, st2) := loadMoreRun rest st1 in
      (default [] b :: bs, st2)
  end.

End Orchestrator.

(** ** The category classifier ([computeCategoriesPool]) *)

(** [Number(v.viewCount || '0')] *)
Definition views (v : VideoItem) : Number :=
  Number_of_string (str_or (viewCount v) "0").

(** [(a, b) => Number(b.viewCount || '0') - Number(a.viewCount || '0')] *)
Definition byViews (a b : VideoItem) : Number := Number_sub (views b) (views a).

(** [pool.slice().sort(byViews)], the bucket "Top Most Views". *)
Definition topViews (pool : list VideoItem) : list VideoItem :=
  Array_sort (λ a b, Number_sign (byViews a b)) pool.

(** ** The proxy's date normalisation ([GET /api/search]) *)

(** [parseIso]: [null] for the empty and for the unparseable string. *)
Definition parseIso (s : option DateString) : option Z :=
  s' ← s; Date_of_string s'.

(** The block that normalises [publishedAfter] and [publishedBefore] in the
    handler, [now] being the clock. The dates are [null] ([None]) or [Date]
    objects, which may be invalid. The result is the pair of strings the
    handler goes on with ([None] is the empty string), or the exception
    that sends the request to the [catch] of the handler. *)
Definition normalizeProxyWindow (now : Z) (publishedAfter_ publishedBefore_ : option DateString)
    : Result (option DateString * option DateString) :=
  let dAfter : option Date := Some <$> parseIso publishedAfter_ in
  let dBefore : option Date := Some <$> parseIso publishedBefore_ in
  let now_ : Date := Date_now now in
  let dBefore :=
    match dBefore with
    | Some b => if num_lt (getTime now_) (getTime b) then Some now_ else Some b
    | None => None
    end in
  let dAfter :=
    match dAfter, dBefore with
    | Some a, Some b =>
        if num_ge (getTime a) (getTime b)
        then Some (t ← num_sub (getTime b) (Some 1000); TimeClip t)
        else Some a
    | _, _ => dAfter
    end in
  a ←! match dAfter with
       | Some d => s ←! toISOString d; Ok (Some s)
       | None => Ok None
       end;
  b ←! match dBefore with
       | Some d => s ←! toISOString d; Ok (Some s)
       | None => Ok None
       end;
  Ok (a, b).

(** The status the handler answers with when the block throws: the
    exception has no [response], so the status is 500, which is reported as
    502. *)
Definition proxyStatusOnThrow : Z := 502.

(** ** Vocabulary of the statements *)

(** A candidate is clean when nothing of the blocklist occurs, up to letter
    case, in its title, its description or one of its tags. *)
Definition clean_text (ttl desc : option string) (tgs : list string) : Prop :=
  ∀ k, k ∈ CONTENT_BLOCKLIST →
    ¬ occurs_ci k (str_or ttl "") ∧
    ¬ occurs_ci k (str_or desc "") ∧
    ∀ t, t ∈ tgs → ¬ occurs_ci k t.


(** The text [s] is a string of decimal digits, and [n] is the number
    they denote. *)
Fixpoint decimalDigits (acc : Z) (s : string) : option Z :=
  match s with
  | EmptyString => Some acc
  | String c s' =>
      if isDigit c then decimalDigits (10 * acc + (code c - 48)) s' else None
  end.

Definition denotes (s : string) (n : Z) : Prop :=
  s ≠ "" ∧ decimalDigits 0 s = Some n.

(** The ranking keys of a candidate, as the specification names them. *)

(** The candidate is flagged made-for-kids: the details of its video are
    at hand and say so. *)
Definition flaggedForKids (detailsMap : gmap string YT.VideoDetails) (i : YT.SearchItem)
    : Prop :=
  ∃ d, Map_get detailsMap (YT.videoId i) = Some d ∧ YT.madeForKids d = Some true.

(** The channel of the candidate has [n] subscribers: the count of the
    channel is a text of digits that denote [n], or the channel data or
    the count is missing and [n] is 0. *)
Definition subscribers (channelMap : gmap string YT.Channel) (i : YT.SearchItem) (n : Z)
    : Prop :=
  match Map_get channelMap (YT.snippet i ≫= YT.channelId) with
  | Some ch =>
      match YT.subscriberCount ch with
      | Some s => if decide (s = "") then n = 0 else denotes s n
      | None => n = 0
      end
  | None => n = 0
  end.

(** The candidate was published at the instant [t]: its [publishedAt] is
    the date of the instant [t], in the range of [Date], or is missing and
    [t] is the epoch. *)
Definition publishedAtInstant (i : YT.SearchItem) (t : Z) : Prop :=
  match YT.snippet i ≫= YT.publishedAt with
  | Some (Iso x) => x = t ∧ - maxTime ≤ t ≤ maxTime
  | Some Unparseable => False
  | None => t = 0
  end.

(** Every [publishedAt] of the list is missing or parses as a date. *)
Definition dates_parse (l : list YT.SearchItem) : Prop :=
  Forall (λ i, ∃ t, publishedAtInstant i t) l.

(** The ranking keys of a candidate, as the comparator reads them. *)
Definition kidsKey (detailsMap : gmap string YT.VideoDetails) (i : YT.SearchItem) : Z :=
  mk (Map_get detailsMap (YT.videoId i)).

Definition subscribersOf (channelMap : gmap string YT.Channel) (i : YT.SearchItem) : Z :=
  subs (Map_get channelMap (YT.snippet i ≫= YT.channelId)).

(** [a] stands before [b] in [l]: at a smaller index. *)
Definition precedes {A} (l : list A) (a b : A) : Prop :=
  ∀ i j : nat, l !! i = Some a → l !! j = Some b → (i < j)%nat.

(** ** Sample inputs *)

Definition sample_snippet (ttl : string) : YT.Snippet :=
  {| YT.channelId := Some "c1"; YT.title := Some ttl; YT.channelTitle := None;
     YT.publishedAt := Some (Iso 1700000000000); YT.thumbnail_medium := None;
     YT.thumbnail_default := None; YT.description := Some "a calm tune" |}.

Definition sample_candidates : list YT.SearchItem :=
  [ {| YT.videoId := Some "v1"; YT.snippet := Some (sample_snippet "AI lullaby") |};
    {| YT.videoId := Some "v2"; YT.snippet := Some (sample_snippet "Gun FIGHT mix") |} ].

Definition sample_upstream : Upstream :=
  {| up_items := sample_candidates; up_nextPageToken := None;
     up_details :=
       [ {| YT.id := "v1"; YT.duration := None; YT.ytRating := None; YT.viewCount := Some "12";
            YT.madeForKids := Some true; YT.tags := Some ["Soft"; "piano"];
            YT.categoryId := Some "10" |} ];
     up_channels := [] |}.

Definition sample_env : ClientEnv :=
  {| REACT_APP_MAX_ALLOWED_AGE := None; REACT_APP_YOUTUBE_API_KEY := Some "k";
     REACT_APP_YT_API_KEY := None |}.

(** A host whose local time is UTC. *)
Definition utc_host : Host := {| LocalTZA := λ _ _, 0 |}.


(** The order the prioritising sort arranges candidates in: by the
    made-for-kids flag, then by the established-channel flag, then (when the
    order is by date) by the time of publication, greater first. *)
Definition verifiedOf (channelMap : gmap string YT.Channel) (i : YT.SearchItem) : Z :=
  verified (Map_get channelMap (YT.snippet i ≫= YT.channelId)).

Definition publishedOr0 (i : YT.SearchItem) : Z := default 0 (published i).

Definition rank_ge (byDate : bool)
    (detailsMap : gmap string YT.VideoDetails) (channelMap : gmap string YT.Channel)
    (a b : YT.SearchItem) : Prop :=
  kidsKey detailsMap b < kidsKey detailsMap a ∨
  (kidsKey detailsMap a = kidsKey detailsMap b ∧
   (verifiedOf channelMap b < verifiedOf channelMap a ∨
    (verifiedOf channelMap a = verifiedOf channelMap b ∧
     (byDate = true → publishedOr0 b ≤ publishedOr0 a)))).

Definition rank_item (vid ch : string) (t : Z) : YT.SearchItem :=
  {| YT.videoId := Some vid;
     YT.snippet := Some {| YT.channelId := Some ch; YT.title := Some vid; YT.channelTitle := None;
                           YT.publishedAt := Some (Iso t); YT.thumbnail_medium := None;
                           YT.thumbnail_default := None; YT.description := None |} |}.

Definition rank_details (vid : string) (kids : bool) : YT.VideoDetails :=
  {| YT.id := vid; YT.duration := None; YT.ytRating := None; YT.viewCount := None;
     YT.madeForKids := Some kids; YT.tags := None; YT.categoryId := None |}.

(** Four candidates: [a] old, small channel; [b] recent, small channel;
    [c] big channel; [d] made for kids. *)
Definition rank_candidates : list YT.SearchItem :=
  [ rank_item "a" "small" 1000; rank_item "b" "small" 2000;
    rank_item "c" "big" 500; rank_item "d" "nochannel" 100 ].

Definition rank_detailsMap : gmap string YT.VideoDetails :=
  Map_of YT.id [ rank_details "a" false; rank_details "d" true ].

Definition rank_channelMap : gmap string YT.Channel :=
  Map_of YT.ch_id [ {| YT.ch_id := "small"; YT.subscriberCount := Some "99999" |};
                    {| YT.ch_id := "big"; YT.subscriberCount := Some "100000" |} ].

(** Three candidates of one small channel, none made for kids; the date
    of the second does not parse. *)
Definition undated_item (vid : string) : YT.SearchItem :=
  {| YT.videoId := Some vid;
     YT.snippet := Some {| YT.channelId := Some "small"; YT.title := Some vid;
                           YT.channelTitle := None; YT.publishedAt := Some Unparseable;
                           YT.thumbnail_medium := None; YT.thumbnail_default := None;
                           YT.description := None |} |}.

Definition undated_candidates : list YT.SearchItem :=
  [ rank_item "old" "small" 1000; undated_item "bad"; rank_item "new" "small" 2000 ].

(** *** Runs of fetches against a dedup scope *)

(** The seen set of a scope; a scope never fetched has seen nothing. *)
Definition seenOf (seenMap : gmap string (gset string)) (scope : string) : gset string :=
  default ∅ (seenMap !! scope).

(** One call of [fetchYouTubeDirect]. *)
Record DirectCall := {
  dc_now : Z;
  dc_q : string;
  dc_pageToken : option string;
  dc_opts : option SearchOptions;
  dc_net : Network Upstream;
}.

(** The items a fetch hands to its caller; none when it throws. *)
Definition batchOf (r : Result SearchResponse) : list VideoItem :=
  match r with
  | Ok resp => items resp
  | Throw _ => []
  end.

Section Runs.
Context {host : Host}.

(** A sequence of direct fetches: the scope and the batch of each, in
    order, and the seen map at the end. *)
Fixpoint directRun (env : ClientEnv) (calls : list DirectCall)
    (seenMap : gmap string (gset string))
    : list (string * list VideoItem) * gmap string (gset string) :=
  match calls with
  | [] => ([], seenMap)
  | c :: rest =>
      let '(r, seenMap1) :=
        fetchYouTubeDirect env (dc_now c) seenMap (dc_q c) (dc_pageToken c) (dc_opts c)
          (dc_net c) in
      let '(bs, seenMap2) := directRun env rest seenMap1 in
      ((toLowerCase (dc_q c), batchOf r) :: bs, seenMap2)
  end.

End Runs.

(** No video id occurs in two batches of the list. *)
Definition batches_disjoint (batches : list (list VideoItem)) : Prop :=
  ∀ (i j : nat) b1 b2 v1 v2 vid,
    (i < j)%nat → batches !! i = Some b1 → batches !! j = Some b2 →
    v1 ∈ b1 → v2 ∈ b2 → videoId v1 = Some vid → videoId v2 ≠ Some vid.

(** The batches of one scope, in order. *)
Definition batchesOfScope (scope : string) (run : list (string * list VideoItem))
    : list (list VideoItem) :=
  map snd (List.filter (λ sb, bool_decide (sb.1 = scope)) run).

(** The ids of a batch. *)
Definition idsOf (batch : list VideoItem) : list string :=
  omap videoId batch.

(** A sequence of batches taken against a growing seen set: each batch
    brings only ids the set does not hold yet, and the set holds them
    afterwards. *)
Inductive fresh_chain : gset string → list (list VideoItem) → gset string → Prop :=
  | fresh_chain_nil s s' :
      s ⊆ s' → fresh_chain s [] s'
  | fresh_chain_cons s s1 s' b bs :
      (∀ v vid, v ∈ b → videoId v = Some vid → (vid ∉ s) ∧ vid ∈ s1) →
      s ⊆ s1 →
      fresh_chain s1 bs s' →
      fresh_chain s (b :: bs) s'.

(** Number of the first day of month [n], months being counted from
    January of year 0. *)
Definition month_start (n : Z) : Z := days_from_civil (n / 12) (n mod 12 + 1) 1.

(** The month a local time falls in, counted from January of year 0. *)
Definition month_index (t : Z) : Z := 12 * YearFromTime t + MonthFromTime t.

(** The local time of the host stays within a day of UTC. *)
Definition tz_bounded (host : Host) : Prop :=
  ∀ t b, - msPerDay < LocalTZA t b < msPerDay.

(** The instant of a date string that parses. *)
Definition instant (s : DateString) : option Z := Date_of_string s.

(** A window is proper when both ends parse and the start is strictly
    before the end. *)
Definition proper_window (w : DateWindow) : Prop :=
  ∃ a b, instant (publishedAfter w) = Some a ∧ instant (publishedBefore w) = Some b ∧ a < b.

(** The instant a window starts at (0 when its start does not parse). *)
Definition startOf (w : DateWindow) : Z := default 0 (instant (publishedAfter w)).

(** Each window of the list ends where the window before it starts. *)
Definition abutting (ws : list DateWindow) : Prop :=
  ∀ (i : nat) w1 w2, ws !! i = Some w1 → ws !! S i = Some w2 →
    publishedBefore w2 = publishedAfter w1.

(** Each later window of the list lies entirely at or before the start of
    each earlier one: as half-open intervals they do not overlap. *)
Definition strictly_descending (ws : list DateWindow) : Prop :=
  ∀ (i j : nat) w1 w2, (i < j)%nat → ws !! i = Some w1 → ws !! j = Some w2 →
    ∃ a1 b2, instant (publishedAfter w1) = Some a1 ∧ instant (publishedBefore w2) = Some b2 ∧
             b2 ≤ a1.

(** Window monotonicity as the specification words it, for one start
    window, one step width and [n] applications. *)
Definition window_monotonicity {host : Host} (w : DateWindow) (monthsBack : Z) (n : nat) : Prop :=
  ∃ ws, nextWindows n w monthsBack = Ok ws ∧
        Forall proper_window ws ∧ abutting (w :: ws) ∧ strictly_descending (w :: ws).

(** The windows [ws] follow one another downwards from the instant [a]:
    the first ends at [a] and starts strictly before it, the next ends
    where the first starts, and so on. *)
Fixpoint chain_from (a : Z) (ws : list DateWindow) : Prop :=
  match ws with
  | [] => True
  | w1 :: rest =>
      ∃ u, publishedBefore w1 = Iso a ∧ publishedAfter w1 = Iso u ∧
           TimeClip u = Some u ∧ u < a ∧ chain_from u rest
  end.

(** 2026-01-01T00:00:00.000Z and 2026-02-01T00:00:00.000Z *)
Definition jan_2026 : Z := 1767225600000.
Definition feb_2026 : Z := 1769904000000.

Definition sample_window : DateWindow :=
  {| publishedAfter := Iso jan_2026; publishedBefore := Iso feb_2026 |}.

(** The proxy's normalisation as the specification words it, for one
    request with two parseable dates: the request goes through with a
    window whose start is strictly before its end. *)
Definition proxy_window_repaired (now : Z) (after before : DateString) : Prop :=
  ∃ a b, normalizeProxyWindow now (Some after) (Some before) = Ok (Some (Iso a), Some (Iso b)) ∧
         a < b.

(** *** Events of the search module *)

(** What happens to the module state: a call of [fetchSearch], or the
    completion of the upstream operation of a pending promise. *)
Inductive Event :=
  | EvCall (now : Z) (q_ : string) (pageToken : option string) (opts : option SearchOptions)
  | EvSettle (now : Z) (p : nat) (arr : Arrival).

(** What an event yields: the reply to the call, or the value the promise
    settles with. *)
Inductive Output :=
  | OutReply (r : Reply)
  | OutSettled (p : nat) (v : option (Result SearchResponse)).

Section Events.
Context {host : Host}.

Definition step (env : ClientEnv) (ev : Event) (st : Store) : Output * Store :=
  match ev with
  | EvCall now q_ pageToken opts =>
      let '(r, st') := fetchSearch env now q_ pageToken opts st in (OutReply r, st')
  | EvSettle now p arr =>
      let '(v, st') := settle env now p arr st in (OutSettled p v, st')
  end.

Fixpoint run (env : ClientEnv) (evs : list Event) (st : Store) : list Output * Store :=
  match evs with
  | [] => ([], st)
  | ev :: rest =>
      let '(o, st1) := step env ev st in
      let '(os, st2) := run env rest st1 in
      (o :: os, st2)
  end.

(** The cache key a call works with, when the call is not rejected. *)
Definition keyOfCall (env : ClientEnv) (ev : Event) : option CacheKey :=
  match ev with
  | EvCall now q_ pageToken opts =>
      match prepare env now q_ pageToken opts with
      | Ok req => Some (req_key req)
      | Throw _ => None
      end
  | EvSettle _ _ _ => None
  end.

End Events.

(** The entry of the second cache tier under a key. *)
Definition session_entry (st : Store) (k : CacheKey) : option (Z * SearchResponse) :=
  sessionStorage st ≫= (.!! k).

(** A full page reload: the module state starts afresh, session storage
    stays. *)
Definition reload (st : Store) : Store := initialStore (sessionStorage st).

(** What holds of the module state at all times:
    - a key registered as in flight names a running promise made for that
      key, and both cache tiers miss for the key;
    - a running promise is registered under its key and was numbered
      before the next promise to come. *)
Definition store_ok (st : Store) : Prop :=
  (∀ k p, inFlightSearch st !! k = Some p →
     (∃ req, running st !! p = Some req ∧ req_key req = k) ∧
     searchCache st !! k = None ∧ session_entry st k = None) ∧
  (∀ p req, running st !! p = Some req →
     (p < nextPromise st)%nat ∧ inFlightSearch st !! req_key req = Some p).

(** A query of white space only. *)
Fixpoint blank (s : string) : bool :=
  match s with
  | EmptyString => true
  | String c s' => isWhiteSpace c && blank s'
  end.

(** The window [normalizeSearchOptions] arrives at before it validates it:
    each end is the caller's date if that parses and the default
    otherwise. *)
Definition normalizedWindow {host : Host} (now : Z) (opts : option SearchOptions)
    : Result (DateString * DateString) :=
  def ←! getDefaultDateWindow now;
  Ok (default (publishedAfter def) (toIsoUTC (default Opts.empty opts).(Opts.publishedAfter)),
      default (publishedBefore def) (toIsoUTC (default Opts.empty opts).(Opts.publishedBefore))).

Definition inverted_options : SearchOptions :=
  windowOptions (Iso feb_2026) (Iso jan_2026).

(** The upstream operations recorded for a key. *)
Definition requestsFor (k : CacheKey) (log : list Request) : list Request :=
  List.filter (λ r, bool_decide (req_key r = k)) log.

(** The event is not the completion of promise [p]. *)
Definition not_settling (p : nat) (ev : Event) : Prop :=
  match ev with
  | EvSettle _ p' _ => p' ≠ p
  | EvCall _ _ _ _ => True
  end.

(** Every call of the trace made with key [k] was answered with the
    pending promise [p]. *)
Fixpoint all_share {host : Host} (env : ClientEnv) (k : CacheKey) (p : nat)
    (evs : list Event) (outs : list Output) : Prop :=
  match evs, outs with
  | ev :: evs', o :: outs' =>
      (keyOfCall env ev = Some k → o = OutReply (Pending p)) ∧ all_share env k p evs' outs'
  | _, _ => True
  end.

(** The options of the sample calls: the window January 2026. *)
Definition january_options : SearchOptions :=
  windowOptions (Iso jan_2026) (Iso feb_2026).

Definition sample_arrival : Arrival :=
  {| from_youtube := NetOk sample_upstream; from_proxy := NetFail "unused"; quota_ok := true |}.

Definition failed_arrival : Arrival :=
  {| from_youtube := NetFail "YouTube search failed: 500 "; from_proxy := NetFail "unused";
     quota_ok := true |}.

Definition sample_request : Request :=
  {| req_mode := ModeYt; req_q := "ai music"; req_pageToken := None;
     req_opts := january_options;
     req_key := makeSearchKey "ai music" None (Some january_options) ModeYt;
     req_at := jan_2026 |}.

(** Two more calls with the key of [sample_request] (the query differs by
    white space only) and one with another key. *)
Definition sample_events : list Event :=
  [ EvCall (jan_2026 + 5) "  ai   music " None (Some january_options);
    EvCall (jan_2026 + 6) "ai song" None (Some january_options);
    EvCall (jan_2026 + 7) "ai music" None (Some january_options) ].

(** The same request made a minute later with white space before the
    query. *)
Definition sample_request_later : Request :=
  {| req_mode := ModeYt; req_q := "ai music"; req_pageToken := None;
     req_opts := january_options;
     req_key := makeSearchKey "ai music" None (Some january_options) ModeYt;
     req_at := jan_2026 + 60000 |}.

(** The response built from [sample_upstream]: the first candidate only,
    the second has a blocked title. *)
Definition sample_response : SearchResponse :=
  {| q := "ai music";
     items := map (toVideoItem (Map_of YT.id (up_details sample_upstream)))
                  (take 1 sample_candidates);
     nextPageToken := None; cached := None |}.

(** *** Vocabulary of the orchestrator statements *)

Section WindowOutcomes.
Context {host : Host}.



End WindowOutcomes.



(** *** Vocabulary of the classifier statements *)

(** The order of the Numbers, [NaN] apart. *)
Definition Number_le (a b : Number) : Prop :=
  match a, b with
  | NaN, _ | _, NaN => False
  | Infinity true, _ => True
  | _, Infinity false => True
  | Finite x, Finite y => x ≤ y
  | _, _ => False
  end.

(** The view count as the specification reads it: zero when the count is
    missing or not numeric. *)
Definition viewsOrZero (v : VideoItem) : Number :=
  match views v with
  | NaN => Finite 0
  | n => n
  end.

(** The count of the item is missing, or a text that [Number] reads as a
    number. *)
Definition count_numeric (v : VideoItem) : Prop := views v ≠ NaN.

Definition descending_views (l : list VideoItem) : Prop :=
  StronglySorted (λ a b, Number_le (viewsOrZero b) (viewsOrZero a)) l.

Definition pool_item (vid : string) (count : option string) : VideoItem :=
  {| videoId := Some vid; title := Some vid; channelTitle := None; thumbnailUrl := None;
     publishedAt := None; duration := None; viewCount := count; description := None;
     tags := []; videoCategoryId := None; madeForKids := false |}.

Definition sample_pool : list VideoItem :=
  [ pool_item "a" (Some "5"); pool_item "b" None; pool_item "c" (Some "1200");
    pool_item "d" (Some "5") ].

(** A pool with counts written as a fraction, with an exponent and with
    a sign. *)
Definition mixed_pool : list VideoItem :=
  [ pool_item "f" (Some "12.5"); pool_item "m" None; pool_item "e" (Some "1e3");
    pool_item "s" (Some "-5"); pool_item "h" (Some " 0x10 ") ].

(** A pool with a count that is no number. *)
Definition odd_pool : list VideoItem :=
  [ pool_item "x" (Some "abc"); pool_item "y" (Some "5") ].

(** A fetcher that finds nothing, and one that finds one new video at its
    third attempt. *)
Definition empty_response (kw : string) : SearchResponse :=
  {| q := kw; items := []; nextPageToken := None; cached := None |}.

Definition fetch_nothing : Fetcher := λ _ kw _, Ok (empty_response kw).

Definition fetch_third : Fetcher :=
  λ i kw _,
    if (i =? 2)%nat
    then Ok {| q := kw; items := [pool_item "n1" (Some "7")]; nextPageToken := None;
               cached := None |}
    else Ok (empty_response kw).

Definition loaded_app : AppState :=
  {| oldestPublishedDate := Some (Iso jan_2026);
     monthsBackCounter := {[ "ai music video" := 1 ]};
     keywordIndex := 0; globalDisplayedIds := {[ "a"; "b" ]};
     allVideos := []; loadingMoreRef := false |}.

(** The same state with the keyword five months back. *)
Definition later_app : AppState :=
  {| oldestPublishedDate := Some (Iso jan_2026);
     monthsBackCounter := {[ "ai music video" := 5 ]};
     keywordIndex := 0; globalDisplayedIds := {[ "a"; "b" ]};
     allVideos := []; loadingMoreRef := false |}.

(** Two direct fetches of one scope (the queries differ by letter case)
    that receive the same upstream items, and one of another scope. *)
Definition sample_direct_calls : list DirectCall :=
  [ {| dc_now := jan_2026; dc_q := "AI Music"; dc_pageToken := None;
       dc_opts := Some january_options; dc_net := NetOk sample_upstream |};
    {| dc_now := jan_2026 + 1; dc_q := "ai music"; dc_pageToken := Some "p2";
       dc_opts := Some january_options; dc_net := NetOk sample_upstream |};
    {| dc_now := jan_2026 + 2; dc_q := "ai song"; dc_pageToken := None;
       dc_opts := Some january_options; dc_net := NetOk sample_upstream |} ].

Section SettledBatches.
Context {host : Host}.

(** The batch an event hands over from the direct fetch, with its scope:
    the items [fetchYouTubeDirect] returns when the upstream operation of a
    pending promise completes. Calls, answered from a cache or left
    pending, and completions on the proxy path hand over nothing from the
    direct fetch. *)
Definition directBatchOf (env : ClientEnv) (ev : Event) (st : Store)
    : list (string * list VideoItem) :=
  match ev with
  | EvSettle now p arr =>
      match running st !! p with
      | Some req =>
          match req_mode req with
          | ModeYt =>
              [(toLowerCase (req_q req),
                batchOf (fetchYouTubeDirect env (req_at req) (seenMap st) (req_q req)
                           (req_pageToken req) (Some (req_opts req)) (from_youtube arr)).1)]
          | ModeProxy => []
          end
      | None => []
      end
  | EvCall _ _ _ _ => []
  end.

(** The direct-fetch batches of a trace of events, in order. *)
Fixpoint directBatches (env : ClientEnv) (evs : list Event) (st : Store)
    : list (string * list VideoItem) :=
  match evs with
  | [] => []
  | ev :: rest => directBatchOf env ev st ++ directBatches env rest (step env ev st).2
  end.

End SettledBatches.

(** * The rest of the application

    The parts of the repository around the pipeline: what the search module
    sends to the proxy and what the proxy makes of it, the proxy's response
    cache and its search handler, the remaining helpers of the [App]
    component (the shuffle, the category buckets, the initial load), the
    favourites slice of the store and the toast list. *)

(** ** Numbers as text *)

Definition digitChar (d : Z) : ascii := ascii_of_N (Z.to_N (48 + d)).

(** The decimal digits of [n >= 0] put before [acc]; [fuel] bounds the
    number of digits after the first. *)
Fixpoint decimalFrom (fuel : nat) (n : Z) (acc : string) : string :=
  let acc' := String (digitChar (n mod 10)) acc in
  match fuel with
  | O => acc'
  | S fuel' => if n <? 10 then acc' else decimalFrom fuel' (n / 10) acc'
  end.

(** [String(n)] for an integer [n] (below [10^21] in absolute value,
    where JavaScript turns to the exponent notation). *)
Definition Number_toString (n : Z) : string :=
  if n <? 0 then String "-"%char (decimalFrom (Z.to_nat (Z.log2 (- n))) (- n) "")
  else decimalFrom (Z.to_nat (Z.log2 n)) n "".

(** [/^\d+$/.test(s)] *)
Definition allDigits (s : string) : bool :=
  negb (bool_decide (s = "")) && forallb isDigit (list_ascii_of_string s).

(** ** The search module: what is sent upstream *)

(** The proxy's reading of the parameter:
    [maxResults && /^\d+$/.test(maxResults)
       ? String(Math.max(1, Math.min(50, parseInt(maxResults, 10)))) : '24'],
    [maxResults] being the trimmed text of the query parameter. *)
Definition server_maxResults (maxResults : string) : string :=
  if negb (bool_decide (maxResults = "")) && allDigits maxResults
  then match parseInt maxResults with
       | Some n => Number_toString (Z.max 1 (Z.min 50 n))
       | None => "NaN"
       end
  else "24".

(** ** Vocabulary of the search-module statements *)

(** A sanitised query has no white space at either end, and between its
    words single spaces only. [afterSpace] tells that the character before
    was a space, or that the text starts here. *)
Fixpoint tidy_from (afterSpace : bool) (s : string) : bool :=
  match s with
  | EmptyString => negb afterSpace
  | String c s' =>
      if isWhiteSpace c then negb afterSpace && (code c =? 32) && tidy_from true s'
      else tidy_from false s'
  end.

Definition tidy (s : string) : bool :=
  match s with
  | EmptyString => true
  | _ => tidy_from true s
  end.

(** The text does not end with white space. *)
Fixpoint endsClean (s : string) : bool :=
  match s with
  | EmptyString => true
  | String c EmptyString => negb (isWhiteSpace c)
  | String _ s' => endsClean s'
  end.

(** Every item of the response carries a video id and a title the
    blocklist lets through. *)
Definition response_valid (r : SearchResponse) : Prop :=
  Forall (λ v, validItem v = true) (items r).




(** A store whose session storage holds one entry, written at the start of
    January 2026 under the key of [sample_request]. *)
Definition stored_january : Store :=
  initialStore (Some {[ req_key sample_request := (jan_2026, sample_response) ]}).

(** ** Dates as text *)

(** [n >= 0] in decimal, with zeros in front up to [width] digits. *)
Fixpoint zeroPad (width : nat) (n : Z) (acc : string) : string :=
  match width with
  | O => if 0 <? n then Number_toString n +:+ acc else acc
  | S w => zeroPad w (n / 10) (String (digitChar (n mod 10)) acc)
  end.

(** The text [toISOString] gives for the time value [t]:
    [YYYY-MM-DDTHH:mm:ss.sssZ], the year with a sign and six digits outside
    0..9999. *)
Definition isoText (t : Z) : string :=
  let '(y, m, d) := civil_from_days (Day t) in
  let ms := TimeWithinDay t in
  let year :=
    if (0 <=? y) && (y <=? 9999) then zeroPad 4 y ""
    else String (if y <? 0 then "-"%char else "+"%char) (zeroPad 6 (Z.abs y) "") in
  year +:+ "-" +:+ zeroPad 2 m "" +:+ "-" +:+ zeroPad 2 d ""
    +:+ "T" +:+ zeroPad 2 (ms / 3600000) ""
    +:+ ":" +:+ zeroPad 2 (ms / 60000 mod 60) ""
    +:+ ":" +:+ zeroPad 2 (ms / 1000 mod 60) ""
    +:+ "." +:+ zeroPad 3 (ms mod 1000) "" +:+ "Z".

(** The text of a normalised date parameter: empty when there is none. *)
Definition dateText (d : option DateString) : string :=
  match d with
  | Some (Iso t) => isoText t
  | _ => ""
  end.

(** ** The proxy path *)

(** *** The request of [fetchViaProxy] *)

(** The parameters of a request to [GET /api/search] as the handler finds
    them in [req.query], with the header [x-youtube-key]: a parameter is a
    text when it is present. A date parameter is represented by what
    [new Date] makes of its trimmed text, [None] standing for a missing or
    blank one. *)
Record Query := {
  query_q : option string;
  query_pageToken : option string;
  query_videoCategoryId : option string;
  query_videoDuration : option string;
  query_videoSyndicated : option string;
  query_order : option string;
  query_maxResults : option string;
  query_type : option string;
  query_publishedAfter : option DateString;
  query_publishedBefore : option DateString;
  query_key : option string;
  header_x_youtube_key : option string;
}.

Definition orderText (o : Order) : string :=
  match o with
  | OrderDate => "date"
  | OrderViewCount => "viewCount"
  | OrderRelevance => "relevance"
  end.

Definition durationText (d : VideoDuration) : string :=
  match d with
  | DurShort => "short"
  | DurMedium => "medium"
  | DurLong => "long"
  end.

(** The search parameters [fetchViaProxy] puts on the URL. The page size
    is the text [maxResults] of the Number
    [Math.max(1, Math.min(30, requested))], which is not computed here:
    the options hold whole page sizes only, the code takes any Number. *)
Definition fetchViaProxy_query (q_ : string) (pageToken : option string)
    (opts : option SearchOptions) (maxResults : string) : Query :=
  {| query_q := Some q_;
     query_maxResults := Some maxResults;
     query_type := Some "video";
     query_order := Some (orderText (default OrderDate (opts ≫= Opts.order)));
     query_publishedAfter := opts ≫= Opts.publishedAfter;
     query_publishedBefore := opts ≫= Opts.publishedBefore;
     query_videoCategoryId := or_null (opts ≫= Opts.videoCategoryId);
     query_videoDuration := durationText <$> (opts ≫= Opts.videoDuration);
     query_videoSyndicated :=
       if default false (opts ≫= Opts.videoSyndicated) then Some "true" else None;
     query_pageToken := or_null pageToken;
     query_key := None;
     header_x_youtube_key := None |}.

(** *** The response cache of the proxy *)

(** [process.env] as the proxy reads it. *)
Record ServerEnv := {
  YOUTUBE_API_KEY : option string;
  SERVER_REACT_APP_YOUTUBE_API_KEY : option string;
  CACHE_TTL_SECONDS : option string;
  SERVER_MAX_ALLOWED_AGE : option string;
}.

(** [parseInt(process.env.CACHE_TTL_SECONDS || '3600', 10)], possibly
    [NaN]. *)
Definition cacheTtlSeconds (env : ServerEnv) : option Z :=
  parseInt (str_or (CACHE_TTL_SECONDS env) "3600").

(** An entry [{ data, expiresAt }]; [expiresAt] is [NaN] when the time to
    live is. *)
Record CacheEntry := {
  entry_data : SearchResponse;
  entry_expiresAt : option Z;
}.

(** [Date.now() + CACHE_TTL_SECONDS * 1000] *)
Definition expiryOf (ttl : option Z) (now : Z) : option Z :=
  x ← ttl; Some (now + x * 1000).

Definition setCache (ttl : option Z) (now : Z) (key : string) (data : SearchResponse)
    (cache : gmap string CacheEntry) : gmap string CacheEntry :=
  <[key := {| entry_data := data; entry_expiresAt := expiryOf ttl now |}]> cache.

(** [getCache]: the data, or [null] for a missing or an expired entry; an
    expired entry is deleted. *)
Definition getCache (now : Z) (key : string) (cache : gmap string CacheEntry)
    : option SearchResponse * gmap string CacheEntry :=
  match cache !! key with
  | None => (None, cache)
  | Some entry =>
      if num_lt (entry_expiresAt entry) (Some now) then (None, delete key cache)
      else (Some (entry_data entry), cache)
  end.

(** *** The search handler of the proxy *)

(** What the YouTube Data API answers to a request made with [axios]: the
    data of a response with a success status, or the error [axios] throws,
    with the status of the response if there was one. *)
Inductive Axios (A : Type) :=
  | AxiosOk (data : A)
  | AxiosError (status : option Z).
Arguments AxiosOk {A} data.
Arguments AxiosError {A} status.

(** The parameters of the request to [search.list]. *)
Record YouTubeSearch := {
  ys_key : string;
  ys_part : string;
  ys_q : string;
  ys_maxResults : string;
  ys_type : string;
  ys_safeSearch : string;
  ys_pageToken : option string;
  ys_order : option string;
  ys_publishedAfter : option string;
  ys_publishedBefore : option string;
  ys_videoCategoryId : option string;
  ys_videoDuration : option string;
  ys_videoSyndicated : option string;
}.

(** [items] and [nextPageToken] of the data of [search.list]. *)
Record SearchData := {
  sd_items : list YT.SearchItem;
  sd_nextPageToken : option string;
}.

(** The API as the handler meets it during one request. *)
Record YouTubeApi := {
  api_search : YouTubeSearch → Axios SearchData;
  api_videos : list string → Axios (list YT.VideoDetails);
  api_channels : list string → Axios (list YT.Channel);
}.

(** The requests the handler makes, in order. *)
Inductive UpstreamCall :=
  | CallSearch (r : YouTubeSearch)
  | CallVideos (ids : list string)
  | CallChannels (ids : list string).

(** The body of an answer: a message, the report of an upstream error with
    the status met, or a payload. *)
Inductive Body :=
  | ErrorBody (error : string)
  | UpstreamErrorBody (status : Z)
  | PayloadBody (payload : SearchResponse).

Record HttpResponse := {
  http_status : Z;
  http_body : Body;
}.

(** The state of the proxy: the response cache and the table of recent
    searches. *)
Record ServerState := {
  cache : gmap string CacheEntry;
  searchEntries : list string;
}.

(** The parameters after the handler has read and sanitised them. *)
Record Params := {
  p_q : string;
  p_pageToken : string;
  p_videoCategoryId : string;
  p_videoDuration : string;
  p_videoSyndicated : string;
  p_order : string;
  p_maxResults : string;
  p_publishedAfter : string;
  p_publishedBefore : string;
}.

Definition allowedOrders : list string :=
  ["date"; "rating"; "relevance"; "title"; "videoCount"; "viewCount"].

(** [order && !allowedOrders.has(order) ? 'date' : order] *)
Definition sanitizeOrder (order : string) : string :=
  if negb (bool_decide (order = "")) && negb (bool_decide (order ∈ allowedOrders))
  then "date" else order.

(** The parameters the handler works with, [now] being the clock; the
    exception is that of the date normalisation. *)
Definition sanitizeQuery (now : Z) (query : Query) : Result Params :=
  match normalizeProxyWindow now (query_publishedAfter query) (query_publishedBefore query) with
  | Throw m => Throw m
  | Ok (after, before) =>
      Ok {| p_q := trim (str_or (query_q query) "");
            p_pageToken := str_or (query_pageToken query) "";
            p_videoCategoryId := trim (str_or (query_videoCategoryId query) "");
            p_videoDuration := trim (str_or (query_videoDuration query) "");
            p_videoSyndicated := trim (str_or (query_videoSyndicated query) "");
            p_order := sanitizeOrder (trim (str_or (query_order query) ""));
            p_maxResults := trim (str_or (query_maxResults query) "");
            p_publishedAfter := dateText after;
            p_publishedBefore := dateText before |}
  end.

(** [(YOUTUBE_API_KEY || headerKey || queryKey || '').trim()] *)
Definition apiKeyOf (env : ServerEnv) (query : Query) : string :=
  let YOUTUBE_API_KEY_ :=
    str_or (YOUTUBE_API_KEY env) (str_or (SERVER_REACT_APP_YOUTUBE_API_KEY env) "") in
  let headerKey := trim (str_or (header_x_youtube_key query) "") in
  let queryKey := trim (str_or (query_key query) "") in
  trim (str_or (Some YOUTUBE_API_KEY_) (str_or (Some headerKey) (str_or (Some queryKey) ""))).

Definition cacheKeyOf (p : Params) : string :=
  "yt:" +:+ p_q p +:+ ":" +:+ p_pageToken p +:+ ":" +:+ p_videoCategoryId p
    +:+ ":" +:+ p_videoDuration p +:+ ":" +:+ p_videoSyndicated p +:+ ":" +:+ p_order p
    +:+ ":" +:+ p_maxResults p +:+ ":" +:+ p_publishedAfter p +:+ ":" +:+ p_publishedBefore p.

(** [s ? s : undefined] for a parameter that is set only when not empty *)
Definition whenSet (s : string) : option string :=
  if decide (s = "") then None else Some s.

Definition searchRequestOf (apiKey : string) (p : Params) : YouTubeSearch :=
  {| ys_key := apiKey;
     ys_part := "snippet";
     ys_q := p_q p;
     ys_maxResults := server_maxResults (p_maxResults p);
     ys_type := "video";
     ys_safeSearch := "strict";
     ys_pageToken := whenSet (p_pageToken p);
     ys_order := whenSet (p_order p);
     ys_publishedAfter := whenSet (p_publishedAfter p);
     ys_publishedBefore := whenSet (p_publishedBefore p);
     ys_videoCategoryId := whenSet (p_videoCategoryId p);
     ys_videoDuration := whenSet (p_videoDuration p);
     ys_videoSyndicated :=
       if decide (p_videoSyndicated p = "true") then Some "true" else None |}.

(** The elements of the list without repetition, in the order of their
    first occurrence: [Array.from(new Set(l))]. *)
Fixpoint distinct (seen : list string) (l : list string) : list string :=
  match l with
  | [] => []
  | x :: rest =>
      if bool_decide (x ∈ seen) then distinct seen rest
      else x :: distinct (x :: seen) rest
  end.

(** The part of the handler that talks to the API: the payload, or the
    error of the first request that fails, with the requests made. Search
    items carry an [id] object, as the API has it; its [videoId] may be
    missing. *)
Definition fetchPayload (maxAge : option Z) (yt : YouTubeApi) (apiKey : string) (p : Params)
    : Axios SearchResponse * list UpstreamCall :=
  let sreq := searchRequestOf apiKey p in
  match api_search yt sreq with
  | AxiosError s => (AxiosError s, [CallSearch sreq])
  | AxiosOk data =>
      let items_ := sd_items data in
      let nextPageToken_ := or_null (sd_nextPageToken data) in
      let ids := omap (λ i, or_null (YT.videoId i)) items_ in
      let channelIds := distinct [] (omap (λ i, or_null (YT.snippet i ≫= YT.channelId)) items_) in
      let '(details, calls1) :=
        if bool_decide (ids = []) then (AxiosOk [], [])
        else (api_videos yt ids, [CallVideos ids]) in
      match details with
      | AxiosError s => (AxiosError s, CallSearch sreq :: calls1)
      | AxiosOk detailsItems =>
          let '(channels, calls2) :=
            if bool_decide (channelIds = []) then (AxiosOk [], [])
            else (api_channels yt channelIds, [CallChannels channelIds]) in
          match channels with
          | AxiosError s => (AxiosError s, CallSearch sreq :: calls1 ++ calls2)
          | AxiosOk chItems =>
              let detailsMap := Map_of YT.id detailsItems in
              let channelMap := Map_of YT.ch_id chItems in
              let filtered := server_filtered maxAge detailsMap items_ in
              let prioritized :=
                prioritizedItems (server_byDate (p_order p)) detailsMap channelMap filtered in
              let results := map (toVideoItem detailsMap) prioritized in
              (AxiosOk {| q := p_q p; items := results; nextPageToken := nextPageToken_;
                          cached := None |},
               CallSearch sreq :: calls1 ++ calls2)
          end
      end
  end.

(** The status the [catch] of the handler answers with, from the status of
    the error caught ([err?.response?.status || 500]): a client error of the
    API is passed on, anything else is a bad gateway. *)
Definition caughtStatus (s : option Z) : Z :=
  match s with
  | Some x => if x =? 0 then 500 else x
  | None => 500
  end.

Definition outStatus (status : Z) : Z :=
  if (400 <=? status) && (status <? 500) then status else 502.

Definition set_cache (st : ServerState) (c : gmap string CacheEntry) : ServerState :=
  {| cache := c; searchEntries := searchEntries st |}.

(** The handler of [GET /api/search], run to completion: the answer, the
    requests made to the API and the state afterwards. [now] is the clock
    while the request is read and the cache is looked up, [later] the clock
    when the payload is cached; [db_ok] tells whether the table of recent
    searches accepts the entry. *)
Definition handleSearch (env : ServerEnv) (now later : Z) (query : Query) (yt : YouTubeApi)
    (db_ok : bool) (st : ServerState) : HttpResponse * list UpstreamCall * ServerState :=
  if decide (trim (str_or (query_q query) "") = "")
  then ({| http_status := 400; http_body := ErrorBody "q is required" |}, [], st)
  else
    let apiKey := apiKeyOf env query in
    if decide (apiKey = "")
    then ({| http_status := 400; http_body := ErrorBody "Missing YOUTUBE_API_KEY on server" |},
          [], st)
    else
      match sanitizeQuery now query with
      | Throw _ =>
          ({| http_status := outStatus (caughtStatus None);
              http_body := UpstreamErrorBody (caughtStatus None) |}, [], st)
      | Ok p =>
          let cacheKey := cacheKeyOf p in
          match getCache now cacheKey (cache st) with
          | (Some cached_, cache1) =>
              ({| http_status := 200; http_body := PayloadBody (mark_cached cached_) |},
               [], set_cache st cache1)
          | (None, cache1) =>
              match fetchPayload (MAX_ALLOWED_AGE (SERVER_MAX_ALLOWED_AGE env)) yt apiKey p with
              | (AxiosError s, calls) =>
                  ({| http_status := outStatus (caughtStatus s);
                      http_body := UpstreamErrorBody (caughtStatus s) |},
                   calls, set_cache st cache1)
              | (AxiosOk payload, calls) =>
                  ({| http_status := 200; http_body := PayloadBody payload |},
                   calls,
                   {| cache := setCache (cacheTtlSeconds env) later cacheKey payload cache1;
                      searchEntries :=
                        if db_ok then searchEntries st ++ [p_q p] else searchEntries st |})
              end
          end
      end.

(** An API that answers every search with the sample candidates. *)
Definition sample_api : YouTubeApi :=
  {| api_search := λ _, AxiosOk {| sd_items := sample_candidates; sd_nextPageToken := None |};
     api_videos := λ _, AxiosOk (up_details sample_upstream);
     api_channels := λ _, AxiosOk [] |}.

(** An API that is out of quota. *)
Definition failing_api : YouTubeApi :=
  {| api_search := λ _, AxiosError (Some 403);
     api_videos := λ _, AxiosError (Some 403);
     api_channels := λ _, AxiosError (Some 403) |}.

Definition sample_server_env : ServerEnv :=
  {| YOUTUBE_API_KEY := Some "server-key"; SERVER_REACT_APP_YOUTUBE_API_KEY := None;
     CACHE_TTL_SECONDS := None; SERVER_MAX_ALLOWED_AGE := None |}.

Definition empty_server : ServerState := {| cache := ∅; searchEntries := [] |}.

(** The request the client sends for "ai music" over January 2026. *)
Definition sample_query : Query :=
  {| query_q := Some "ai music"; query_pageToken := None; query_videoCategoryId := None;
     query_videoDuration := None; query_videoSyndicated := None; query_order := Some "date";
     query_maxResults := Some "30"; query_type := Some "video";
     query_publishedAfter := Some (Iso 1767225600000);
     query_publishedBefore := Some (Iso 1769904000000);
     query_key := None; header_x_youtube_key := None |}.

(** ** The [App] component, continued *)

(** *** The shuffle *)

(** [[a[i], a[j]] = [a[j], a[i]]] on an array that has both indices. *)
Definition swap {A} (a : list A) (i j : nat) : list A :=
  match a !! i, a !! j with
  | Some x, Some y => <[i := y]> (<[j := x]> a)
  | _, _ => a
  end.

(** The loop of [shuffle], from index [i] down to 1. [pick i] is the index
    drawn at [i], the value of [Math.floor(Math.random() * (i + 1))]: a
    number from 0 to [i], as [Math.random] is at least 0 and below 1. *)
Fixpoint shuffle_loop {A} (pick : nat → nat) (i : nat) (a : list A) : list A :=
  match i with
  | O => a
  | S i' => shuffle_loop pick i' (swap a i (pick i))
  end.

(** [shuffle]: the loop runs on a copy of [arr]. *)
Definition shuffle {A} (pick : nat → nat) (arr : list A) : list A :=
  shuffle_loop pick (List.length arr - 1) arr.

(** *** The category buckets *)

(** [(s || '').toLowerCase()] *)
Definition safe (s : option string) : string := toLowerCase (str_or s "").

Definition hasAny (hay : string) (words : list string) : bool :=
  existsb (λ w, includes hay w) words.

(** [l.join(sep)] *)
Fixpoint Array_join (sep : string) (l : list string) : string :=
  match l with
  | [] => ""
  | [x] => x
  | x :: rest => x +:+ sep +:+ Array_join sep rest
  end.

(** The line feed *)
Definition LF : string := String (ascii_of_nat 10) "".

(** The text the keywords are looked up in: title, description and tags,
    in lower case. *)
Definition hayOf (v : VideoItem) : string :=
  safe (title v) +:+ LF +:+ safe (description v) +:+ LF
    +:+ Array_join " " (map toLowerCase (tags v)).

(** [(v.videoCategoryId || '').toString()] *)
Definition catOf (v : VideoItem) : string := str_or (videoCategoryId v) "".

Definition isMusic (v : VideoItem) : bool :=
  bool_decide (catOf v = "10")
  || hasAny (hayOf v) ["music"; "song"; "instrumental"; "track"; "lyrics"].

Definition isSports (v : VideoItem) : bool :=
  bool_decide (catOf v = "17")
  || hasAny (hayOf v) ["sport"; "football"; "soccer"; "basketball"; "cricket"; "highlights";
                       "match"; "nba"; "nfl"].

Definition isKids (v : VideoItem) : bool :=
  madeForKids v
  || hasAny (hayOf v) ["kids"; "kid"; "children"; "child"; "nursery"; "cartoon"; "family";
                       "baby"].

Definition isNews (v : VideoItem) : bool :=
  bool_decide (catOf v = "25")
  || hasAny (hayOf v) ["news"; "breaking"; "headline"; "update"; "report"].

Definition isEntertainment (v : VideoItem) : bool :=
  bool_decide (catOf v = "24")
  || hasAny (hayOf v) ["entertainment"; "funny"; "comedy"; "prank"; "viral"; "trending"; "meme"].

Definition isEducational (v : VideoItem) : bool :=
  bool_decide (catOf v = "27")
  || hasAny (hayOf v) ["tutorial"; "how to"; "lesson"; "learn"; "education"; "science"; "diy";
                       "explained"].

(** A bucket array with the set of ids it keeps in its [_seen] property. *)
Definition Bucket : Type := list VideoItem * gset string.

Definition pushUnique (arr : Bucket) (v : VideoItem) : Bucket :=
  match videoId v with
  | Some vid =>
      if bool_decide (vid = "") then arr
      else if bool_decide (vid ∈ arr.2) then arr
      else (arr.1 ++ [v], {[vid]} ∪ arr.2)
  | None => arr
  end.

(** The six arrays the loop over the pool fills. *)
Record Buckets := {
  music : Bucket;
  sports : Bucket;
  kids : Bucket;
  news : Bucket;
  entertainment : Bucket;
  educational : Bucket;
}.

Definition noBuckets : Buckets :=
  {| music := ([], ∅); sports := ([], ∅); kids := ([], ∅); news := ([], ∅);
     entertainment := ([], ∅); educational := ([], ∅) |}.

(** The body of the loop over the pool. *)
Definition classify (b : Buckets) (v : VideoItem) : Buckets :=
  {| music := if isMusic v then pushUnique (music b) v else music b;
     sports := if isSports v then pushUnique (sports b) v else sports b;
     kids := if isKids v then pushUnique (kids b) v else kids b;
     news := if isNews v then pushUnique (news b) v else news b;
     entertainment :=
       if isEntertainment v then pushUnique (entertainment b) v else entertainment b;
     educational := if isEducational v then pushUnique (educational b) v else educational b |}.

(** [new Date(v.publishedAt || 0).getTime()] *)
Definition publishedOf (v : VideoItem) : option Z :=
  match publishedAt v with
  | Some s => getTime (Date_of_string s)
  | None => Some 0
  end.

Definition byNewest (a b : VideoItem) : option Z := num_sub (publishedOf b) (publishedOf a).

(** [pool.slice().sort(byNewest).slice(0, 10)] *)
Definition newest (pool : list VideoItem) : list VideoItem :=
  take 10 (Array_sort byNewest pool).

(** [computeCategoriesPool]: the rows by title. *)
Definition computeCategoriesPool (pool : list VideoItem) : gmap string (list VideoItem) :=
  let b := foldl classify noBuckets pool in
  list_to_map
    [ ("Top Most Views", topViews pool);
      ("Top 10 of Newest", newest pool);
      ("Music", (music b).1);
      ("Sports", (sports b).1);
      ("Kids", (kids b).1);
      ("News", (news b).1);
      ("Entertainment", (entertainment b).1);
      ("Educational", (educational b).1) ].

(** The rows and the rule of each row that is filled by the loop. *)
Definition ROWS : list string :=
  ["Top Most Views"; "Top 10 of Newest"; "Music"; "Sports"; "Kids"; "News"; "Entertainment";
   "Educational"].


(** *** The initial load *)

Section InitialLoad.
Context {host : Host}.

(** The loop over the keywords: the pool, the ids in it and the counters
    after the keywords from position [i] on have been fetched. A fetch that
    fails is reported and the loop goes on. *)
Fixpoint initialFetch (fetch : Fetcher) (afterIso beforeIso : DateString)
    (keywords : list string) (i : nat)
    (pool : list VideoItem) (seen : gset string) (counters : gmap string Z)
    : list VideoItem * gset string * gmap string Z :=
  match keywords with
  | [] => (pool, seen, counters)
  | kw :: rest =>
      match fetch i kw (windowOptions afterIso beforeIso) with
      | Ok resp =>
          let items_ := List.filter (isNewItem seen) (items resp) in
          initialFetch fetch afterIso beforeIso rest (S i)
            (pool ++ items_) (addIds seen items_) (<[kw := 1]> counters)
      | Throw _ =>
          initialFetch fetch afterIso beforeIso rest (S i) pool seen counters
      end
  end.

(** The effect that loads the pool when the component is mounted, [now]
    being the clock when it starts and [cancelled] telling whether the
    component has been unmounted by the time the fetches are done. The
    exception is the one of [toISOString]. *)
Definition initialLoad (fetch : Fetcher) (now : Z) (cancelled : bool) (st : AppState)
    : Result AppState :=
  let nowDate := Date_now now in
  let afterDate := setMonth nowDate (num_sub (getMonth nowDate) (Some 6)) in
  afterIso ←! toISOString afterDate;
  beforeIso ←! toISOString nowDate;
  let '(pool, _, counters) :=
    initialFetch fetch afterIso beforeIso AI_KEYWORDS 0 [] ∅ (monthsBackCounter st) in
  Ok {| oldestPublishedDate := Some afterIso;
        monthsBackCounter := counters;
        keywordIndex := keywordIndex st;
        globalDisplayedIds :=
          if cancelled then globalDisplayedIds st else addIds (globalDisplayedIds st) pool;
        allVideos := if cancelled then allVideos st else pool;
        loadingMoreRef := loadingMoreRef st |}.

End InitialLoad.

(** ** Vocabulary of the [App] statements *)

(** The local time of the host is UTC plus a fixed offset. *)
Definition fixed_offset (host : Host) (offset : Z) : Prop :=
  ∀ t b, LocalTZA t b = offset.

(** The number of days of month [n] (months counted from January of year
    0). *)
Definition daysInMonth (n : Z) : Z := month_start (n + 1) - month_start n.

(** The pool holds no video twice, every video of it has an id, and the
    ids of the pool are among the displayed ones. *)
Definition pool_ok (st : AppState) : Prop :=
  NoDup (idsOf (allVideos st)) ∧
  Forall (λ v, ∃ vid, videoId v = Some vid ∧ vid ≠ "") (allVideos st) ∧
  ∀ vid, vid ∈ idsOf (allVideos st) → vid ∈ globalDisplayedIds st.

(** The fetcher never answers with a video twice in one response. *)
Definition distinct_responses (fetch : Fetcher) : Prop :=
  ∀ i kw o resp, fetch i kw o = Ok resp → NoDup (idsOf (items resp)).

(** The instant of publication, read as the epoch when it is missing or
    does not parse. *)
Definition publishedOrEpoch (v : VideoItem) : Z := default 0 (publishedOf v).

Definition newest_first (l : list VideoItem) : Prop :=
  StronglySorted (λ a b, publishedOrEpoch b ≤ publishedOrEpoch a) l.

(** A pool of videos with dates and texts for the rows. *)
Definition dated_item (vid ttl : string) (t : Z) (cat : option string) (forKids : bool)
    : VideoItem :=
  {| videoId := Some vid; title := Some ttl; channelTitle := None; thumbnailUrl := None;
     publishedAt := Some (Iso t); duration := None; viewCount := None;
     description := Some "made with AI"; tags := ["Piano"; "how"; "to"];
     videoCategoryId := cat; madeForKids := forKids |}.

Definition dated_pool : list VideoItem :=
  [ dated_item "a" "Lullaby SONG" 3000 None true;
    dated_item "b" "Football match" 1000 (Some "17") false;
    dated_item "a" "Lullaby song again" 5000 (Some "10") true;
    dated_item "c" "Breaking report" 4000 None false ].

(** A fetcher that answers every keyword with the same two videos. *)
Definition fetch_same_two : Fetcher :=
  λ _ kw _, Ok {| q := kw; items := [pool_item "p" None; pool_item "q" None];
                  nextPageToken := None; cached := None |}.


(** * The favourites and the notifications *)

(** ** The favourites slice ([src/unnamed/part_002]) *)

Module favoritesSlice.

(** The names every object inherits from [Object.prototype]: reading one
    of them from [byId] gives a function (or the prototype itself), which
    is truthy, whether or not [byId] has a property of its own by that
    name. *)
Definition inheritedNames : list string :=
  [ "constructor"; "__proto__"; "hasOwnProperty"; "isPrototypeOf"; "propertyIsEnumerable";
    "toLocaleString"; "toString"; "valueOf"; "__defineGetter__"; "__defineSetter__";
    "__lookupGetter__"; "__lookupSetter__" ].

(** The property key [v.videoId] is used as: a missing id is the key
    ["undefined"]. *)
Definition keyOf (v : VideoItem) : string := default "undefined" (videoId v).

(** [byId] holds the properties of the object itself. *)
Record FavoritesState := { byId : gmap string VideoItem }.

Definition initialState : FavoritesState := {| byId := ∅ |}.

(** [Object.fromEntries(payload.map(v => [v.videoId, v]))]: a later entry
    overwrites an earlier one of the same key. *)
Definition setFavorites (state : FavoritesState) (payload : list VideoItem) : FavoritesState :=
  {| byId := foldl (λ m v, <[keyOf v := v]> m) ∅ payload |}.

(** [state.byId[v.videoId]] is truthy for a stored video and for an
    inherited name; [delete] of a name [byId] does not have itself does
    nothing. *)
Definition toggleFavorite (state : FavoritesState) (v : VideoItem) : FavoritesState :=
  match byId state !! keyOf v with
  | Some _ => {| byId := delete (keyOf v) (byId state) |}
  | None =>
      if bool_decide (keyOf v ∈ inheritedNames) then {| byId := delete (keyOf v) (byId state) |}
      else {| byId := <[keyOf v := v]> (byId state) |}
  end.

(** [!!favorites[item.videoId]] of [VideoCard]: what the button shows. *)
Definition isFav (state : FavoritesState) (v : VideoItem) : bool :=
  match byId state !! keyOf v with
  | Some _ => true
  | None => bool_decide (keyOf v ∈ inheritedNames)
  end.

End favoritesSlice.

(** ** The notifications ([src/unnamed/part_000]) *)

Module ToastProvider.

Inductive ToastType := info | success | error.

(** Timeouts are whole numbers of milliseconds here. *)
Record Toast := {
  id : Z;
  type : ToastType;
  message : string;
  timeout : Z;
}.

Record NotifyOpts := {
  opts_type : option ToastType;
  opts_timeout : option Z;
}.

(** The counter [gid] of the module, the list [toasts] of the provider,
    and the ids for which a [window.setTimeout] is pending. *)
Record ToastState := {
  gid : Z;
  toasts : list Toast;
  timers : list Z;
}.

Definition initialToasts : ToastState := {| gid := 1; toasts := []; timers := [] |}.

(** [gid++] on a number: above [2^53] the successor is not a number any
    more and the counter stays where it is. *)
Definition increment (g : Z) : Z := if g <? 2 ^ 53 then g + 1 else g.

Definition remove (i : Z) (st : ToastState) : ToastState :=
  {| gid := gid st;
     toasts := List.filter (λ t, negb (id t =? i)) (toasts st);
     timers := timers st |}.

Definition notify (msg : string) (opts : option NotifyOpts) (st : ToastState) : ToastState :=
  let i := gid st in
  let type_ := default info (opts ≫= opts_type) in
  let timeout_ := default 4000 (opts ≫= opts_timeout) in
  {| gid := increment (gid st);
     toasts := toasts st ++ [{| id := i; type := type_; message := msg; timeout := timeout_ |}];
     timers := if negb (timeout_ =? 0) && (0 <? timeout_) then timers st ++ [i] else timers st |}.

(** What happens to the provider: a notification, the [Close] button of
    the toast [i], or the timer of the toast [i] running out (which does
    nothing when no such timer is pending). *)
Inductive ToastEvent :=
  | Notify (msg : string) (opts : option NotifyOpts)
  | Close (i : Z)
  | TimerFires (i : Z).

(** A timer runs out once: its entry leaves the pending ones. *)
Fixpoint clearTimer (i : Z) (l : list Z) : list Z :=
  match l with
  | [] => []
  | j :: r => if j =? i then r else j :: clearTimer i r
  end.

Definition toastStep (st : ToastState) (ev : ToastEvent) : ToastState :=
  match ev with
  | Notify msg opts => notify msg opts st
  | Close i => remove i st
  | TimerFires i =>
      if bool_decide (i ∈ timers st) then
        let st' := remove i st in
        {| gid := gid st'; toasts := toasts st';
           timers := clearTimer i (timers st') |}
      else st
  end.

Definition toastRun (evs : list ToastEvent) (st : ToastState) : ToastState :=
  foldl toastStep st evs.

Definition isNotify (ev : ToastEvent) : bool :=
  match ev with Notify _ _ => true | _ => false end.

Definition notifications (evs : list ToastEvent) : Z :=
  Z.of_nat (List.length (List.filter isNotify evs)).

(** After [c] notifications: the counter, the ids handed out, and the
    timers of the toasts on display. *)
Definition toasts_ok (c : Z) (st : ToastState) : Prop :=
  gid st = Z.min (1 + c) (2 ^ 53) ∧
  Forall (λ t, 1 ≤ id t ≤ c) (toasts st) ∧
  NoDup (id <$> toasts st) ∧
  Forall (λ t, 0 < timeout t → id t ∈ timers st) (toasts st).

End ToastProvider.

(** ** The scroll logger of [CategorySection] ([src/README.md]) *)

(** A scroll event as [onScroll] sees it: what [Date.now()] reads,
    whether [sectionRef.current] is set, and whether the rectangle of the
    section meets the window ([r.bottom > 0 && r.top < window.innerHeight]). *)
Record ScrollEvent := {
  scroll_now : Z;
  scroll_el : bool;
  scroll_inView : bool;
}.

(** [onScroll]: the state is [lastLog] and the times at which a line was
    written to the console, oldest first. *)
Definition onScroll (st : Z * list Z) (ev : ScrollEvent) : Z * list Z :=
  let '(lastLog, logged) := st in
  let now := scroll_now ev in
  if now - lastLog <? 1000 then st
  else if negb (scroll_el ev) then st
  else if scroll_inView ev then (now, logged ++ [now])
  else st.

Definition scrollLog (evs : list ScrollEvent) : list Z := (foldl onScroll (0, []) evs).2.

(** * Properties *)

(** ** Strings *)

Section StringFacts.

Implicit Types s k p : string.

Lemma append_String c s r : String c s +:+ r = String c (s +:+ r).
Proof. reflexivity. Qed.

Lemma append_empty r : "" +:+ r = r.
Proof. reflexivity. Qed.

Lemma startsWith_spec s p :
  startsWith s p = true ↔ ∃ r, s = p +:+ r.
Proof.
  revert s; induction p as [|a p IH]; intros s; simpl.
  - split; [intros _; by exists s | done].
  - destruct s as [|b s]; simpl.
    + split; [done | intros [r Hr]; rewrite append_String in Hr; discriminate].
    + destruct (Ascii.eqb_spec a b) as [->|Hne].
      * rewrite IH. split; intros [r Hr]; exists r.
        -- rewrite append_String. congruence.
        -- rewrite append_String in Hr. congruence.
      * split; [done | intros [r Hr]; rewrite append_String in Hr; congruence].
Qed.

Lemma includes_spec s k :
  includes s k = true ↔ ∃ pre post, s = pre +:+ k +:+ post.
Proof.
  induction s as [|c s IH]; simpl.
  - rewrite orb_false_r, startsWith_spec. split.
    + intros [r Hr]. by exists "", r.
    + intros [pre [post H]]. destruct pre.
      * rewrite append_empty in H. by exists post.
      * rewrite append_String in H. discriminate.
  - rewrite orb_true_iff, startsWith_spec, IH. split.
    + intros [[r Hr] | [pre [post H]]].
      * by exists "", r.
      * exists (String c pre), post. rewrite append_String. by rewrite H.
    + intros [pre [post H]]. destruct pre as [|c' pre].
      * left. rewrite append_empty in H. by exists post.
      * right. rewrite append_String in H. exists pre, post. congruence.
Qed.

Lemma toLowerCase_app s1 s2 :
  toLowerCase (s1 +:+ s2) = toLowerCase s1 +:+ toLowerCase s2.
Proof.
  induction s1 as [|c s1 IH]; [done|].
  rewrite append_String. simpl. by rewrite IH, append_String.
Qed.

(** What the filters compute, lower-casing the text and looking for the
    term, finds every occurrence up to letter case of a lower-case term. *)
Lemma includes_lower_complete s k :
  toLowerCase k = k → occurs_ci k s → includes (toLowerCase s) k = true.
Proof.
  intros Hk (pre & mid & post & -> & Hmid).
  apply includes_spec. exists (toLowerCase pre), (toLowerCase post).
  rewrite !toLowerCase_app. congruence.
Qed.

Lemma not_occurs_ci s k :
  toLowerCase k = k → includes (toLowerCase s) k = false → ¬ occurs_ci k s.
Proof.
  intros Hk Hinc Hocc. apply (includes_lower_complete _ _ Hk) in Hocc. congruence.
Qed.

End StringFacts.

Lemma existsb_false_elem {A} (f : A → bool) (l : list A) x :
  existsb f l = false → x ∈ l → f x = false.
Proof.
  intros H Hx. destruct (f x) eqn:E; [|done].
  assert (existsb f l = true) as H'; [|congruence].
  apply existsb_exists. exists x. split; [by apply list_elem_of_In | done].
Qed.

Lemma elem_of_List_filter {A} (f : A → bool) (l : list A) x :
  x ∈ List.filter f l ↔ x ∈ l ∧ f x = true.
Proof. rewrite !list_elem_of_In. apply filter_In. Qed.

(** ** The safety filter *)

Lemma CONTENT_BLOCKLIST_lower k : k ∈ CONTENT_BLOCKLIST → toLowerCase k = k.
Proof.
  intros Hk.
  assert (forallb (λ w, bool_decide (toLowerCase w = w)) CONTENT_BLOCKLIST = true) as H
    by (vm_compute; reflexivity).
  rewrite forallb_forall in H. apply list_elem_of_In, H in Hk. by apply bool_decide_eq_true in Hk.
Qed.

Lemma BLOCKLIST_same : BLOCKLIST = CONTENT_BLOCKLIST.
Proof. reflexivity. Qed.

Lemma text_checks_clean (ttl desc : option string) (tgs : list string) :
  existsb (λ k, includes (toLowerCase (str_or ttl "")) k
                || includes (toLowerCase (str_or desc "")) k) CONTENT_BLOCKLIST = false →
  (0 <? Z.of_nat (List.length (map toLowerCase tgs)))
    && existsb (λ k, existsb (λ t, includes t k) (map toLowerCase tgs)) CONTENT_BLOCKLIST = false →
  clean_text ttl desc tgs.
Proof.
  intros Htext Htags k Hk.
  pose proof (CONTENT_BLOCKLIST_lower k Hk) as Hlow.
  pose proof (existsb_false_elem _ _ k Htext Hk) as Hk1. simpl in Hk1.
  apply orb_false_iff in Hk1 as [Ht Hd].
  split; [by apply not_occurs_ci|]. split; [by apply not_occurs_ci|].
  intros t Ht'. apply not_occurs_ci; [done|].
  apply andb_false_iff in Htags as [Hlen | Hex].
  - destruct tgs; [by apply elem_of_nil in Ht'|]. simpl in Hlen. apply Z.ltb_ge in Hlen. lia.
  - pose proof (existsb_false_elem _ _ k Hex Hk) as Hk2. simpl in Hk2.
    apply (existsb_false_elem _ _ (toLowerCase t) Hk2).
    apply list_elem_of_fmap. by exists t.
Qed.

Lemma isKidFriendly_sound maxAge sn det :
  maxAge < 18 →
  isKidFriendly maxAge sn det = true →
  det ≫= YT.ytRating ≠ Some "ytAgeRestricted" ∧
  clean_text (sn ≫= YT.title) (sn ≫= YT.description) (default [] (det ≫= YT.tags)).
Proof.
  intros Hage. unfold isKidFriendly.
  destruct (_ && bool_decide _) eqn:Hr; [done|].
  destruct (existsb _ CONTENT_BLOCKLIST) eqn:Htext; [done|].
  destruct (_ && existsb _ CONTENT_BLOCKLIST) eqn:Htags; [done|]. intros _.
  split.
  - apply andb_false_iff in Hr as [Hr|Hr].
    + apply Z.ltb_ge in Hr. lia.
    + by apply bool_decide_eq_false in Hr.
  - by apply text_checks_clean.
Qed.

Lemma isBlocked_sound maxAge sn det :
  num_ltb maxAge 18 = true →
  isBlocked maxAge sn det = false →
  YT.ytRating det ≠ Some "ytAgeRestricted" ∧
  clean_text (sn ≫= YT.title) (sn ≫= YT.description) (default [] (YT.tags det)).
Proof.
  intros Hage. unfold isBlocked. rewrite Hage, BLOCKLIST_same, andb_true_l.
  destruct (bool_decide _) eqn:Hr; [done|].
  destruct (existsb _ CONTENT_BLOCKLIST) eqn:Htext; [done|].
  destruct (_ && existsb _ CONTENT_BLOCKLIST) eqn:Htags; [done|]. intros _.
  split; [by apply bool_decide_eq_false in Hr | by apply text_checks_clean].
Qed.

(** *** Lists through [filter], [sort] and the seen set *)

Lemma sort_insert_perm {A} (cmp : A → A → option Z) x l :
  Permutation (sort_insert cmp x l) (x :: l).
Proof.
  induction l as [|y l IH]; simpl; [done|].
  destruct (_ <=? 0); [done|].
  rewrite IH. apply perm_swap.
Qed.

Lemma Array_sort_perm {A} (cmp : A → A → option Z) l :
  Permutation (Array_sort cmp l) l.
Proof.
  induction l as [|x l IH]; simpl; [done|].
  rewrite sort_insert_perm. by constructor.
Qed.

Lemma elem_of_Array_sort {A} (cmp : A → A → option Z) l x :
  x ∈ Array_sort cmp l ↔ x ∈ l.
Proof. by rewrite (Array_sort_perm cmp l). Qed.

Lemma uniqueItems_elem seen results v :
  v ∈ (uniqueItems seen results).1 → v ∈ results.
Proof.
  revert seen; induction results as [|w rest IH]; intros seen; simpl; [done|].
  destruct (videoId w) as [vid|]; [|intros Hv; right; eauto].
  case_bool_decide; [intros Hv; right; eauto|].
  case_bool_decide; [intros Hv; right; eauto|].
  destruct (uniqueItems ({[vid]} ∪ seen) rest) as [us seen'] eqn:E. simpl.
  intros [->|Hv]%elem_of_cons; [left|right].
  apply (IH ({[vid]} ∪ seen)). by rewrite E.
Qed.

(** Every item of a direct response is the conversion of a candidate that
    passed the safety filter. *)
Lemma directResponse_items env seenMap q opts u v :
  v ∈ items (directResponse env seenMap q opts u).1 →
  ∃ i, i ∈ filteredItems (getMaxAllowedAge (REACT_APP_MAX_ALLOWED_AGE env))
             (Map_of YT.id (up_details u)) (up_items u)
       ∧ v = toVideoItem (Map_of YT.id (up_details u)) i
       ∧ validItem v = true.
Proof.
  unfold directResponse.
  destruct (uniqueItems _ _) as [unique seen'] eqn:E. simpl.
  intros Hv.
  assert (v ∈ (uniqueItems (default ∅ (seenMap !! toLowerCase q))
     (List.filter validItem (map (toVideoItem (Map_of YT.id (up_details u)))
        (prioritizedItems (client_byDate opts) (Map_of YT.id (up_details u))
           (Map_of YT.ch_id (up_channels u))
           (filteredItems (getMaxAllowedAge (REACT_APP_MAX_ALLOWED_AGE env))
              (Map_of YT.id (up_details u)) (up_items u)))))).1) as Hv'
    by (by rewrite E).
  apply uniqueItems_elem, elem_of_List_filter in Hv' as [Hv' Hvalid].
  apply list_elem_of_fmap in Hv' as (i & -> & Hi).
  apply elem_of_Array_sort in Hi. eauto.
Qed.

(** C1. Safety filter: with a maximum allowed age below 18, every candidate
    that passes the filter (in the client and in the proxy) carries no
    age-restricted rating and no blocklist term, up to letter case, in its
    title, its description or any of its tags; the same holds of every item
    of the response the direct fetch builds from the candidates. *)
Theorem safety_filter_output_clean
    (env : ClientEnv) (server_env : option string)
    (detailsMap : gmap string YT.VideoDetails)
    (candidates : list YT.SearchItem)
    (seenMap : gmap string (gset string)) (q_ : string) (opts : option SearchOptions)
    (u : Upstream) :
  getMaxAllowedAge (REACT_APP_MAX_ALLOWED_AGE env) < 18 →
  num_ltb (MAX_ALLOWED_AGE server_env) 18 = true →
  (∀ i, i ∈ filteredItems (getMaxAllowedAge (REACT_APP_MAX_ALLOWED_AGE env)) detailsMap candidates →
     Map_get detailsMap (YT.videoId i) ≫= YT.ytRating ≠ Some "ytAgeRestricted" ∧
     clean_text (YT.snippet i ≫= YT.title) (YT.snippet i ≫= YT.description)
       (default [] (Map_get detailsMap (YT.videoId i) ≫= YT.tags))) ∧
  (∀ i, i ∈ server_filtered (MAX_ALLOWED_AGE server_env) detailsMap candidates →
     YT.ytRating (server_details detailsMap i) ≠ Some "ytAgeRestricted" ∧
     clean_text (YT.snippet i ≫= YT.title) (YT.snippet i ≫= YT.description)
       (default [] (YT.tags (server_details detailsMap i)))) ∧
  (∀ v, v ∈ items (directResponse env seenMap q_ opts u).1 →
     clean_text (title v) (description v) (tags v) ∧
     ∃ i, i ∈ up_items u ∧ v = toVideoItem (Map_of YT.id (up_details u)) i ∧
          Map_get (Map_of YT.id (up_details u)) (YT.videoId i) ≫= YT.ytRating
            ≠ Some "ytAgeRestricted").
Proof.
  intros Hc Hs. split; [|split].
  - intros i [Hi Hok]%elem_of_List_filter. exact (isKidFriendly_sound _ _ _ Hc Hok).
  - intros i [Hi Hok]%elem_of_List_filter. apply negb_true_iff in Hok.
    exact (isBlocked_sound _ _ _ Hs Hok).
  - intros v (i & [Hi Hok]%elem_of_List_filter & -> & _)%directResponse_items.
    apply (isKidFriendly_sound _ _ _ Hc) in Hok as [Hr Hclean].
    split; [exact Hclean | eauto].
Qed.

Example default_max_age : getMaxAllowedAge None = 14 ∧ MAX_ALLOWED_AGE None = Some 14.
Proof. by vm_compute. Qed.

(** A setting with a number written out is that number; one with more
    digits than a finite Number has is not finite, and the default is
    used. *)
Example max_age_settings :
  getMaxAllowedAge (Some "16") = 16 ∧
  getMaxAllowedAge (Some "abc") = 14 ∧
  getMaxAllowedAge (Some "-3") = 14 ∧
  getMaxAllowedAge (Some "9007199254740993") = 9007199254740992 ∧
  getMaxAllowedAge (Some (String.concat "" (repeat "9" 310))) = 14.
Proof. by vm_compute. Qed.

Example sample_filtered :
  map YT.videoId (filteredItems 14 (Map_of YT.id (up_details sample_upstream)) sample_candidates)
  = [Some "v1"].
Proof. by vm_compute. Qed.

Lemma safety_filter_output_clean_witness :
  getMaxAllowedAge (REACT_APP_MAX_ALLOWED_AGE sample_env) < 18 ∧
  num_ltb (MAX_ALLOWED_AGE None) 18 = true ∧
  ∀ v, v ∈ items (directResponse sample_env ∅ "ai music" None sample_upstream).1 →
       clean_text (title v) (description v) (tags v).
Proof.
  split; [reflexivity|]. split; [reflexivity|].
  intros v Hv.
  apply (safety_filter_output_clean sample_env None ∅ sample_candidates ∅ "ai music" None
           sample_upstream); [reflexivity | reflexivity | exact Hv].
Defined.


(** ** [Array.prototype.sort] with a consistent comparator *)

Section SortFacts.

Context {A : Type} (cmp : A → A → option Z) (R : relation A) (P : A → Prop).
Context `{!Transitive R}.
Hypothesis cmp_R : ∀ x y, P x → P y → (SortCompare cmp x y ≤ 0 ↔ R x y).
Hypothesis R_total : ∀ x y, P x → P y → R x y ∨ R y x.

Lemma sort_insert_sorted x l :
  P x → Forall P l → StronglySorted R l → StronglySorted R (sort_insert cmp x l).
Proof.
  intros Hx HP Hs. induction l as [|y l IH]; simpl.
  - by repeat constructor.
  - apply Forall_cons in HP as [Hy HP].
    apply StronglySorted_cons in Hs as [Hyl Hs].
    destruct (Z.leb_spec (SortCompare cmp x y) 0) as [Hle|Hgt].
    + apply cmp_R in Hle; [|done..].
      apply StronglySorted_cons. split; [|by apply StronglySorted_cons].
      constructor; [done|]. eapply Forall_impl; [exact Hyl|].
      intros z Hz. by transitivity y.
    + assert (R y x) as Hyx.
      { destruct (R_total x y Hx Hy) as [Hxy|]; [|done].
        apply cmp_R in Hxy; [lia|done..]. }
      apply StronglySorted_cons. split; [|by apply IH].
      rewrite (sort_insert_perm cmp x l). by constructor.
Qed.

Lemma Array_sort_sorted l :
  Forall P l → StronglySorted R (Array_sort cmp l).
Proof.
  induction l as [|x l IH]; intros HP; simpl; [constructor|].
  apply Forall_cons in HP as [Hx HP].
  apply sort_insert_sorted; [done | | by apply IH].
  by rewrite (Array_sort_perm cmp l).
Qed.

End SortFacts.

Lemma StronglySorted_lookup {A} (R : relation A) (l : list A) (i j : nat) a b :
  StronglySorted R l → l !! i = Some a → l !! j = Some b → (i < j)%nat → R a b.
Proof.
  intros Hs. revert i j. induction Hs as [|x l Hs IH Hx]; intros i j Hi Hj Hlt; [done|].
  destruct i as [|i], j as [|j]; try lia; simpl in *.
  - injection Hi as ->. rewrite Forall_forall in Hx. apply Hx.
    by eapply list_elem_of_lookup_2.
  - apply (IH i j); [done..|lia].
Qed.

(** In a sorted list, [a] stands before [b] as soon as [b] may not stand
    before [a]. *)
Lemma sorted_precedes {A} (R : relation A) (l : list A) a b :
  StronglySorted R l → (a = b → R b a) → ¬ R b a → precedes l a b.
Proof.
  intros Hs Hrefl Hnot i j Hi Hj.
  destruct (lt_eq_lt_dec i j) as [[Hlt|Heq]|Hgt]; [done| |].
  - subst j. rewrite Hi in Hj. injection Hj as <-. destruct Hnot. by apply Hrefl.
  - destruct Hnot. by apply (StronglySorted_lookup R l j i).
Qed.

(** ** The ranking policy *)

Section RankingFacts.

Variables (byDate : bool) (detailsMap : gmap string YT.VideoDetails)
          (channelMap : gmap string YT.Channel).

Lemma bit_cases b : bit b = 0 ∨ bit b = 1.
Proof. destruct b; auto. Qed.

Lemma kidsKey_cases i : kidsKey detailsMap i = 0 ∨ kidsKey detailsMap i = 1.
Proof. apply bit_cases. Qed.

Lemma verifiedOf_spec i :
  (verifiedOf channelMap i = 1 ∧ 100000 ≤ subscribersOf channelMap i) ∨
  (verifiedOf channelMap i = 0 ∧ subscribersOf channelMap i < 100000).
Proof.
  unfold verifiedOf, verified, subscribersOf.
  destruct (Z.leb_spec 100000 (subs (Map_get channelMap (YT.snippet i ≫= YT.channelId))));
    simpl; auto.
Qed.

#[local] Instance rank_ge_trans : Transitive (rank_ge byDate detailsMap channelMap).
Proof.
  intros a b c Hab Hbc. unfold rank_ge in *.
  destruct byDate; [|lia].
  assert (publishedOr0 b ≤ publishedOr0 a → publishedOr0 c ≤ publishedOr0 b →
          publishedOr0 c ≤ publishedOr0 a) by lia.
  destruct Hab as [?|[? [?|[? ?]]]], Hbc as [?|[? [?|[? ?]]]];
    first [ left; lia | right; split; [lia|]; first [left; lia | right; split; [lia|auto]] ].
Qed.

Lemma rank_ge_total a b :
  rank_ge byDate detailsMap channelMap a b ∨ rank_ge byDate detailsMap channelMap b a.
Proof.
  unfold rank_ge.
  destruct (Z.lt_total (kidsKey detailsMap a) (kidsKey detailsMap b)) as [?|[?|?]];
    [right; left; lia | | left; left; lia].
  destruct (Z.lt_total (verifiedOf channelMap a) (verifiedOf channelMap b)) as [?|[?|?]];
    [right; right; split; [lia|left; lia] | | left; right; split; [lia|left; lia]].
  destruct (Z.le_ge_cases (publishedOr0 a) (publishedOr0 b)).
  - right; right; split; [lia|right; split; [lia|auto]].
  - left; right; split; [lia|right; split; [lia|auto]].
Qed.

(** The comparator is consistent on candidates whose dates parse: it
    answers "not after" exactly along [rank_ge]. *)
Lemma prioritize_rank_ge a b :
  (byDate = true → is_Some (published a)) →
  (byDate = true → is_Some (published b)) →
  SortCompare (prioritize byDate detailsMap channelMap) a b ≤ 0
  ↔ rank_ge byDate detailsMap channelMap a b.
Proof.
  intros Ha Hb. unfold SortCompare, prioritize, rank_ge.
  fold (kidsKey detailsMap a) (kidsKey detailsMap b)
       (verifiedOf channelMap a) (verifiedOf channelMap b).
  destruct (Z.eqb_spec (kidsKey detailsMap b) (kidsKey detailsMap a)) as [Hk|Hk]; simpl; [|lia].
  destruct (Z.eqb_spec (verifiedOf channelMap b) (verifiedOf channelMap a)) as [Hv|Hv];
    simpl; [|lia].
  destruct byDate; simpl; [|intuition lia].
  destruct Ha as [pa Hpa]; [done|]. destruct Hb as [pb Hpb]; [done|].
  unfold publishedOr0. rewrite Hpa, Hpb. simpl. intuition lia.
Qed.

Lemma prioritizedItems_sorted l :
  (byDate = true → Forall (λ i, is_Some (published i)) l) →
  StronglySorted (rank_ge byDate detailsMap channelMap)
    (prioritizedItems byDate detailsMap channelMap l).
Proof.
  intros Hd.
  apply (Array_sort_sorted _ _ (λ i, i ∈ l)).
  - intros x y Hx Hy. apply prioritize_rank_ge; intros Hb; specialize (Hd Hb);
      rewrite Forall_forall in Hd; auto.
  - intros x y _ _. apply rank_ge_total.
  - by apply Forall_forall.
Qed.

End RankingFacts.

(** The statement [filteredItems.slice().sort(...)] leaves the array
    [filteredItems] as it was and puts the sorted copy elsewhere. *)
Lemma prioritize_stmt_spec {A} (cmp : A → A → option Z) (h : gmap nat (list A)) (a : nat) l :
  h !! a = Some l →
  let '(copy, h') := prioritize_stmt cmp h a in
  copy ≠ a ∧ h' !! a = Some l ∧ h' !! copy = Some (Array_sort cmp l).
Proof.
  intros Ha. unfold prioritize_stmt, Array_slice, Array_sort_at.
  pose proof (is_fresh (dom h)) as Hfresh.
  generalize dependent (fresh (dom h)). intros c Hfresh.
  assert (c ≠ a) as Hne.
  { intros ->. apply Hfresh, elem_of_dom. by exists l. }
  split; [done|]. split.
  - by rewrite lookup_alter_ne, lookup_insert_ne.
  - by rewrite lookup_alter_eq, lookup_insert_eq, Ha.
Qed.

(** *** The keys as the specification names them *)

Lemma digitsPrefix_count acc n s : (n ≤ (digitsPrefix acc n s).2)%nat.
Proof.
  revert acc n. induction s as [|c s IH]; intros acc n; simpl; [done|].
  destruct (isDigit c); simpl; [|done].
  specialize (IH (10 * acc + (code c - 48)) (S n)). lia.
Qed.

Lemma isDigit_plain c :
  isDigit c = true → isWhiteSpace c = false ∧ c ≠ "-"%char ∧ c ≠ "+"%char.
Proof.
  unfold isDigit, isWhiteSpace. intros [H1 H2]%andb_true_iff.
  apply Z.leb_le in H1, H2. split.
  - repeat (apply orb_false_iff; split); [apply andb_false_iff; right| |];
      first [apply Z.leb_gt | apply Z.eqb_neq]; lia.
  - split; intros ->; unfold code in H1; simpl in H1; lia.
Qed.

Lemma digitsPrefix_decimal s :
  ∀ acc k n, decimalDigits acc s = Some n →
             digitsPrefix acc k s = (n, (k + String.length s)%nat).
Proof.
  induction s as [|c s IH]; intros acc k n; simpl.
  - intros [= ->]. f_equal. lia.
  - destruct (isDigit c); [|done]. intros H. rewrite (IH _ (S k) n H). f_equal. lia.
Qed.

(** [parseInt] reads a text of digits as the number they denote. *)
Lemma parseInt_denotes s n : denotes s n → parseInt s = Some n.
Proof.
  intros [Hne Hd]. destruct s as [|c s]; [done|].
  assert (isDigit c = true) as Hc.
  { simpl in Hd. by destruct (isDigit c). }
  destruct (isDigit_plain c Hc) as (Hws & Hm & Hp).
  unfold parseInt. simpl trimStart. rewrite Hws.
  assert ((let '(neg, s2) :=
             match String c s with
             | String "-"%char r => (true, r)
             | String "+"%char r => (false, r)
             | _ => (false, String c s)
             end in (neg, s2)) = (false, String c s)) as Hsign.
  { destruct c as [[] [] [] [] [] [] [] []]; try done. }
  destruct (match String c s with
            | String "-"%char r => (true, r)
            | String "+"%char r => (false, r)
            | _ => (false, String c s)
            end) as [neg s2].
  injection Hsign as -> ->.
  rewrite (digitsPrefix_decimal _ 0 0%nat n Hd). done.
Qed.

Lemma flaggedForKids_key detailsMap i :
  flaggedForKids detailsMap i ↔ kidsKey detailsMap i = 1.
Proof.
  unfold flaggedForKids, kidsKey, mk. split.
  - intros (d & -> & Hd). simpl. by rewrite Hd.
  - destruct (Map_get detailsMap (YT.videoId i)) as [d|]; simpl; [|done].
    destruct (YT.madeForKids d) as [[]|] eqn:Hd; simpl; [|done..].
    intros _. by exists d.
Qed.

Lemma subscribers_key channelMap i n :
  subscribers channelMap i n → subscribersOf channelMap i = n.
Proof.
  unfold subscribers, subscribersOf, subs.
  destruct (Map_get channelMap (YT.snippet i ≫= YT.channelId)) as [ch|]; simpl;
    [|by intros ->].
  destruct (YT.subscriberCount ch) as [s|]; simpl; [|by intros ->].
  destruct (decide (s = "")) as [->|Hne]; [by intros ->|].
  intros Hd. by rewrite (parseInt_denotes s n Hd).
Qed.

Lemma publishedAtInstant_key i t :
  publishedAtInstant i t → published i = Some t.
Proof.
  unfold publishedAtInstant, published.
  destruct (YT.snippet i ≫= YT.publishedAt) as [[|x]|]; [done| |by intros ->].
  intros [-> [Hr1 Hr2]]. simpl. unfold getTime, TimeClip.
  destruct (Z.leb_spec (- maxTime) t), (Z.leb_spec t maxTime); simpl; auto; lia.
Qed.

Lemma dates_parse_published l :
  dates_parse l → Forall (λ i, is_Some (published i)) l.
Proof.
  intros H. eapply Forall_impl; [exact H|]. intros i [t Ht]. exists t.
  by apply publishedAtInstant_key.
Qed.

(** C4, as amended. Ranking: in the ranked list every candidate flagged
    made-for-kids stands before every candidate not so flagged; with equal
    flags, every candidate of a channel with at least 100,000 subscribers
    (none when the channel data is missing) stands before every candidate
    of a smaller channel; when the order is by date, of two candidates
    tied on both keys the one published strictly later stands first; the
    ranked list is a rearrangement of the input, and the array holding the
    input is left untouched. For the order by date every [publishedAt] of
    the candidates is missing or parses as a date: the comparator is not
    consistent otherwise. *)
Theorem ranking_order (byDate : bool)
    (detailsMap : gmap string YT.VideoDetails) (channelMap : gmap string YT.Channel)
    (filtered : list YT.SearchItem) (h : gmap nat (list YT.SearchItem)) (loc : nat) :
  (byDate = true → dates_parse filtered) →
  h !! loc = Some filtered →
  let ranked := prioritizedItems byDate detailsMap channelMap filtered in
  (∀ a b, flaggedForKids detailsMap a → ¬ flaggedForKids detailsMap b →
          precedes ranked a b) ∧
  (∀ a b na nb,
          (flaggedForKids detailsMap a ↔ flaggedForKids detailsMap b) →
          subscribers channelMap a na → subscribers channelMap b nb →
          100000 ≤ na → nb < 100000 →
          precedes ranked a b) ∧
  (byDate = true →
   ∀ a b na nb ta tb,
          (flaggedForKids detailsMap a ↔ flaggedForKids detailsMap b) →
          subscribers channelMap a na → subscribers channelMap b nb →
          (100000 ≤ na ↔ 100000 ≤ nb) →
          publishedAtInstant a ta → publishedAtInstant b tb → tb < ta →
          precedes ranked a b) ∧
  ranked ≡ₚ filtered ∧
  (let '(copy, h') := prioritize_stmt (prioritize byDate detailsMap channelMap) h loc in
   h' !! loc = Some filtered ∧ h' !! copy = Some ranked).
Proof.
  intros Hd Hloc ranked.
  assert (byDate = true → Forall (λ i, is_Some (published i)) filtered) as Hd'
    by (intros Hb; by apply dates_parse_published, Hd).
  pose proof (prioritizedItems_sorted byDate detailsMap channelMap filtered Hd') as Hs.
  fold ranked in Hs.
  assert (∀ a b, (flaggedForKids detailsMap a ↔ flaggedForKids detailsMap b) →
                 kidsKey detailsMap a = kidsKey detailsMap b) as Hflag.
  { intros a b Hab. rewrite !flaggedForKids_key in Hab.
    destruct (kidsKey_cases detailsMap a), (kidsKey_cases detailsMap b); intuition lia. }
  split; [|split; [|split; [|split]]].
  - intros a b Ha Hb. apply flaggedForKids_key in Ha.
    rewrite flaggedForKids_key in Hb.
    destruct (kidsKey_cases detailsMap b) as [Hb0|?]; [|done].
    apply (sorted_precedes _ _ _ _ Hs); [intros ->; lia|].
    unfold rank_ge. lia.
  - intros a b na nb Hk Hna Hnb Ha Hb.
    apply Hflag in Hk. apply subscribers_key in Hna, Hnb.
    destruct (verifiedOf_spec channelMap a) as [[Hva ?]|[Hva ?]]; [|lia].
    destruct (verifiedOf_spec channelMap b) as [[Hvb ?]|[Hvb ?]]; [lia|].
    apply (sorted_precedes _ _ _ _ Hs); [intros ->; lia|].
    unfold rank_ge. lia.
  - intros -> a b na nb ta tb Hk Hna Hnb Hv Hta Htb Hlt.
    apply Hflag in Hk. apply subscribers_key in Hna, Hnb.
    apply publishedAtInstant_key in Hta, Htb.
    assert (verifiedOf channelMap a = verifiedOf channelMap b) as Hv'.
    { destruct (verifiedOf_spec channelMap a) as [[-> ?]|[-> ?]],
               (verifiedOf_spec channelMap b) as [[-> ?]|[-> ?]]; lia. }
    apply (sorted_precedes _ _ _ _ Hs);
      [intros ->; rewrite Hta in Htb; injection Htb as ->; lia|].
    unfold rank_ge, publishedOr0. rewrite Hta, Htb. simpl.
    intros [?|[_ [?|[_ Hle]]]]; [lia..|]. specialize (Hle eq_refl). lia.
  - apply Array_sort_perm.
  - pose proof (prioritize_stmt_spec (prioritize byDate detailsMap channelMap) h loc filtered Hloc)
      as Hstmt.
    destruct (prioritize_stmt _ h loc) as [copy h']. tauto.
Qed.

Example rank_candidates_ranked :
  map YT.videoId (prioritizedItems true rank_detailsMap rank_channelMap rank_candidates)
  = [Some "d"; Some "c"; Some "b"; Some "a"] ∧
  map YT.videoId (prioritizedItems false rank_detailsMap rank_channelMap rank_candidates)
  = [Some "d"; Some "c"; Some "a"; Some "b"].
Proof. by vm_compute. Qed.

(** The candidate made for kids stands before the others, the one of the
    big channel before those of the small one, and of these the later one
    first. *)
Lemma ranking_order_witness :
  let h : gmap nat (list YT.SearchItem) := {[ 7%nat := rank_candidates ]} in
  let ranked := prioritizedItems true rank_detailsMap rank_channelMap rank_candidates in
  (true = true → dates_parse rank_candidates) ∧
  h !! 7%nat = Some rank_candidates ∧
  precedes ranked (rank_item "d" "nochannel" 100) (rank_item "c" "big" 500) ∧
  precedes ranked (rank_item "c" "big" 500) (rank_item "b" "small" 2000) ∧
  precedes ranked (rank_item "b" "small" 2000) (rank_item "a" "small" 1000).
Proof.
  intros h ranked.
  assert (true = true → dates_parse rank_candidates) as Hd.
  { intros _. repeat constructor; eexists; (split; [reflexivity|]);
      unfold maxTime; lia. }
  assert (h !! 7%nat = Some rank_candidates) as Hl by apply lookup_singleton_eq.
  split; [exact Hd|]. split; [exact Hl|].
  destruct (ranking_order true rank_detailsMap rank_channelMap rank_candidates h 7 Hd Hl)
    as (Hkids & Hsubs & Hdate & _).
  assert (∀ vid ch t, vid ≠ "d" →
            ¬ flaggedForKids rank_detailsMap (rank_item vid ch t)) as Hnot.
  { intros vid ch t Hvid (d & Hget & Hflag). simpl in Hget.
    unfold rank_detailsMap, Map_of in Hget. simpl in Hget.
    destruct (decide (vid = "a")) as [->|Ha].
    - rewrite lookup_insert_ne in Hget by done.
      rewrite lookup_insert_eq in Hget. by injection Hget as <-.
    - rewrite lookup_insert_ne in Hget by done.
      rewrite lookup_insert_ne in Hget by done. done. }
  assert (flaggedForKids rank_detailsMap (rank_item "d" "nochannel" 100)) as Hd_kids.
  { exists (rank_details "d" true). split; reflexivity. }
  assert (subscribers rank_channelMap (rank_item "c" "big" 500) 100000) as Hc
    by (split; [done|reflexivity]).
  assert (∀ vid t, subscribers rank_channelMap (rank_item vid "small" t) 99999) as Hsmall
    by (intros vid t; split; [done|reflexivity]).
  split; [|split].
  - apply Hkids; [exact Hd_kids | by apply Hnot].
  - apply (Hsubs _ _ 100000 99999); [|exact Hc|apply Hsmall|lia|lia].
    split; intros Hf; exfalso; revert Hf; by apply Hnot.
  - apply (Hdate eq_refl _ _ 99999 99999 2000 1000);
      [|apply Hsmall|apply Hsmall|done| | |lia].
    + split; intros Hf; exfalso; revert Hf; by apply Hnot.
    + split; [reflexivity|]. unfold maxTime. lia.
    + split; [reflexivity|]. unfold maxTime. lia.
Defined.

(** C4, as stated, fails when a date does not parse: of three candidates
    tied on both keys, the one published later stays behind the one
    published earlier, because the comparator answers [NaN] whenever the
    candidate between them is compared. *)
Lemma ranking_unparseable_date :
  let ranked := prioritizedItems true ∅ ∅ undated_candidates in
  ranked = undated_candidates ∧
  (∀ i, i ∈ undated_candidates → ¬ flaggedForKids ∅ i ∧ subscribers ∅ i 0) ∧
  publishedAtInstant (rank_item "new" "small" 2000) 2000 ∧
  publishedAtInstant (rank_item "old" "small" 1000) 1000 ∧
  ranked !! 0%nat = Some (rank_item "old" "small" 1000) ∧
  ranked !! 2%nat = Some (rank_item "new" "small" 2000) ∧
  ¬ precedes ranked (rank_item "new" "small" 2000) (rank_item "old" "small" 1000).
Proof.
  intros ranked.
  assert (ranked = undated_candidates) as Hsame by (by vm_compute).
  split; [exact Hsame|]. split.
  { intros i _. split.
    - intros (d & Hget & _). unfold Map_get in Hget.
      destruct (YT.videoId i); simpl in Hget; [|done]. by rewrite lookup_empty in Hget.
    - unfold subscribers, Map_get.
      destruct (YT.snippet i ≫= YT.channelId); simpl; [|done]. by rewrite lookup_empty. }
  split; [split; [reflexivity|unfold maxTime; lia]|].
  split; [split; [reflexivity|unfold maxTime; lia]|].
  rewrite Hsame. split; [reflexivity|]. split; [reflexivity|].
  intros Hp. specialize (Hp 2%nat 0%nat eq_refl eq_refl). lia.
Qed.


(** ** Dedup scopes *)

Lemma fresh_chain_subseteq s bs s' : fresh_chain s bs s' → s ⊆ s'.
Proof. induction 1; set_solver. Qed.

Lemma fresh_chain_weaken s0 s bs s' : s0 ⊆ s → fresh_chain s bs s' → fresh_chain s0 bs s'.
Proof.
  intros Hsub Hc. destruct Hc as [s s' Hs|s s1 s' b bs Hb Hs Hc].
  - constructor. set_solver.
  - apply fresh_chain_cons with s1; [|set_solver|done].
    intros v vid Hv Hid. destruct (Hb v vid Hv Hid). set_solver.
Qed.

Lemma fresh_chain_ids s bs s' b v vid :
  fresh_chain s bs s' → b ∈ bs → v ∈ b → videoId v = Some vid → (vid ∉ s) ∧ vid ∈ s'.
Proof.
  induction 1 as [|s s1 s' b0 bs Hb Hs Hc IH]; intros Hin Hv Hid.
  - by apply elem_of_nil in Hin.
  - pose proof (fresh_chain_subseteq _ _ _ Hc) as Hs'.
    apply elem_of_cons in Hin as [->|Hin].
    + destruct (Hb v vid Hv Hid). set_solver.
    + destruct (IH Hin Hv Hid). set_solver.
Qed.

Lemma fresh_chain_disjoint s bs s' : fresh_chain s bs s' → batches_disjoint bs.
Proof.
  induction 1 as [|s s1 s' b0 bs Hb Hs Hc IH]; intros i j b1 b2 v1 v2 vid Hlt Hi Hj Hv1 Hv2 Hid1 Hid2.
  - done.
  - destruct j as [|j]; [lia|]. simpl in Hj.
    destruct i as [|i]; simpl in Hi.
    + injection Hi as <-. destruct (Hb v1 vid Hv1 Hid1) as [_ Hin1].
      apply list_elem_of_lookup_2 in Hj.
      destruct (fresh_chain_ids _ _ _ _ _ _ Hc Hj Hv2 Hid2). done.
    + apply (IH i j b1 b2 v1 v2 vid); [lia|done..].
Qed.

(** *** The per-query scope of the direct fetch *)

Lemma uniqueItems_spec seen results :
  seen ⊆ (uniqueItems seen results).2 ∧
  ∀ v vid, v ∈ (uniqueItems seen results).1 → videoId v = Some vid →
           (vid ∉ seen) ∧ vid ∈ (uniqueItems seen results).2.
Proof.
  revert seen. induction results as [|w rest IH]; intros seen; simpl.
  - split; [done|]. intros v vid Hv. by apply elem_of_nil in Hv.
  - destruct (videoId w) as [wid|] eqn:Hw; [|apply IH].
    case_bool_decide; [apply IH|].
    case_bool_decide as Hseen; [apply IH|].
    destruct (IH ({[wid]} ∪ seen)) as [Hsub Hids].
    destruct (uniqueItems ({[wid]} ∪ seen) rest) as [us seen']. simpl in *.
    split; [set_solver|].
    intros v vid [->|Hv]%elem_of_cons Hid.
    + rewrite Hw in Hid. injection Hid as <-. set_solver.
    + destruct (Hids v vid Hv Hid). set_solver.
Qed.

Section DirectScope.
Context {host : Host}.

(** One direct fetch, seen from scope [k]: either it belongs to another
    scope or throws and leaves the set of [k] alone, or it returns a batch of
    ids new to the set and records them. *)
Lemma fetchYouTubeDirect_scope env now sm q_ pt opts net k :
  let r := fetchYouTubeDirect env now sm q_ pt opts net in
  (toLowerCase q_ ≠ k → seenOf r.2 k = seenOf sm k) ∧
  seenOf sm k ⊆ seenOf r.2 k ∧
  (toLowerCase q_ = k → ∀ v vid, v ∈ batchOf r.1 → videoId v = Some vid →
     (vid ∉ seenOf sm k) ∧ vid ∈ seenOf r.2 k).
Proof.
  unfold fetchYouTubeDirect.
  assert (∀ m, let r : Result SearchResponse * gmap string (gset string) := (Throw m, sm) in
    (toLowerCase q_ ≠ k → seenOf r.2 k = seenOf sm k) ∧ seenOf sm k ⊆ seenOf r.2 k ∧
    (toLowerCase q_ = k → ∀ v vid, v ∈ batchOf r.1 → videoId v = Some vid →
       (vid ∉ seenOf sm k) ∧ vid ∈ seenOf r.2 k)) as Hthrow.
  { intros m. simpl. split; [done|]. split; [done|]. intros _ v vid Hv. by apply elem_of_nil in Hv. }
  case_decide; [apply Hthrow|].
  destruct (getDefaultDateWindow now) as [def|m]; [|apply Hthrow].
  destruct (num_ge _ _); [apply Hthrow|].
  destruct net as [m|u]; [apply Hthrow|].
  unfold directResponse.
  pose proof (uniqueItems_spec (default ∅ (sm !! toLowerCase q_))
    (List.filter validItem (map (toVideoItem (Map_of YT.id (up_details u)))
       (prioritizedItems (client_byDate opts) (Map_of YT.id (up_details u))
          (Map_of YT.ch_id (up_channels u))
          (filteredItems (getMaxAllowedAge (REACT_APP_MAX_ALLOWED_AGE env))
             (Map_of YT.id (up_details u)) (up_items u)))))) as [Hsub Hids].
  destruct (uniqueItems _ _) as [unique seen']. simpl in *.
  unfold seenOf. split; [|split].
  - intros Hne. by rewrite lookup_insert_ne.
  - destruct (decide (toLowerCase q_ = k)) as [<-|Hne].
    + by rewrite lookup_insert_eq.
    + by rewrite lookup_insert_ne.
  - intros <-. rewrite lookup_insert_eq. simpl. exact Hids.
Qed.

Lemma directRun_chain env calls sm k :
  fresh_chain (seenOf sm k) (batchesOfScope k (directRun env calls sm).1)
              (seenOf (directRun env calls sm).2 k).
Proof.
  revert sm. induction calls as [|c rest IH]; intros sm; simpl.
  - by constructor.
  - pose proof (fetchYouTubeDirect_scope env (dc_now c) sm (dc_q c) (dc_pageToken c)
                  (dc_opts c) (dc_net c) k) as (Hother & Hsub & Hmine).
    destruct (fetchYouTubeDirect _ _ _ _ _ _ _) as [r sm1]. simpl in *.
    specialize (IH sm1).
    destruct (directRun env rest sm1) as [bs sm2]. simpl in *.
    unfold batchesOfScope in *. simpl.
    case_bool_decide as Hk; simpl.
    + apply fresh_chain_cons with (seenOf sm1 k); [by apply Hmine|done|done].
    + by apply fresh_chain_weaken with (seenOf sm1 k).
Qed.

End DirectScope.

(** *** The global scope of the orchestrator *)

Lemma isNewItem_spec seen v :
  isNewItem seen v = true → ∃ vid, videoId v = Some vid ∧ vid ∉ seen.
Proof.
  unfold isNewItem. destruct (videoId v) as [vid|]; [|done].
  intros [_ Hn]%andb_true_iff. exists vid. split; [done|].
  apply negb_true_iff in Hn. by apply bool_decide_eq_false in Hn.
Qed.

Lemma addIds_spec seen its vid :
  vid ∈ addIds seen its ↔ vid ∈ seen ∨ ∃ v, v ∈ its ∧ videoId v = Some vid.
Proof.
  unfold addIds. revert seen. induction its as [|w its IH]; intros seen; simpl.
  - split; [auto|]. intros [?|(v & Hv & _)]; [done|]. by apply elem_of_nil in Hv.
  - rewrite IH. split.
    + intros [Hin|(v & Hv & Hid)].
      * destruct (videoId w) as [wid|] eqn:Hw; [|auto].
        apply elem_of_union in Hin as [->%elem_of_singleton|?]; [|auto].
        right. exists w. split; [left|done].
      * right. exists v. split; [by right|done].
    + intros [Hin|(v & [->|Hv]%elem_of_cons & Hid)].
      * left. destruct (videoId w); set_solver.
      * left. rewrite Hid. set_solver.
      * right. eauto.
Qed.

Section GlobalScope.
Context {host : Host}.

Lemma windowLoop_new fetch clock oldest seen kw remaining attempts counter counters its counters' :
  windowLoop fetch clock oldest seen kw remaining attempts counter counters = (Ok its, counters') →
  ∀ v, v ∈ its → isNewItem seen v = true.
Proof.
  revert attempts counter counters.
  induction remaining as [|n IH]; intros attempts counter counters; simpl.
  - intros [= <- _] v Hv. by apply elem_of_nil in Hv.
  - destruct (computeNextMonthWindow _ _ _) as [[after before]|m]; [|done].
    destruct (fetch _ _ _) as [resp|m]; [|done].
    destruct (0 <? _).
    + intros [= <- _] v Hv. by apply elem_of_List_filter in Hv as [_ ?].
    + apply IH.
Qed.

Lemma fetchNextMonthWindowGlobal_spec keywords fetch clock st its st' :
  fetchNextMonthWindowGlobal keywords fetch clock st = (Ok its, st') →
  globalDisplayedIds st' = globalDisplayedIds st ∧
  ∀ v, v ∈ its → isNewItem (globalDisplayedIds st) v = true.
Proof.
  unfold fetchNextMonthWindowGlobal.
  destruct (keywords !! _) as [kw|]; [|done].
  destruct (windowLoop _ _ _ _ _ _ _ _ _) as [r counters] eqn:Hloop.
  intros [= -> <-]. split; [done|]. by eapply windowLoop_new.
Qed.

Lemma fetchNextMonthWindowGlobal_ids keywords fetch clock st :
  globalDisplayedIds (fetchNextMonthWindowGlobal keywords fetch clock st).2 = globalDisplayedIds st.
Proof.
  unfold fetchNextMonthWindowGlobal.
  destruct (keywords !! _) as [kw|]; [|done].
  by destruct (windowLoop _ _ _ _ _ _ _ _ _).
Qed.

Lemma loadMoreForAny_scope fetch clock st :
  let r := loadMoreForAny fetch clock st in
  globalDisplayedIds st ⊆ globalDisplayedIds r.2 ∧
  ∀ v vid, v ∈ default [] r.1 → videoId v = Some vid →
    (vid ∉ globalDisplayedIds st) ∧ vid ∈ globalDisplayedIds r.2.
Proof.
  unfold loadMoreForAny.
  destruct (loadingMoreRef st).
  { simpl. split; [done|]. intros v vid Hv. by apply elem_of_nil in Hv. }
  pose proof (fetchNextMonthWindowGlobal_ids AI_KEYWORDS fetch clock (set_loadingMoreRef st true))
    as Hids.
  destruct (fetchNextMonthWindowGlobal _ _ _ _) as [[its|m] st1] eqn:Hf; simpl in *.
  - apply fetchNextMonthWindowGlobal_spec in Hf as [_ Hnew]. simpl in Hnew.
    destruct (0 <? _); simpl.
    + split.
      * intros x Hx. apply addIds_spec. left. by rewrite Hids.
      * intros v vid Hv Hid. split.
        -- apply Hnew, isNewItem_spec in Hv as (vid' & Hid' & Hnot). congruence.
        -- apply addIds_spec. right. eauto.
    + split; [by rewrite Hids|]. intros v vid Hv. by apply elem_of_nil in Hv.
  - split; [by rewrite Hids|]. intros v vid Hv. by apply elem_of_nil in Hv.
Qed.

Lemma loadMoreRun_chain loads st :
  fresh_chain (globalDisplayedIds st) (loadMoreRun loads st).1
              (globalDisplayedIds (loadMoreRun loads st).2).
Proof.
  revert st. induction loads as [|[fetch clock] rest IH]; intros st; simpl.
  - by constructor.
  - pose proof (loadMoreForAny_scope fetch clock st) as [Hsub Hnew].
    destruct (loadMoreForAny fetch clock st) as [b st1]. simpl in *.
    specialize (IH st1). destruct (loadMoreRun rest st1) as [bs st2]. simpl in *.
    by apply fresh_chain_cons with (globalDisplayedIds st1).
Qed.

End GlobalScope.

(** *** The per-query scope under [fetchSearch] *)

Section ModuleScope.
Context {host : Host}.

Lemma serve_seenMap req st : seenMap (serve req st).2 = seenMap st.
Proof.
  unfold serve. destruct (searchCache st !! req_key req); [done|].
  unfold sessionLookup. destruct (sessionStorage st) as [storage|] eqn:Hs; simpl.
  - destruct (storage !! req_key req) as [[at_ data]|]; simpl.
    + destruct (_ <? _); simpl; [done|].
      by destruct (inFlightSearch st !! req_key req).
    + by destruct (inFlightSearch st !! req_key req).
  - by destruct (inFlightSearch st !! req_key req).
Qed.

Lemma settle_seenMap env now p arr st req :
  running st !! p = Some req →
  seenMap (settle env now p arr st).2
  = match req_mode req with
    | ModeYt => (fetchYouTubeDirect env (req_at req) (seenMap st) (req_q req)
                   (req_pageToken req) (Some (req_opts req)) (from_youtube arr)).2
    | ModeProxy => seenMap st
    end.
Proof.
  intros Hp. unfold settle. rewrite Hp. destruct (req_mode req).
  - destruct (fetchYouTubeDirect _ _ _ _ _ _ _) as [[r|m] seen']; simpl; [|done].
    by destruct (quota_ok arr).
  - destruct (from_proxy arr); simpl; [done|]. by destruct (quota_ok arr).
Qed.

Lemma step_settle_state env now p arr st :
  (step env (EvSettle now p arr) st).2 = (settle env now p arr st).2.
Proof. simpl. by destruct (settle env now p arr st). Qed.

Lemma step_call_state env now q_ pt opts st :
  (step env (EvCall now q_ pt opts) st).2 = (fetchSearch env now q_ pt opts st).2.
Proof. simpl. by destruct (fetchSearch env now q_ pt opts st). Qed.

(** A call of [fetchSearch] never touches a seen set; the completion of an
    upstream operation on the direct path hands over a batch of ids new to
    its scope and records them; nothing else changes a seen set. *)
Lemma step_scope env ev st k :
  fresh_chain (seenOf (seenMap st) k)
    (batchesOfScope k (directBatchOf env ev st))
    (seenOf (seenMap (step env ev st).2) k).
Proof.
  destruct ev as [now q_ pt opts|now p arr].
  - rewrite step_call_state. simpl. constructor. unfold fetchSearch.
    destruct (prepare env now q_ pt opts) as [req|m]; simpl; [|done].
    by rewrite serve_seenMap.
  - rewrite step_settle_state. unfold directBatchOf.
    destruct (running st !! p) as [req|] eqn:Hp.
    + rewrite (settle_seenMap env now p arr st req Hp).
      destruct (req_mode req); [|by constructor].
      pose proof (fetchYouTubeDirect_scope env (req_at req) (seenMap st) (req_q req)
                    (req_pageToken req) (Some (req_opts req)) (from_youtube arr) k)
        as (Hother & Hsub & Hmine).
      destruct (fetchYouTubeDirect _ _ _ _ _ _ _) as [r seen']. simpl in *.
      unfold batchesOfScope. simpl. case_bool_decide as Hk; simpl.
      * apply fresh_chain_cons with (seenOf seen' k); [by apply Hmine|done|by constructor].
      * by constructor.
    + unfold settle. rewrite Hp. by constructor.
Qed.

Lemma fresh_chain_app s1 s2 s3 bs1 bs2 :
  fresh_chain s1 bs1 s2 → fresh_chain s2 bs2 s3 → fresh_chain s1 (bs1 ++ bs2) s3.
Proof.
  induction 1 as [s s' Hs|s sm s' b bs Hb Hs Hc IH]; intros H2; simpl.
  - by apply fresh_chain_weaken with s'.
  - apply fresh_chain_cons with sm; auto.
Qed.

Lemma batchesOfScope_app k l1 l2 :
  batchesOfScope k (l1 ++ l2) = batchesOfScope k l1 ++ batchesOfScope k l2.
Proof. unfold batchesOfScope. by rewrite List.filter_app, map_app. Qed.

Lemma run_scope env evs st k :
  fresh_chain (seenOf (seenMap st) k)
    (batchesOfScope k (directBatches env evs st))
    (seenOf (seenMap (run env evs st).2) k).
Proof.
  revert st. induction evs as [|ev evs IH]; intros st; simpl.
  - by constructor.
  - rewrite batchesOfScope_app.
    pose proof (step_scope env ev st k) as H1. specialize (IH (step env ev st).2).
    destruct (step env ev st) as [o st1]. simpl in *.
    destruct (run env evs st1) as [os st2]. simpl in *.
    by apply fresh_chain_app with (seenOf (seenMap st1) k).
Qed.

End ModuleScope.

(** C2. Dedup: along any sequence of direct fetches, the batches returned
    for one normalised query text share no video id, bring only ids the
    scope had not seen, and the seen set of every scope only grows; the
    same holds of the batches the direct fetch hands over under
    [fetchSearch], whatever the calls and completions of the session
    (calls answered from a cache reach no seen set); and along any sequence
    of incremental loads it holds of the batches and of the global seen
    set. *)
Theorem dedup_scopes {host : Host} (env : ClientEnv) (calls : list DirectCall)
    (seenMap0 : gmap string (gset string))
    (evs : list Event) (store : Store)
    (loads : list (Fetcher * (nat → Z))) (st : AppState) :
  (∀ scope,
     let batches := batchesOfScope scope (directRun env calls seenMap0).1 in
     let seen' := seenOf (directRun env calls seenMap0).2 scope in
     batches_disjoint batches ∧
     seenOf seenMap0 scope ⊆ seen' ∧
     ∀ b v vid, b ∈ batches → v ∈ b → videoId v = Some vid →
                (vid ∉ seenOf seenMap0 scope) ∧ vid ∈ seen') ∧
  (∀ scope,
     let batches := batchesOfScope scope (directBatches env evs store) in
     let seen' := seenOf (seenMap (run env evs store).2) scope in
     batches_disjoint batches ∧
     seenOf (seenMap store) scope ⊆ seen' ∧
     ∀ b v vid, b ∈ batches → v ∈ b → videoId v = Some vid →
                (vid ∉ seenOf (seenMap store) scope) ∧ vid ∈ seen') ∧
  (let batches := (loadMoreRun loads st).1 in
   let seen' := globalDisplayedIds (loadMoreRun loads st).2 in
   batches_disjoint batches ∧
   globalDisplayedIds st ⊆ seen' ∧
   ∀ b v vid, b ∈ batches → v ∈ b → videoId v = Some vid →
              (vid ∉ globalDisplayedIds st) ∧ vid ∈ seen').
Proof.
  split; [|split].
  - intros scope. pose proof (directRun_chain env calls seenMap0 scope) as Hc.
    split; [by eapply fresh_chain_disjoint|].
    split; [by eapply fresh_chain_subseteq|].
    intros b v vid. by eapply fresh_chain_ids.
  - intros scope. pose proof (run_scope env evs store scope) as Hc.
    split; [by eapply fresh_chain_disjoint|].
    split; [by eapply fresh_chain_subseteq|].
    intros b v vid. by eapply fresh_chain_ids.
  - pose proof (loadMoreRun_chain loads st) as Hc.
    split; [by eapply fresh_chain_disjoint|].
    split; [by eapply fresh_chain_subseteq|].
    intros b v vid. by eapply fresh_chain_ids.
Qed.

Example sample_direct_run :
  map (λ sb, (sb.1, idsOf sb.2)) (directRun (host := utc_host) sample_env sample_direct_calls ∅).1
  = [("ai music", ["v1"]); ("ai music", []); ("ai song", ["v1"])].
Proof. by vm_compute. Qed.

Lemma dedup_scopes_witness :
  batches_disjoint
    (batchesOfScope "ai music" (directRun (host := utc_host) sample_env sample_direct_calls ∅).1) ∧
  batches_disjoint
    (loadMoreRun (host := utc_host) [(fetch_third, λ _, feb_2026); (fetch_third, λ _, feb_2026)]
       loaded_app).1.
Proof.
  pose proof (dedup_scopes (host := utc_host) sample_env sample_direct_calls ∅
                [] (initialStore None)
                [(fetch_third, λ _, feb_2026); (fetch_third, λ _, feb_2026)] loaded_app)
    as (Hd & _ & Hg).
  split; [exact (proj1 (Hd "ai music")) | exact (proj1 Hg)].
Defined.


(** ** The civil calendar *)

Ltac zdiv := Z.div_mod_to_equations; lia.

(** The day of the (March-based) year lies in the year. *)
Lemma day_of_era_year doe :
  0 ≤ doe < 146097 →
  let yoe := (doe - doe / 1460 + doe / 36524 - doe / 146096) / 365 in
  let doy := doe - (365 * yoe + yoe / 4 - yoe / 100) in
  0 ≤ doy ≤ 365.
Proof. intros Hdoe yoe doy. subst yoe doy. zdiv. Qed.

Lemma civil_from_days_month z :
  1 ≤ (civil_from_days z).1.2 ≤ 12.
Proof.
  unfold civil_from_days. cbv zeta. simpl.
  set (z0 := z + 719468). set (era := z0 / 146097). set (doe := z0 - era * 146097).
  assert (0 ≤ doe < 146097) as Hdoe by (subst doe era; zdiv).
  pose proof (day_of_era_year doe Hdoe) as Hdoy. cbv zeta in Hdoy.
  set (yoe := (doe - doe / 1460 + doe / 36524 - doe / 146096) / 365) in *.
  set (doy := doe - (365 * yoe + yoe / 4 - yoe / 100)) in *.
  assert (0 ≤ (5 * doy + 2) / 153 ≤ 11) as Hmp by zdiv.
  destruct (Z.ltb_spec ((5 * doy + 2) / 153) 10); lia.
Qed.

(** The day number of the date a day number denotes is that number. *)
Lemma days_from_civil_from_days z :
  let '(y, m, d) := civil_from_days z in days_from_civil y m d = z.
Proof.
  unfold civil_from_days. cbv zeta.
  set (z0 := z + 719468). set (era := z0 / 146097). set (doe := z0 - era * 146097).
  assert (0 ≤ doe < 146097) as Hdoe by (subst doe era; zdiv).
  pose proof (day_of_era_year doe Hdoe) as Hdoy. cbv zeta in Hdoy.
  set (yoe := (doe - doe / 1460 + doe / 36524 - doe / 146096) / 365) in *.
  set (doy := doe - (365 * yoe + yoe / 4 - yoe / 100)) in *.
  assert (0 ≤ (5 * doy + 2) / 153 ≤ 11) as Hmp by zdiv.
  set (mp := (5 * doy + 2) / 153) in *.
  assert (z = era * 146097 + doe - 719468) as Hz by (subst doe z0; lia).
  unfold days_from_civil.
  destruct (Z.ltb_spec mp 10) as [Hlt|Hge].
  - destruct (Z.leb_spec (mp + 3) 2); [lia|].
    replace (mp + 3 - 3) with mp by lia.
    replace ((yoe + era * 400) / 4) with (yoe / 4 + era * 100) by zdiv.
    replace ((yoe + era * 400) / 100) with (yoe / 100 + era * 4) by zdiv.
    replace ((yoe + era * 400) / 400) with (yoe / 400 + era) by zdiv.
    assert (yoe / 400 = 0) by (subst yoe; zdiv).
    subst doy. lia.
  - destruct (Z.leb_spec (mp - 9) 2); [|lia].
    replace (mp - 9 + 9) with mp by lia.
    replace (yoe + era * 400 + 1 - 1) with (yoe + era * 400) by lia.
    replace ((yoe + era * 400) / 4) with (yoe / 4 + era * 100) by zdiv.
    replace ((yoe + era * 400) / 100) with (yoe / 100 + era * 4) by zdiv.
    replace ((yoe + era * 400) / 400) with (yoe / 400 + era) by zdiv.
    assert (yoe / 400 = 0) by (subst yoe; zdiv).
    subst doy. lia.
Qed.

(** A month has between 28 and 31 days. *)
Lemma month_start_step n :
  28 ≤ month_start (n + 1) - month_start n ≤ 31.
Proof.
  unfold month_start, days_from_civil.
  assert (0 ≤ n mod 12 < 12) as Hm by zdiv.
  assert (n mod 12 = 0 ∨ n mod 12 = 1 ∨ n mod 12 = 2 ∨ n mod 12 = 3 ∨ n mod 12 = 4 ∨
          n mod 12 = 5 ∨ n mod 12 = 6 ∨ n mod 12 = 7 ∨ n mod 12 = 8 ∨ n mod 12 = 9 ∨
          n mod 12 = 10 ∨ n mod 12 = 11) as Hcases by lia.
  assert ((n + 1) mod 12 = (if n mod 12 =? 11 then 0 else n mod 12 + 1)) as Hm1.
  { destruct (Z.eqb_spec (n mod 12) 11); zdiv. }
  assert ((n + 1) / 12 = (if n mod 12 =? 11 then n / 12 + 1 else n / 12)) as Hq1.
  { destruct (Z.eqb_spec (n mod 12) 11); zdiv. }
  rewrite Hm1, Hq1. clear Hm1 Hq1.
  set (y := n / 12).
  destruct Hcases as [H|[H|[H|[H|[H|[H|[H|[H|[H|[H|[H|H]]]]]]]]]]];
    rewrite H; simpl; zdiv.
Qed.

Lemma month_start_back n k :
  0 ≤ k → 28 * k ≤ month_start n - month_start (n - k) ≤ 31 * k.
Proof.
  intros Hk. revert n. pattern k. apply natlike_ind; [intros n|clear k Hk|done].
  - replace (n - 0) with n by lia. lia.
  - intros k Hk IH n. specialize (IH (n - 1)).
    pose proof (month_start_step (n - 1)) as Hstep.
    replace (n - 1 + 1) with n in Hstep by lia.
    replace (n - Z.succ k) with (n - 1 - k) by lia. lia.
Qed.

(** A time is the start of its month, plus its day of the month, plus its
    time within the day. *)
Lemma time_decompose t :
  t = MakeDate (month_start (month_index t) + DateFromTime t - 1) (TimeWithinDay t).
Proof.
  unfold MakeDate, month_start, month_index, YearFromTime, MonthFromTime, DateFromTime,
    TimeWithinDay.
  pose proof (civil_from_days_month (Day t)) as Hm.
  pose proof (days_from_civil_from_days (Day t)) as Hrt.
  destruct (civil_from_days (Day t)) as [[y m] d]. simpl in *.
  replace ((12 * y + (m - 1)) / 12) with y by zdiv.
  replace ((12 * y + (m - 1)) mod 12 + 1) with m by zdiv.
  assert (days_from_civil y m 1 + d - 1 = days_from_civil y m d) as ->
    by (unfold days_from_civil; lia).
  rewrite Hrt. unfold Day, msPerDay. zdiv.
Qed.

Lemma MakeDay_month_index t m date :
  MakeDay (YearFromTime t) m date
  = month_start (month_index t - (MonthFromTime t - m)) + date - 1.
Proof.
  unfold MakeDay, month_start, month_index.
  pose proof (civil_from_days_month (Day t)) as Hm.
  unfold YearFromTime, MonthFromTime.
  destruct (civil_from_days (Day t)) as [[y mo] d]. simpl in *.
  replace (12 * y + (mo - 1) - (mo - 1 - m)) with (12 * y + m) by lia.
  replace ((12 * y + m) / 12) with (y + m / 12) by zdiv.
  replace ((12 * y + m) mod 12) with (m mod 12) by zdiv.
  done.
Qed.

Lemma back_arith (t a b d w k : Z) :
  28 * k ≤ a - b ≤ 31 * k →
  t = MakeDate (a + d - 1) w →
  t - 31 * k * msPerDay ≤ MakeDate (b + d - 1) w ≤ t - 28 * k * msPerDay.
Proof. unfold MakeDate, msPerDay. lia. Qed.

(** Setting the month [k] months back, on local times: the result lies
    between 28 and 31 days per month before the time it starts from. *)
Lemma back_months_local t k :
  0 ≤ k →
  t - 31 * k * msPerDay
  ≤ MakeDate (MakeDay (YearFromTime t) (MonthFromTime t - k) (DateFromTime t)) (TimeWithinDay t)
  ≤ t - 28 * k * msPerDay.
Proof.
  intros Hk.
  rewrite MakeDay_month_index.
  replace (month_index t - (MonthFromTime t - (MonthFromTime t - k)))
    with (month_index t - k) by lia.
  apply (back_arith t (month_start (month_index t))).
  - exact (month_start_back (month_index t) k Hk).
  - exact (time_decompose t).
Qed.

(** ** Date windows *)

Lemma TimeClip_Some t u : TimeClip t = Some u → u = t ∧ - maxTime ≤ t ≤ maxTime.
Proof.
  unfold TimeClip. destruct (Z.leb_spec (- maxTime) t), (Z.leb_spec t maxTime); simpl;
    intros [= <-]; auto.
Qed.

Lemma TimeClip_in_range t : - maxTime ≤ t ≤ maxTime → TimeClip t = Some t.
Proof.
  intros [? ?]. unfold TimeClip.
  destruct (Z.leb_spec (- maxTime) t), (Z.leb_spec t maxTime); simpl; auto; lia.
Qed.

Lemma tz_arith (t tz1 tz2 l k : Z) :
  - msPerDay < tz1 < msPerDay → - msPerDay < tz2 < msPerDay →
  (t + tz1) - 31 * k * msPerDay ≤ l ≤ (t + tz1) - 28 * k * msPerDay →
  t - (31 * k + 2) * msPerDay < l - tz2 < t - (28 * k - 2) * msPerDay.
Proof. unfold msPerDay. lia. Qed.

Section WindowFacts.
Context {host : Host}.
Hypothesis Htz : tz_bounded host.

(** [d.setMonth(d.getMonth() - k)] moves a valid date back by between
    [28 k - 2] and [31 k + 2] days, or out of the range of [Date]. *)
Lemma setMonth_back_value t k :
  0 ≤ k →
  ∃ u, t - (31 * k + 2) * msPerDay < u < t - (28 * k - 2) * msPerDay ∧
       setMonth (Some t) (num_sub (getMonth (Some t)) (Some k)) = TimeClip u.
Proof.
  intros Hk. unfold setMonth, getMonth, num_sub. simpl.
  eexists. split; [|reflexivity].
  unfold UTC, LocalTime.
  apply (tz_arith t (LocalTZA t true)); [apply Htz | apply Htz |].
  by apply back_months_local.
Qed.

Lemma range_arith (ta u k : Z) :
  1 ≤ k → ta ≤ maxTime → - maxTime ≤ ta - (31 * k + 2) * msPerDay →
  ta - (31 * k + 2) * msPerDay < u < ta - (28 * k - 2) * msPerDay →
  - maxTime ≤ u ≤ maxTime ∧ u < ta.
Proof. unfold msPerDay, maxTime. lia. Qed.

Lemma getNextWindowByMonths_ok w k ta :
  instant (publishedAfter w) = Some ta →
  1 ≤ k →
  - maxTime ≤ ta - (31 * k + 2) * msPerDay →
  ∃ u, getNextWindowByMonths w k = Ok {| publishedAfter := Iso u; publishedBefore := Iso ta |} ∧
       publishedAfter w = Iso ta ∧
       TimeClip u = Some u ∧
       ta - (31 * k + 2) * msPerDay < u ∧ u < ta.
Proof.
  intros Ha Hk Hlow. unfold instant in Ha.
  assert (publishedAfter w = Iso ta ∧ - maxTime ≤ ta ≤ maxTime) as [Hw Hta].
  { destruct (publishedAfter w) as [|t]; [done|]. simpl in Ha.
    apply TimeClip_Some in Ha as [-> ?]. done. }
  unfold getNextWindowByMonths. rewrite Ha.
  destruct (setMonth_back_value ta k) as (u & Hu & ->); [lia|].
  destruct (range_arith ta u k Hk (proj2 Hta) Hlow Hu) as [Hr Hlt].
  exists u. rewrite (TimeClip_in_range u Hr). simpl.
  split; [done|]. split; [done|]. split; [done|]. lia.
Qed.

Lemma fuel_arith (ta u k : Z) (n : nat) :
  1 ≤ k →
  - maxTime ≤ ta - Z.of_nat (S n) * ((31 * k + 2) * msPerDay) →
  ta - (31 * k + 2) * msPerDay < u →
  - maxTime ≤ ta - (31 * k + 2) * msPerDay ∧
  - maxTime ≤ u - Z.of_nat n * ((31 * k + 2) * msPerDay).
Proof. unfold msPerDay, maxTime. nia. Qed.

(** As long as the dates stay in the range of [Date], [n] applications
    succeed and chain downwards. *)
Lemma nextWindows_chain n w k ta :
  instant (publishedAfter w) = Some ta →
  1 ≤ k →
  - maxTime ≤ ta - Z.of_nat n * ((31 * k + 2) * msPerDay) →
  ∃ ws, nextWindows n w k = Ok ws ∧ List.length ws = n ∧ chain_from ta ws.
Proof.
  revert w ta. induction n as [|n IH]; intros w ta Ha Hk Hlow.
  - by exists [].
  - destruct (fuel_arith ta ta k n Hk Hlow) as [Hlow1 _]; [unfold msPerDay; lia|].
    destruct (getNextWindowByMonths_ok w k ta Ha Hk Hlow1) as (u & Hw1 & Hw & Hu & Hgt & Hlt).
    destruct (fuel_arith ta u k n Hk Hlow Hgt) as [_ Hlow2].
    destruct (IH {| publishedAfter := Iso u; publishedBefore := Iso ta |} u) as (ws & Hws & Hlen & Hc);
      [done..|].
    exists ({| publishedAfter := Iso u; publishedBefore := Iso ta |} :: ws).
    cbn [nextWindows]. rewrite Hw1. cbn [Result_bind]. rewrite Hws. cbn [Result_bind].
    split; [done|]. split; [simpl; by rewrite Hlen|].
    exists u. simpl. auto.
Qed.

End WindowFacts.

Lemma chain_from_proper a ws :
  TimeClip a = Some a → chain_from a ws → Forall proper_window ws.
Proof.
  revert a. induction ws as [|w1 rest IH]; intros a Ha Hc; [constructor|].
  destruct Hc as (u & Hb & Hu & Hclip & Hlt & Hc).
  constructor; [|by eapply IH].
  exists u, a. unfold instant. rewrite Hu, Hb. simpl. auto.
Qed.

Lemma chain_from_below a ws (j : nat) w2 :
  TimeClip a = Some a → chain_from a ws → ws !! j = Some w2 →
  ∃ b2, instant (publishedBefore w2) = Some b2 ∧ b2 ≤ a.
Proof.
  revert a j. induction ws as [|w1 rest IH]; intros a j Ha Hc Hj; [done|].
  destruct Hc as (u & Hb & Hu & Hclip & Hlt & Hc).
  destruct j as [|j]; simpl in Hj.
  - injection Hj as <-. exists a. unfold instant. rewrite Hb. simpl. split; [done|lia].
  - destruct (IH u j Hclip Hc Hj) as (b2 & Hb2 & Hle). exists b2. split; [done|lia].
Qed.

Lemma chain_from_descending w a ws :
  publishedAfter w = Iso a → TimeClip a = Some a → chain_from a ws →
  abutting (w :: ws) ∧ strictly_descending (w :: ws).
Proof.
  revert w a. induction ws as [|w1 rest IH]; intros w a Hw Ha Hc.
  - split.
    + intros i x y Hi Hj. destruct i; done.
    + intros i j x y Hlt Hi Hj. destruct j; [lia|]. done.
  - pose proof Hc as (u & Hb & Hu & Hclip & Hlt & Hc').
    destruct (IH w1 u Hu Hclip Hc') as [Hab Hdesc].
    split.
    + intros i x y Hi Hj. destruct i as [|i]; simpl in *.
      * injection Hi as <-. injection Hj as <-. congruence.
      * by apply (Hab i).
    + intros i j x y Hij Hi Hj. destruct j as [|j]; [lia|]. simpl in Hj.
      destruct i as [|i]; simpl in Hi.
      * injection Hi as <-.
        destruct (chain_from_below a (w1 :: rest) j y Ha Hc Hj) as (b2 & Hb2 & Hle).
        exists a, b2. unfold instant. rewrite Hw. simpl. auto.
      * apply (Hdesc i j); [lia|done..].
Qed.

(** C5, as amended. Window monotonicity: from a window whose start is
    strictly before its end, with a step of at least one month, as many
    applications of [getNextWindowByMonths] as keep the dates within the
    range of [Date] all succeed, and the windows they produce are
    non-empty, each ends exactly where the one before starts, and each
    lies entirely at or before the start of every earlier one. A step moves
    the start back by less than [31 * monthsBack + 2] days, which gives the
    bound on the number of applications. The local time of the host is
    within a day of UTC. *)
Theorem next_windows_descend {host : Host} (w : DateWindow) (monthsBack : Z) (n : nat) :
  tz_bounded host →
  proper_window w →
  1 ≤ monthsBack →
  - maxTime ≤ startOf w - Z.of_nat n * ((31 * monthsBack + 2) * msPerDay) →
  window_monotonicity w monthsBack n.
Proof.
  intros Htz (ta & tb & Ha & _ & _) Hk Hlow.
  unfold startOf in Hlow. rewrite Ha in Hlow. simpl in Hlow.
  destruct (nextWindows_chain Htz n w monthsBack ta Ha Hk Hlow) as (ws & Hws & _ & Hc).
  assert (publishedAfter w = Iso ta ∧ TimeClip ta = Some ta) as [Hw Hclip].
  { unfold instant in Ha. destruct (publishedAfter w) as [|t]; [done|]. simpl in Ha.
    pose proof (TimeClip_Some _ _ Ha) as [-> _]. done. }
  exists ws. split; [done|]. split; [by eapply chain_from_proper|].
  by eapply chain_from_descending.
Qed.

Lemma utc_host_bounded : tz_bounded utc_host.
Proof. intros t b. simpl. unfold msPerDay. lia. Qed.

Example sample_window_next :
  nextWindows (host := utc_host) 2 sample_window 1
  = Ok [ {| publishedAfter := Iso 1764547200000; publishedBefore := Iso jan_2026 |};
         {| publishedAfter := Iso 1761955200000; publishedBefore := Iso 1764547200000 |} ].
Proof. by vm_compute. Qed.

Lemma next_windows_descend_witness :
  tz_bounded utc_host ∧
  proper_window sample_window ∧
  1 ≤ 1 ∧
  - maxTime ≤ startOf sample_window - Z.of_nat 24 * ((31 * 1 + 2) * msPerDay) ∧
  window_monotonicity (host := utc_host) sample_window 1 24.
Proof.
  assert (proper_window sample_window) as Hp.
  { exists jan_2026, feb_2026. split; [reflexivity|]. split; reflexivity. }
  assert (- maxTime ≤ startOf sample_window - Z.of_nat 24 * ((31 * 1 + 2) * msPerDay)) as Hlow
    by (vm_compute; discriminate).
  split; [exact utc_host_bounded|]. split; [exact Hp|].
  split; [lia|]. split; [exact Hlow|].
  apply (next_windows_descend sample_window 1 24 utc_host_bounded Hp); [lia | exact Hlow].
Defined.

(** C5, as stated, fails where the dates leave the range of [Date]: a step
    of four thousand million months from January 2026 makes [toISOString]
    throw, so no window is produced. *)
Lemma window_monotonicity_out_of_range :
  proper_window sample_window ∧ 1 ≤ 4000000000 ∧
  nextWindows (host := utc_host) 1 sample_window 4000000000 = Throw RangeError ∧
  ¬ window_monotonicity (host := utc_host) sample_window 4000000000 1.
Proof.
  assert (nextWindows (host := utc_host) 1 sample_window 4000000000 = Throw RangeError) as Hthrow
    by (by vm_compute).
  split; [|split; [lia|split; [exact Hthrow|]]].
  - exists jan_2026, feb_2026. split; [reflexivity|]. split; reflexivity.
  - intros (ws & Hws & _). rewrite Hthrow in Hws. discriminate.
Qed.

(** ** The proxy's date normalisation *)

Lemma proxy_arith (now a b : Z) :
  - maxTime ≤ now ≤ maxTime → - maxTime ≤ a ≤ maxTime → - maxTime ≤ b ≤ maxTime →
  (Z.min b now ≤ a → - maxTime ≤ Z.min b now - 1000) →
  - maxTime ≤ Z.min b now ≤ maxTime ∧
  (Z.min b now ≤ a → - maxTime ≤ Z.min b now - 1000 ≤ maxTime).
Proof. unfold maxTime. lia. Qed.

(** C7, as amended. Proxy normalisation of two parseable dates (the clock
    being a valid time): [publishedBefore] becomes the earlier of itself
    and now; [publishedAfter] is kept when it is strictly before that, and
    otherwise set to exactly one second before it; provided that instant is
    still in the range of [Date], the block does not throw and the window
    it yields has its start strictly before its end. *)
Theorem proxy_window_normalized (now : Z) (after before : DateString) (a b : Z) :
  - maxTime ≤ now ≤ maxTime →
  instant after = Some a →
  instant before = Some b →
  (Z.min b now ≤ a → - maxTime ≤ Z.min b now - 1000) →
  let b' := if now <? b then now else b in
  let a' := if b' <=? a then b' - 1000 else a in
  normalizeProxyWindow now (Some after) (Some before) = Ok (Some (Iso a'), Some (Iso b')) ∧
  a' < b' ∧
  proxy_window_repaired now after before.
Proof.
  intros Hnow Ha Hb Hlow b' a'.
  assert (- maxTime ≤ a ≤ maxTime) as Hra.
  { unfold instant in Ha. destruct after as [|t]; [done|]. simpl in Ha.
    by apply TimeClip_Some in Ha as [-> ?]. }
  assert (- maxTime ≤ b ≤ maxTime) as Hrb.
  { unfold instant in Hb. destruct before as [|t]; [done|]. simpl in Hb.
    by apply TimeClip_Some in Hb as [-> ?]. }
  destruct (proxy_arith now a b Hnow Hra Hrb Hlow) as [Hrb' Hrb1].
  assert (normalizeProxyWindow now (Some after) (Some before)
          = Ok (Some (Iso a'), Some (Iso b')) ∧ a' < b') as [Hn Hlt].
  { unfold normalizeProxyWindow, parseIso, Date_now. unfold instant in Ha, Hb.
    rewrite (TimeClip_in_range now Hnow). simpl.
    rewrite Ha, Hb. simpl. subst a' b'.
    destruct (Z.ltb_spec now b) as [Hnb|Hnb]; simpl.
    - replace (Z.min b now) with now in * by lia.
      destruct (Z.leb_spec now a) as [Hle|Hgt]; simpl.
      + rewrite (TimeClip_in_range (now - 1000)) by (apply Hrb1; lia). simpl. split; [done|lia].
      + split; [done|lia].
    - replace (Z.min b now) with b in * by lia.
      destruct (Z.leb_spec b a) as [Hle|Hgt]; simpl.
      + rewrite (TimeClip_in_range (b - 1000)) by (apply Hrb1; lia). simpl. split; [done|lia].
      + split; [done|lia]. }
  split; [done|]. split; [done|]. by exists a', b'.
Qed.

Example proxy_future_window :
  normalizeProxyWindow jan_2026 (Some (Iso 1893456000000)) (Some (Iso feb_2026))
  = Ok (Some (Iso (jan_2026 - 1000)), Some (Iso jan_2026)).
Proof. by vm_compute. Qed.

Lemma proxy_window_normalized_witness :
  - maxTime ≤ jan_2026 ≤ maxTime ∧
  instant (Iso 1893456000000) = Some 1893456000000 ∧
  instant (Iso feb_2026) = Some feb_2026 ∧
  (Z.min feb_2026 jan_2026 ≤ 1893456000000 → - maxTime ≤ Z.min feb_2026 jan_2026 - 1000) ∧
  proxy_window_repaired jan_2026 (Iso 1893456000000) (Iso feb_2026).
Proof.
  assert (- maxTime ≤ jan_2026 ≤ maxTime) as Hnow by (split; vm_compute; discriminate).
  assert (Z.min feb_2026 jan_2026 ≤ 1893456000000 → - maxTime ≤ Z.min feb_2026 jan_2026 - 1000)
    as Hlow by (intros _; vm_compute; discriminate).
  split; [exact Hnow|]. split; [reflexivity|]. split; [reflexivity|]. split; [exact Hlow|].
  exact (proj2 (proj2 (proxy_window_normalized jan_2026 (Iso 1893456000000)
    (Iso feb_2026) 1893456000000 feb_2026 Hnow eq_refl eq_refl Hlow))).
Defined.

(** C7, as stated, fails at the lower end of the range of [Date]: with both
    dates at the earliest instant, one second before [publishedBefore] is
    not a date, [toISOString] throws and the request ends in the handler's
    [catch]. *)
Lemma proxy_window_not_repaired :
  instant (Iso (- maxTime)) = Some (- maxTime) ∧
  normalizeProxyWindow jan_2026 (Some (Iso (- maxTime))) (Some (Iso (- maxTime)))
    = Throw RangeError ∧
  ¬ proxy_window_repaired jan_2026 (Iso (- maxTime)) (Iso (- maxTime)).
Proof.
  assert (normalizeProxyWindow jan_2026 (Some (Iso (- maxTime)))
            (Some (Iso (- maxTime))) = Throw RangeError) as Hthrow by (by vm_compute).
  split; [reflexivity|]. split; [exact Hthrow|].
  intros (a & b & Hn & _). rewrite Hthrow in Hn. discriminate.
Qed.


(** ** The cached search *)

(** *** Sanitising the query *)

Lemma trimStart_blank s : trimStart s = "" ↔ blank s = true.
Proof.
  induction s as [|c s IH]; simpl; [done|].
  destruct (isWhiteSpace c); simpl; [done|]. split; discriminate.
Qed.

Lemma trimStart_head s c r : trimStart s = String c r → isWhiteSpace c = false.
Proof.
  induction s as [|c' s IH]; simpl; [done|].
  destruct (isWhiteSpace c') eqn:E; [done|]. by intros [= <- _].
Qed.

Lemma trimEnd_blank s : trimEnd s = "" ↔ blank s = true.
Proof.
  induction s as [|c s IH]; simpl; [done|].
  destruct (trimEnd s) as [|c' r] eqn:E.
  - destruct (isWhiteSpace c); simpl.
    + split; [intros _; by apply IH | done].
    + split; discriminate.
  - split; [discriminate|]. intros [_ Hb]%andb_true_iff. apply IH in Hb. discriminate.
Qed.

Lemma trim_blank s : trim s = "" ↔ blank s = true.
Proof.
  unfold trim. rewrite trimEnd_blank. split.
  - intros Hb. destruct (trimStart s) as [|c r] eqn:E.
    + by apply trimStart_blank.
    + apply trimStart_head in E as Hc. simpl in Hb. by rewrite Hc in Hb.
  - intros Hb. apply trimStart_blank in Hb. by rewrite Hb.
Qed.

Lemma collapseSpaces_empty s : collapseSpaces s = "" ↔ s = "".
Proof.
  unfold collapseSpaces. destruct s as [|c s]; simpl; [done|].
  destruct (isWhiteSpace c); split; discriminate.
Qed.

(** The sanitised query is empty exactly for a query of white space. *)
Lemma sanitised_empty s : collapseSpaces (trim s) = "" ↔ blank s = true.
Proof. by rewrite collapseSpaces_empty, trim_blank. Qed.

Section SearchFacts.
Context {host : Host}.

Lemma prepare_blank env now q_ pt opts :
  blank q_ = true → prepare env now q_ pt opts = Throw EmptyQuery.
Proof.
  intros Hb. unfold prepare. apply sanitised_empty in Hb. by rewrite decide_True.
Qed.

Lemma normalizeSearchOptions_window now opts a b :
  normalizedWindow now opts = Ok (a, b) →
  normalizeSearchOptions now opts =
    if negb (num_lt (instant a) (instant b)) then Throw InvertedWindow
    else Ok (Opts.with_window (default Opts.empty opts) a b).
Proof.
  unfold normalizedWindow, normalizeSearchOptions.
  destruct (getDefaultDateWindow now) as [def|m]; simpl; [|done].
  by intros [= <- <-].
Qed.

Lemma prepare_inverted env now q_ pt opts a b :
  blank q_ = false →
  normalizedWindow now opts = Ok (a, b) →
  num_lt (instant a) (instant b) = false →
  prepare env now q_ pt opts = Throw InvertedWindow.
Proof.
  intros Hb Hw Hlt. unfold prepare.
  rewrite decide_False by (rewrite sanitised_empty; congruence).
  rewrite (normalizeSearchOptions_window now opts a b Hw), Hlt. done.
Qed.

Lemma serve_not_rejected req st m st' : serve req st ≠ (Rejected m, st').
Proof.
  unfold serve.
  destruct (searchCache st !! req_key req); [done|].
  destruct (sessionLookup _ _ _) as [[res|] st1]; [done|].
  destruct (inFlightSearch st1 !! req_key req); [done|].
  by destruct (start_request req st1).
Qed.

(** C6. Invalid queries: a call whose query is empty or white space only,
    or whose normalised window does not have its start strictly before its
    end, is rejected with an error and leaves the whole module state (both
    cache tiers, the pending operations, the seen sets, the record of
    upstream operations) exactly as it was: nothing was requested upstream
    and the window was not repaired. A rejected call never changes the
    state. *)
Theorem invalid_query_rejected (env : ClientEnv) (now : Z) (q_ : string)
    (pageToken : option string) (opts : option SearchOptions) (st : Store) :
  (blank q_ = true →
     fetchSearch env now q_ pageToken opts st = (Rejected EmptyQuery, st)) ∧
  (∀ a b, blank q_ = false →
     normalizedWindow now opts = Ok (a, b) →
     num_lt (instant a) (instant b) = false →
     fetchSearch env now q_ pageToken opts st = (Rejected InvertedWindow, st)) ∧
  (∀ m st', fetchSearch env now q_ pageToken opts st = (Rejected m, st') →
     st' = st ∧ upstreamLog st' = upstreamLog st).
Proof.
  split; [|split].
  - intros Hb. unfold fetchSearch. by rewrite prepare_blank.
  - intros a b Hb Hw Hlt. unfold fetchSearch. by rewrite (prepare_inverted env now q_ pageToken opts a b).
  - intros m st'. unfold fetchSearch.
    destruct (prepare env now q_ pageToken opts) as [req|m'].
    + intros Hs. by apply serve_not_rejected in Hs.
    + by intros [= _ <-].
Qed.

End SearchFacts.

Example blank_query_rejected :
  fetchSearch (host := utc_host) sample_env jan_2026 "  	 " None None (initialStore None)
  = (Rejected EmptyQuery, initialStore None).
Proof. by vm_compute. Qed.

Example inverted_window_rejected :
  fetchSearch (host := utc_host) sample_env jan_2026 "ai music" None (Some inverted_options)
    (initialStore None)
  = (Rejected InvertedWindow, initialStore None).
Proof. by vm_compute. Qed.

Lemma invalid_query_rejected_witness :
  blank "   " = true ∧
  fetchSearch (host := utc_host) sample_env jan_2026 "   " None None (initialStore None)
  = (Rejected EmptyQuery, initialStore None).
Proof.
  split; [reflexivity|].
  exact (proj1 (invalid_query_rejected (host := utc_host) sample_env jan_2026 "   " None None
                  (initialStore None)) eq_refl).
Defined.

(** *** The state of the module stays well formed *)

Lemma session_entry_None st k now :
  session_entry st k = None → sessionLookup now k st = (None, st).
Proof.
  intros He. unfold sessionLookup. unfold session_entry in He.
  destruct (sessionStorage st) as [storage|]; [|done]. simpl in He. by rewrite He.
Qed.

(** What the second tier does, case by case. *)
Lemma sessionLookup_cases now k st :
  (sessionLookup now k st = (None, st) ∧ session_entry st k = None) ∨
  (∃ at_ data, session_entry st k = Some (at_, data) ∧ now - at_ < MAX_AGE_MS ∧
     sessionLookup now k st
     = (Some (mark_cached data), set_searchCache (insert k (mark_cached data)) st)) ∨
  (∃ at_ data, session_entry st k = Some (at_, data) ∧ MAX_AGE_MS ≤ now - at_ ∧
     sessionLookup now k st = (None, set_sessionStorage (delete k) st)).
Proof.
  unfold sessionLookup, session_entry.
  destruct (sessionStorage st) as [storage|]; simpl; [|by left].
  destruct (storage !! k) as [[at_ data]|] eqn:E; [|by left].
  right. destruct (Z.ltb_spec (now - at_) MAX_AGE_MS); [left|right]; exists at_, data; auto.
Qed.

Lemma session_entry_delete st k k' :
  session_entry (set_sessionStorage (delete k) st) k'
  = if decide (k = k') then None else session_entry st k'.
Proof.
  unfold session_entry, set_sessionStorage. simpl.
  destruct (sessionStorage st) as [storage|]; simpl; [|by case_decide].
  apply lookup_delete.
Qed.

Lemma initialStore_ok storage : store_ok (initialStore storage).
Proof. split; simpl; intros ? ?; by rewrite lookup_empty. Qed.

Lemma start_request_ok req st :
  store_ok st →
  inFlightSearch st !! req_key req = None →
  searchCache st !! req_key req = None →
  session_entry st (req_key req) = None →
  store_ok (start_request req st).2.
Proof.
  intros [Hfl Hrun] Hnone Hmem Hses. split; simpl.
  - intros k p. destruct (decide (req_key req = k)) as [<-|Hne].
    + rewrite lookup_insert_eq. intros [= <-]. rewrite lookup_insert_eq.
      split; [by exists req|]. done.
    + rewrite lookup_insert_ne by done. intros Hk.
      destruct (Hfl k p Hk) as [(req' & Hp & Hkey) Hmiss].
      split; [|done]. exists req'. split; [|done].
      rewrite lookup_insert_ne; [done|].
      destruct (Hrun p req' Hp) as [Hlt _]. lia.
  - intros p req'. destruct (decide (nextPromise st = p)) as [<-|Hne].
    + rewrite lookup_insert_eq. intros [= <-]. split; [lia|]. by rewrite lookup_insert_eq.
    + rewrite lookup_insert_ne by done. intros Hp.
      destruct (Hrun p req' Hp) as [Hlt Hk]. split; [lia|].
      rewrite lookup_insert_ne; [done|]. intros Heq. rewrite <- Heq in Hk. congruence.
Qed.

Lemma serve_ok req st : store_ok st → store_ok (serve req st).2.
Proof.
  intros Hok. unfold serve.
  destruct (searchCache st !! req_key req) as [c|] eqn:Hmem; [done|].
  destruct (sessionLookup_cases (req_at req) (req_key req) st)
    as [[-> Hses]|[(at_ & data & Hses & Hfresh & ->)|(at_ & data & Hses & Hstale & ->)]].
  - destruct (inFlightSearch st !! req_key req) as [p|] eqn:Hfl; [done|].
    pose proof (start_request_ok req st Hok Hfl Hmem Hses) as Hok'.
    by destruct (start_request req st).
  - simpl. destruct Hok as [Hfl Hrun]. split; simpl; [|done].
    intros k p Hk. destruct (Hfl k p Hk) as (Hreq & Hm & Hs).
    split; [done|]. split; [|done].
    rewrite lookup_insert_ne; [done|]. intros <-. congruence.
  - assert (store_ok (set_sessionStorage (delete (req_key req)) st)) as Hok1.
    { destruct Hok as [Hfl Hrun]. split; simpl; [|done].
      intros k p Hk. destruct (Hfl k p Hk) as (Hreq & Hm & Hs).
      split; [done|]. split; [done|].
      rewrite session_entry_delete. by case_decide. }
    simpl.
    destruct (inFlightSearch st !! req_key req) as [p|] eqn:Hfl; [done|].
    assert (session_entry (set_sessionStorage (delete (req_key req)) st) (req_key req) = None)
      as Hgone by (rewrite session_entry_delete; by rewrite decide_True).
    exact (start_request_ok req _ Hok1 Hfl Hmem Hgone).
Qed.

Lemma fetchSearch_ok {host : Host} env now q_ pt opts st :
  store_ok st → store_ok (fetchSearch env now q_ pt opts st).2.
Proof.
  intros Hok. unfold fetchSearch.
  destruct (prepare env now q_ pt opts) as [req|m]; [by apply serve_ok|done].
Qed.

(** The state [settle] leaves, in terms of the request of the promise. *)
Lemma settle_running {host : Host} env now p arr st req :
  running st !! p = Some req →
  ∃ v st1,
    settle env now p arr st = (Some v, finish_request p (req_key req) st1) ∧
    inFlightSearch st1 = inFlightSearch st ∧ running st1 = running st ∧
    nextPromise st1 = nextPromise st ∧ upstreamLog st1 = upstreamLog st ∧
    (∀ k, k ≠ req_key req → searchCache st1 !! k = searchCache st !! k ∧
                             session_entry st1 k = session_entry st k) ∧
    match v with
    | Ok r =>
        searchCache st1 !! req_key req = Some r ∧
        (quota_ok arr = true → is_Some (sessionStorage st1) →
         session_entry st1 (req_key req) = Some (now, r))
    | Throw _ =>
        searchCache st1 = searchCache st ∧ sessionStorage st1 = sessionStorage st
    end.
Proof.
  intros Hp. unfold settle. rewrite Hp.
  set (res := match req_mode req with
              | ModeYt => _
              | ModeProxy => _
              end).
  assert (∃ r st0, res = (r, st0) ∧ searchCache st0 = searchCache st ∧
            sessionStorage st0 = sessionStorage st ∧ inFlightSearch st0 = inFlightSearch st ∧
            running st0 = running st ∧ nextPromise st0 = nextPromise st ∧
            upstreamLog st0 = upstreamLog st) as (r & st0 & -> & Hc & Hs & Hf & Hr & Hn & Hl).
  { subst res. destruct (req_mode req).
    - destruct (fetchYouTubeDirect _ _ _ _ _ _ _) as [r seen']. by eexists _, _.
    - by eexists _, _. }
  destruct r as [r|m].
  - eexists _, _. split; [reflexivity|].
    destruct (quota_ok arr) eqn:Hq; simpl; rewrite ?Hf, ?Hr, ?Hn, ?Hl;
      (split; [done|]); (split; [done|]); (split; [done|]); (split; [done|]).
    + split.
      * intros k Hne. rewrite lookup_insert_ne by done. rewrite Hc. split; [done|].
        unfold session_entry. simpl. rewrite Hs.
        destruct (sessionStorage st); simpl; [|done]. by rewrite lookup_insert_ne.
      * split; [by rewrite lookup_insert_eq|]. intros _ [storage Hst].
        unfold session_entry. simpl in *. rewrite Hs in *.
        destruct (sessionStorage st); simpl in *; [|done]. by rewrite lookup_insert_eq.
    + split.
      * intros k Hne. rewrite lookup_insert_ne by done. rewrite Hc. split; [done|].
        unfold session_entry. simpl. by rewrite Hs.
      * split; [by rewrite lookup_insert_eq|]. done.
  - exists (Throw m), st0. split; [reflexivity|].
    split; [done|]. split; [done|]. split; [done|]. split; [done|]. split; [|done].
    intros k _. rewrite Hc. unfold session_entry. by rewrite Hs.
Qed.

Lemma settle_idle {host : Host} env now p arr st :
  running st !! p = None → settle env now p arr st = (None, st).
Proof. intros Hp. unfold settle. by rewrite Hp. Qed.

Lemma settle_ok {host : Host} env now p arr st :
  store_ok st → store_ok (settle env now p arr st).2.
Proof.
  intros Hok. destruct (running st !! p) as [req|] eqn:Hp;
    [|by rewrite settle_idle].
  destruct (settle_running env now p arr st req Hp)
    as (v & st1 & -> & Hf & Hr & Hn & Hl & Hother & _).
  destruct Hok as [Hfl Hrun]. destruct (Hrun p req Hp) as [_ Hkp].
  split; simpl; rewrite ?Hf, ?Hr, ?Hn.
  - intros k p'. rewrite lookup_delete. case_decide as Hk; [done|]. intros Hk'.
    destruct (Hfl k p' Hk') as ((req' & Hp' & Hkey) & Hm & Hs).
    destruct (Hother k) as [Hc1 Hs1]; [congruence|].
    split; [|split; [by rewrite Hc1|by etrans; [exact Hs1|]]].
    exists req'. split; [|done]. rewrite lookup_delete_ne; [done|].
    intros <-. congruence.
  - intros p' req'. rewrite lookup_delete. case_decide as Hpp; [done|]. intros Hp'.
    destruct (Hrun p' req' Hp') as [Hlt Hk']. split; [done|].
    rewrite lookup_delete_ne; [done|]. intros Heq. rewrite Heq in Hkp. congruence.
Qed.

Lemma step_ok {host : Host} env ev st : store_ok st → store_ok (step env ev st).2.
Proof.
  intros Hok. destruct ev as [now q_ pt opts|now p arr]; simpl.
  - pose proof (fetchSearch_ok env now q_ pt opts st Hok) as H.
    by destruct (fetchSearch env now q_ pt opts st).
  - pose proof (settle_ok env now p arr st Hok) as H.
    by destruct (settle env now p arr st).
Qed.

Lemma run_ok {host : Host} env evs st : store_ok st → store_ok (run env evs st).2.
Proof.
  revert st. induction evs as [|ev evs IH]; intros st Hok; simpl; [done|].
  pose proof (step_ok env ev st Hok) as H1.
  destruct (step env ev st) as [o st1]. specialize (IH st1 H1).
  by destruct (run env evs st1).
Qed.

(** *** Calls while an operation is pending *)

Lemma requestsFor_snoc k log req :
  requestsFor k (log ++ [req])
  = requestsFor k log ++ (if bool_decide (req_key req = k) then [req] else []).
Proof. unfold requestsFor. by rewrite List.filter_app. Qed.

Lemma serve_pending req st p :
  store_ok st → inFlightSearch st !! req_key req = Some p → serve req st = (Pending p, st).
Proof.
  intros [Hfl _] Hp. destruct (Hfl _ _ Hp) as (_ & Hm & Hs).
  unfold serve. rewrite Hm, (session_entry_None _ _ _ Hs). by rewrite Hp.
Qed.

Lemma serve_cached req st c :
  searchCache st !! req_key req = Some c → serve req st = (Resolved (mark_cached c), st).
Proof. intros Hc. unfold serve. by rewrite Hc. Qed.

(** A call that finds its key neither cached nor in flight starts the one
    upstream operation and registers it. *)
Lemma serve_start req st p st1 :
  serve req st = (Pending p, st1) →
  inFlightSearch st !! req_key req = None →
  p = nextPromise st ∧
  inFlightSearch st1 !! req_key req = Some p ∧
  upstreamLog st1 = upstreamLog st ++ [req].
Proof.
  unfold serve.
  destruct (searchCache st !! req_key req) as [c|] eqn:Hmem; [done|].
  destruct (sessionLookup_cases (req_at req) (req_key req) st)
    as [[-> Hses]|[(at_ & data & Hses & Hfresh & ->)|(at_ & data & Hses & Hstale & ->)]];
    [|done|]; simpl; intros Hs Hnone; rewrite Hnone in Hs;
    injection Hs as <- <-; simpl; by rewrite lookup_insert_eq.
Qed.

(** A call with another key leaves the registration, the first cache tier
    and the recorded operations of [k] alone. *)
Lemma serve_other req st k :
  req_key req ≠ k →
  inFlightSearch (serve req st).2 !! k = inFlightSearch st !! k ∧
  searchCache (serve req st).2 !! k = searchCache st !! k ∧
  requestsFor k (upstreamLog (serve req st).2) = requestsFor k (upstreamLog st).
Proof.
  intros Hne. unfold serve.
  destruct (searchCache st !! req_key req) as [c|] eqn:Hmem; [done|].
  destruct (sessionLookup_cases (req_at req) (req_key req) st)
    as [[-> Hses]|[(at_ & data & Hses & Hfresh & ->)|(at_ & data & Hses & Hstale & ->)]].
  - destruct (inFlightSearch st !! req_key req) as [p|] eqn:Hfl; [done|]. simpl.
    rewrite lookup_insert_ne by done. rewrite requestsFor_snoc.
    rewrite bool_decide_eq_false_2 by done. by rewrite app_nil_r.
  - simpl. by rewrite lookup_insert_ne.
  - simpl. destruct (inFlightSearch st !! req_key req) as [p|] eqn:Hfl; [done|]. simpl.
    rewrite lookup_insert_ne by done. rewrite requestsFor_snoc.
    rewrite bool_decide_eq_false_2 by done. by rewrite app_nil_r.
Qed.

Section PendingFacts.
Context {host : Host}.

Lemma step_keeps_pending env ev st k p :
  store_ok st → inFlightSearch st !! k = Some p → not_settling p ev →
  inFlightSearch (step env ev st).2 !! k = Some p ∧
  requestsFor k (upstreamLog (step env ev st).2) = requestsFor k (upstreamLog st) ∧
  (keyOfCall env ev = Some k → (step env ev st).1 = OutReply (Pending p)).
Proof.
  intros Hok Hp Hns. destruct ev as [now q_ pt opts|now p' arr]; simpl.
  - unfold fetchSearch. destruct (prepare env now q_ pt opts) as [req|m]; simpl; [|done].
    destruct (decide (req_key req = k)) as [Hk|Hk].
    + rewrite serve_pending with (p := p) by (done || by rewrite Hk). simpl.
      split; [done|]. split; [done|]. done.
    + destruct (serve_other req st k Hk) as (Hf & _ & Hl).
      destruct (serve req st) as [r st']. simpl in *.
      split; [by rewrite Hf|]. split; [done|]. intros [= ?]. done.
  - simpl in Hns. destruct (running st !! p') as [req'|] eqn:Hp'.
    + destruct (settle_running env now p' arr st req' Hp')
        as (v & st1 & -> & Hf & Hr & Hn & Hl & _). simpl.
      rewrite Hf, Hl. split; [|done].
      rewrite lookup_delete_ne; [done|]. intros Heq.
      destruct Hok as [_ Hrun]. destruct (Hrun p' req' Hp') as [_ Hk']. congruence.
    + rewrite settle_idle by done. done.
Qed.

Lemma run_keeps_pending env evs st k p :
  store_ok st → inFlightSearch st !! k = Some p → Forall (not_settling p) evs →
  all_share env k p evs (run env evs st).1 ∧
  inFlightSearch (run env evs st).2 !! k = Some p ∧
  requestsFor k (upstreamLog (run env evs st).2) = requestsFor k (upstreamLog st).
Proof.
  revert st. induction evs as [|ev evs IH]; intros st Hok Hp Hns; simpl; [done|].
  apply Forall_cons in Hns as [Hn Hns].
  destruct (step_keeps_pending env ev st k p Hok Hp Hn) as (Hp1 & Hl1 & Ho).
  pose proof (step_ok env ev st Hok) as Hok1.
  destruct (step env ev st) as [o st1]. simpl in *.
  destruct (IH st1 Hok1 Hp1 Hns) as (Hall & Hp2 & Hl2).
  destruct (run env evs st1) as [os st2]. simpl in *.
  split; [done|]. split; [done|]. congruence.
Qed.

(** When the pending promise settles, its registration goes; after a
    failure both cache tiers still miss, so that the next call with the key
    starts a new upstream operation. *)
Lemma settle_releases env now p arr st k :
  store_ok st → inFlightSearch st !! k = Some p →
  ∃ v st', settle env now p arr st = (Some v, st') ∧
    store_ok st' ∧
    inFlightSearch st' !! k = None ∧
    upstreamLog st' = upstreamLog st ∧
    match v with
    | Ok r => searchCache st' !! k = Some r
    | Throw _ => searchCache st' !! k = None ∧ session_entry st' k = None
    end.
Proof.
  intros Hok Hp. pose proof Hok as [Hfl _].
  destruct (Hfl k p Hp) as ((req & Hreq & Hkey) & Hm & Hs).
  pose proof (settle_ok env now p arr st Hok) as Hok'.
  destruct (settle_running env now p arr st req Hreq)
    as (v & st1 & Heq & Hf & Hr & Hn & Hl & _ & Hv).
  rewrite Heq in Hok'. exists v, (finish_request p (req_key req) st1).
  split; [done|]. split; [done|]. simpl. rewrite Hkey.
  split; [by rewrite lookup_delete_eq|]. split; [done|].
  destruct v as [r|m].
  - rewrite Hkey in Hv. tauto.
  - destruct Hv as [Hc Hss]. rewrite Hc. split; [done|].
    unfold session_entry in *. simpl. by rewrite Hss.
Qed.

Lemma serve_fresh_start req st :
  searchCache st !! req_key req = None →
  session_entry st (req_key req) = None →
  inFlightSearch st !! req_key req = None →
  ∃ st', serve req st = (Pending (nextPromise st), st') ∧
         upstreamLog st' = upstreamLog st ++ [req].
Proof.
  intros Hm Hs Hf. unfold serve.
  rewrite Hm, (session_entry_None _ _ _ Hs), Hf. by eexists.
Qed.

(** C10. In-flight de-duplication: a call that finds its key neither cached
    nor in flight starts one upstream operation; from then until that
    operation completes, whatever else happens in the module (calls with
    any key, completions of other operations), every call with the same key
    is handed the same pending promise, hence the same payload, and no
    further upstream operation is recorded for the key; when the operation
    completes, with a response or with an error, the registration is gone;
    after an error the next call with the key starts a new upstream
    operation. *)
Theorem in_flight_shared (env : ClientEnv) (st0 st1 : Store)
    (now0 : Z) (q0 : string) (pt0 : option string) (opts0 : option SearchOptions)
    (req0 : Request) (p : nat) (evs : list Event) :
  store_ok st0 →
  prepare env now0 q0 pt0 opts0 = Ok req0 →
  inFlightSearch st0 !! req_key req0 = None →
  fetchSearch env now0 q0 pt0 opts0 st0 = (Pending p, st1) →
  Forall (not_settling p) evs →
  let k := req_key req0 in
  let outs := (run env evs st1).1 in
  let st2 := (run env evs st1).2 in
  all_share env k p evs outs ∧
  requestsFor k (upstreamLog st2) = requestsFor k (upstreamLog st0) ++ [req0] ∧
  inFlightSearch st2 !! k = Some p ∧
  ∀ now arr, ∃ v st3,
    settle env now p arr st2 = (Some v, st3) ∧
    inFlightSearch st3 !! k = None ∧
    requestsFor k (upstreamLog st3) = requestsFor k (upstreamLog st0) ++ [req0] ∧
    ∀ m, v = Throw m →
      ∀ now' q' pt' opts' req', prepare env now' q' pt' opts' = Ok req' → req_key req' = k →
        ∃ st4, fetchSearch env now' q' pt' opts' st3 = (Pending (nextPromise st3), st4) ∧
               upstreamLog st4 = upstreamLog st3 ++ [req'].
Proof.
  intros Hok0 Hprep Hnone Hcall Hns k outs st2.
  unfold fetchSearch in Hcall. rewrite Hprep in Hcall.
  pose proof (serve_ok req0 st0 Hok0) as Hok1. rewrite Hcall in Hok1. simpl in Hok1.
  destruct (serve_start req0 st0 p st1 Hcall Hnone) as (_ & Hp1 & Hlog1).
  destruct (run_keeps_pending env evs st1 k p Hok1 Hp1 Hns) as (Hall & Hp2 & Hlog2).
  pose proof (run_ok env evs st1 Hok1) as Hok2.
  fold outs in Hall. fold st2 in Hp2, Hlog2, Hok2.
  assert (requestsFor k (upstreamLog st1) = requestsFor k (upstreamLog st0) ++ [req0]) as Hone.
  { rewrite Hlog1, requestsFor_snoc. by rewrite bool_decide_eq_true_2. }
  split; [done|]. split; [congruence|]. split; [done|].
  intros now arr.
  destruct (settle_releases env now p arr st2 k Hok2 Hp2) as (v & st3 & Hset & Hok3 & Hgone & Hlog3 & Hv).
  exists v, st3. split; [done|]. split; [done|]. split; [congruence|].
  intros m -> now' q' pt' opts' req' Hprep' Hkey'. destruct Hv as [Hm Hs].
  unfold fetchSearch. rewrite Hprep'. apply serve_fresh_start; by rewrite Hkey'.
Qed.

End PendingFacts.

(** *** Calls after a response is cached *)

Lemma serve_Resolved req st r st1 :
  serve req st = (Resolved r, st1) →
  ∃ c, searchCache st1 !! req_key req = Some c ∧ items c = items r ∧ cached r = Some true.
Proof.
  unfold serve.
  destruct (searchCache st !! req_key req) as [c|] eqn:Hmem.
  { intros [= <- <-]. by exists c. }
  destruct (sessionLookup_cases (req_at req) (req_key req) st)
    as [[-> Hses]|[(at_ & data & Hses & Hfresh & ->)|(at_ & data & Hses & Hstale & ->)]].
  - destruct (inFlightSearch st !! req_key req); [done|]. by destruct (start_request req st).
  - intros [= <- <-]. exists (mark_cached data). simpl. by rewrite lookup_insert_eq.
  - simpl. by destruct (inFlightSearch st !! req_key req).
Qed.

Lemma serve_Pending_registered req st p st1 :
  serve req st = (Pending p, st1) → inFlightSearch st1 !! req_key req = Some p.
Proof.
  unfold serve.
  destruct (searchCache st !! req_key req) as [c|] eqn:Hmem; [done|].
  destruct (sessionLookup_cases (req_at req) (req_key req) st)
    as [[-> Hses]|[(at_ & data & Hses & Hfresh & ->)|(at_ & data & Hses & Hstale & ->)]];
    [|done|]; simpl.
  - destruct (inFlightSearch st !! req_key req) as [p'|] eqn:Hfl.
    + by intros [= <- <-].
    + intros [= <- <-]. simpl. by rewrite lookup_insert_eq.
  - destruct (inFlightSearch st !! req_key req) as [p'|] eqn:Hfl.
    + by intros [= <- <-].
    + intros [= <- <-]. simpl. by rewrite lookup_insert_eq.
Qed.

Section CachedFacts.
Context {host : Host}.

(** Once a response is in the first cache tier it stays there, whatever
    happens in the module, and nothing more is requested for its key. *)
Lemma step_keeps_cached env ev st k c :
  store_ok st → searchCache st !! k = Some c →
  searchCache (step env ev st).2 !! k = Some c ∧
  requestsFor k (upstreamLog (step env ev st).2) = requestsFor k (upstreamLog st).
Proof.
  intros Hok Hc. destruct ev as [now q_ pt opts|now p arr]; simpl.
  - unfold fetchSearch. destruct (prepare env now q_ pt opts) as [req|m]; simpl; [|done].
    destruct (decide (req_key req = k)) as [Hk|Hk].
    + rewrite (serve_cached req st c) by (by rewrite Hk). done.
    + destruct (serve_other req st k Hk) as (_ & Hm & Hl).
      destruct (serve req st) as [r st']. simpl in *. by rewrite Hm.
  - destruct (running st !! p) as [req|] eqn:Hp.
    + destruct (settle_running env now p arr st req Hp)
        as (v & st1 & -> & Hf & Hr & Hn & Hl & Hother & _). simpl.
      rewrite Hl. split; [|done].
      destruct (Hother k) as [Hck _]; [|by rewrite Hck].
      intros ->. destruct Hok as [Hfl Hrun]. destruct (Hrun p req Hp) as [_ Hk].
      destruct (Hfl _ _ Hk) as (_ & Hmiss & _). congruence.
    + rewrite settle_idle by done. done.
Qed.

Lemma run_keeps_cached env evs st k c :
  store_ok st → searchCache st !! k = Some c →
  searchCache (run env evs st).2 !! k = Some c ∧
  requestsFor k (upstreamLog (run env evs st).2) = requestsFor k (upstreamLog st).
Proof.
  revert st. induction evs as [|ev evs IH]; intros st Hok Hc; simpl; [done|].
  destruct (step_keeps_cached env ev st k c Hok Hc) as [Hc1 Hl1].
  pose proof (step_ok env ev st Hok) as Hok1.
  destruct (step env ev st) as [o st1]. simpl in *.
  destruct (IH st1 Hok1 Hc1) as [Hc2 Hl2].
  destruct (run env evs st1) as [os st2]. simpl in *. split; [done|congruence].
Qed.

Lemma cached_call env now q_ pt opts req st c :
  prepare env now q_ pt opts = Ok req → searchCache st !! req_key req = Some c →
  fetchSearch env now q_ pt opts st = (Resolved (mark_cached c), st).
Proof. intros Hp Hc. unfold fetchSearch. rewrite Hp. by apply serve_cached. Qed.

(** C3. Cache hit: of two calls with the same cache key, the second made
    after the first has its response, the second is answered at once with
    a response marked [cached = true] that has the items of the first
    response, and it changes nothing in the module: no upstream
    operation is started. The first response may come straight from a
    cache tier or from the upstream operation the first call waited for;
    anything may happen in the module in between. While the page is not
    reloaded this holds whatever time has passed; after a reload it holds
    for a second call less than fifteen minutes after the response was
    stored, session storage having taken the entry. *)
Theorem second_call_cached (env : ClientEnv) (st0 : Store)
    (now1 : Z) (q1 : string) (pt1 : option string) (opts1 : option SearchOptions)
    (now2 : Z) (q2 : string) (pt2 : option string) (opts2 : option SearchOptions)
    (req1 req2 : Request) :
  store_ok st0 →
  prepare env now1 q1 pt1 opts1 = Ok req1 →
  prepare env now2 q2 pt2 opts2 = Ok req2 →
  req_key req1 = req_key req2 →
  (∀ r1 st1 evs,
     fetchSearch env now1 q1 pt1 opts1 st0 = (Resolved r1, st1) →
     let st2 := (run env evs st1).2 in
     ∃ r2, fetchSearch env now2 q2 pt2 opts2 st2 = (Resolved r2, st2) ∧
           cached r2 = Some true ∧ items r2 = items r1) ∧
  (∀ p st1 between now' arr r1 st2 evs,
     fetchSearch env now1 q1 pt1 opts1 st0 = (Pending p, st1) →
     Forall (not_settling p) between →
     settle env now' p arr (run env between st1).2 = (Some (Ok r1), st2) →
     (let st3 := (run env evs st2).2 in
      ∃ r2, fetchSearch env now2 q2 pt2 opts2 st3 = (Resolved r2, st3) ∧
            cached r2 = Some true ∧ items r2 = items r1) ∧
     (quota_ok arr = true → is_Some (sessionStorage st2) → now2 - now' < MAX_AGE_MS →
      ∃ r2 st3, fetchSearch env now2 q2 pt2 opts2 (reload st2) = (Resolved r2, st3) ∧
                cached r2 = Some true ∧ items r2 = items r1 ∧ upstreamLog st3 = [])).
Proof.
  intros Hok0 Hp1 Hp2 Hkey. split.
  - intros r1 st1 evs Hcall st2.
    unfold fetchSearch in Hcall. rewrite Hp1 in Hcall.
    pose proof (serve_ok req1 st0 Hok0) as Hok1. rewrite Hcall in Hok1. simpl in Hok1.
    destruct (serve_Resolved _ _ _ _ Hcall) as (c & Hc & Hitems & _).
    destruct (run_keeps_cached env evs st1 _ c Hok1 Hc) as [Hc2 _]. fold st2 in Hc2.
    exists (mark_cached c). rewrite Hkey in Hc2.
    split; [by apply cached_call with req2|]. done.
  - intros p st1 between now' arr r1 st2 evs Hcall Hns Hset.
    unfold fetchSearch in Hcall. rewrite Hp1 in Hcall.
    pose proof (serve_ok req1 st0 Hok0) as Hok1. rewrite Hcall in Hok1. simpl in Hok1.
    pose proof (serve_Pending_registered _ _ _ _ Hcall) as Hreg.
    destruct (run_keeps_pending env between st1 _ p Hok1 Hreg Hns) as (_ & Hreg' & _).
    pose proof (run_ok env between st1 Hok1) as Hok1'.
    set (st1' := (run env between st1).2) in *.
    pose proof Hok1' as [Hfl _].
    destruct (Hfl _ _ Hreg') as ((req & Hreq & Hreqkey) & _ & _).
    destruct (settle_running env now' p arr st1' req Hreq)
      as (v & stm & Heq & _ & _ & _ & _ & _ & Hv).
    rewrite Heq in Hset. injection Hset as -> <-.
    pose proof (settle_ok env now' p arr st1' Hok1') as Hok2. rewrite Heq in Hok2. simpl in Hok2.
    destruct Hv as [Hc Hsess]. rewrite Hreqkey in Hc, Hsess. split.
    + intros st3.
      destruct (run_keeps_cached env evs (finish_request p (req_key req) stm) _ r1 Hok2 Hc)
        as [Hc3 _].
      fold st3 in Hc3. exists (mark_cached r1). rewrite Hkey in Hc3.
      split; [by apply cached_call with req2|]. done.
    + intros Hq Hst Hfresh. simpl in Hst.
      specialize (Hsess Hq Hst).
      unfold fetchSearch. rewrite Hp2. unfold serve, reload. simpl. rewrite lookup_empty.
      unfold sessionLookup. simpl. unfold session_entry in Hsess. simpl in Hsess.
      destruct (sessionStorage stm) as [storage|]; simpl in *; [|done].
      rewrite <- Hkey, Hsess.
      destruct (Z.ltb_spec (req_at req2 - now') MAX_AGE_MS) as [_|Hge].
      * eexists _, _. split; [reflexivity|]. done.
      * assert (req_at req2 = now2) as Hat; [|lia].
        clear -Hp2. unfold prepare in Hp2. case_decide; [done|].
        destruct (normalizeSearchOptions now2 opts2); simpl in Hp2; [|done].
        by injection Hp2 as <-.
Qed.

End CachedFacts.

Example sample_prepare :
  prepare (host := utc_host) sample_env jan_2026 "ai music" None (Some january_options)
  = Ok sample_request.
Proof. by vm_compute. Qed.

Example sample_events_replies :
  (run (host := utc_host) sample_env sample_events
     (fetchSearch (host := utc_host) sample_env jan_2026 "ai music" None (Some january_options)
        (initialStore None)).2).1
  = [OutReply (Pending 0); OutReply (Pending 1); OutReply (Pending 0)].
Proof. by vm_compute. Qed.

Lemma in_flight_shared_witness :
  let st0 := initialStore None in
  let st1 := (start_request sample_request st0).2 in
  store_ok st0 ∧
  prepare (host := utc_host) sample_env jan_2026 "ai music" None (Some january_options)
    = Ok sample_request ∧
  inFlightSearch st0 !! req_key sample_request = None ∧
  fetchSearch (host := utc_host) sample_env jan_2026 "ai music" None (Some january_options) st0
    = (Pending 0%nat, st1) ∧
  Forall (not_settling 0) sample_events ∧
  requestsFor (req_key sample_request)
    (upstreamLog (run (host := utc_host) sample_env sample_events st1).2)
  = requestsFor (req_key sample_request) (upstreamLog st0) ++ [sample_request].
Proof.
  intros st0 st1.
  assert (store_ok st0) as H1 by apply initialStore_ok.
  assert (prepare (host := utc_host) sample_env jan_2026 "ai music" None (Some january_options)
          = Ok sample_request) as H2 by (vm_compute; reflexivity).
  assert (inFlightSearch st0 !! req_key sample_request = None) as H3 by apply lookup_empty.
  assert (fetchSearch (host := utc_host) sample_env jan_2026 "ai music" None
            (Some january_options) st0 = (Pending 0%nat, st1)) as H4
    by (unfold fetchSearch; rewrite H2; reflexivity).
  assert (Forall (not_settling 0) sample_events) as H5 by (repeat constructor).
  split; [exact H1|]. split; [exact H2|]. split; [exact H3|]. split; [exact H4|].
  split; [exact H5|].
  exact (proj1 (proj2 (in_flight_shared (host := utc_host) sample_env st0 st1 jan_2026 "ai music"
    None (Some january_options) sample_request 0 sample_events H1 H2 H3 H4 H5))).
Defined.

Lemma second_call_cached_witness :
  let st0 := initialStore (Some ∅) in
  let st1 := (start_request sample_request st0).2 in
  let st2 := (settle (host := utc_host) sample_env (jan_2026 + 900) 0 sample_arrival st1).2 in
  store_ok st0 ∧
  prepare (host := utc_host) sample_env jan_2026 "ai music" None (Some january_options)
    = Ok sample_request ∧
  prepare (host := utc_host) sample_env (jan_2026 + 60000) "  ai music" None
    (Some january_options) = Ok sample_request_later ∧
  req_key sample_request = req_key sample_request_later ∧
  fetchSearch (host := utc_host) sample_env jan_2026 "ai music" None (Some january_options) st0
    = (Pending 0%nat, st1) ∧
  settle (host := utc_host) sample_env (jan_2026 + 900) 0 sample_arrival st1
    = (Some (Ok sample_response), st2) ∧
  ∃ r2, fetchSearch (host := utc_host) sample_env (jan_2026 + 60000) "  ai music" None
          (Some january_options) st2 = (Resolved r2, st2) ∧
        cached r2 = Some true ∧ items r2 = items sample_response.
Proof.
  intros st0 st1 st2.
  assert (store_ok st0) as H1 by apply initialStore_ok.
  assert (prepare (host := utc_host) sample_env jan_2026 "ai music" None (Some january_options)
          = Ok sample_request) as H2 by (vm_compute; reflexivity).
  assert (prepare (host := utc_host) sample_env (jan_2026 + 60000) "  ai music" None
            (Some january_options) = Ok sample_request_later) as H3 by (vm_compute; reflexivity).
  assert (fetchSearch (host := utc_host) sample_env jan_2026 "ai music" None
            (Some january_options) st0 = (Pending 0%nat, st1)) as H4
    by (unfold fetchSearch; rewrite H2; reflexivity).
  assert ((settle (host := utc_host) sample_env (jan_2026 + 900) 0 sample_arrival st1).1
          = Some (Ok sample_response)) as Hv by (vm_compute; reflexivity).
  assert (settle (host := utc_host) sample_env (jan_2026 + 900) 0 sample_arrival st1
          = (Some (Ok sample_response), st2)) as Hset.
  { subst st2. destruct (settle sample_env (jan_2026 + 900) 0 sample_arrival st1) as [v s].
    simpl in Hv. by rewrite Hv. }
  split; [exact H1|]. split; [exact H2|]. split; [exact H3|]. split; [reflexivity|].
  split; [exact H4|]. split; [exact Hset|].
  exact (proj1 (proj2 (second_call_cached (host := utc_host) sample_env st0
    jan_2026 "ai music" None (Some january_options)
    (jan_2026 + 60000) "  ai music" None (Some january_options)
    sample_request sample_request_later H1 H2 H3 eq_refl) 0%nat st1 [] (jan_2026 + 900)
    sample_arrival sample_response st2 [] H4 (Forall_nil_2 _) Hset)).
Defined.

Example sample_second_call :
  let st1 := (start_request sample_request (initialStore (Some ∅))).2 in
  let '(v, st2) := settle (host := utc_host) sample_env (jan_2026 + 900) 0 sample_arrival st1 in
  (items <$> (match v with Some (Ok r) => Some r | _ => None end)) = Some (map (toVideoItem (Map_of YT.id (up_details sample_upstream))) (take 1 sample_candidates)) ∧
  upstreamLog (fetchSearch (host := utc_host) sample_env (jan_2026 + 60000) "ai music" None
                 (Some january_options) st2).2 = [sample_request].
Proof. by vm_compute. Qed.


(** ** The orchestrator's month windows *)

Section LoopFacts.
Context {host : Host}.
Variables (fetch : Fetcher) (clock : nat → Z) (oldest : option DateString)
          (seen : gset string) (kw : string).




End LoopFacts.



Section GlobalFetchFacts.
Context {host : Host}.

#[local] Opaque MONTH_CAP.




#[local] Transparent MONTH_CAP.

End GlobalFetchFacts.



Example twelve_empty_windows :
  let r := fetchNextMonthWindowGlobal (host := utc_host) AI_KEYWORDS fetch_nothing
             (λ _, feb_2026) loaded_app in
  r.1 = Ok [] ∧ monthsBackCounter r.2 !! "ai music video" = Some 13 ∧ keywordIndex r.2 = 1%nat.
Proof. by vm_compute. Qed.

(** From a recorded counter of 5 the twelve empty windows lead to 17, and
    a keyword without a recorded counter starts from 1. *)
Example twelve_empty_windows_later :
  let r := fetchNextMonthWindowGlobal (host := utc_host) AI_KEYWORDS fetch_nothing
             (λ _, feb_2026) later_app in
  let r0 := fetchNextMonthWindowGlobal (host := utc_host) AI_KEYWORDS fetch_nothing
              (λ _, feb_2026) (set_loop_result later_app 1 (monthsBackCounter later_app)) in
  r.1 = Ok [] ∧ monthsBackCounter r.2 !! "ai music video" = Some 17 ∧
  monthsBackCounter later_app !! "ai song" = None ∧
  r0.1 = Ok [] ∧ monthsBackCounter r0.2 !! "ai song" = Some 13.
Proof. by vm_compute. Qed.

Example third_window_yields :
  let r := fetchNextMonthWindowGlobal (host := utc_host) AI_KEYWORDS fetch_third
             (λ _, feb_2026) loaded_app in
  r.1 = Ok [pool_item "n1" (Some "7")] ∧
  monthsBackCounter r.2 !! "ai music video" = Some 4.
Proof. by vm_compute. Qed.

Example first_month_window :
  computeNextMonthWindow (host := utc_host) feb_2026 (Some (Iso jan_2026)) 1
  = Ok (Iso 1764547200000, Iso jan_2026).
Proof. by vm_compute. Qed.


(** ** The bucket "Top Most Views" *)

(** *** Rounding to a Number *)

Lemma roundHalfEven_lower N D : N / D ≤ roundHalfEven N D.
Proof.
  unfold roundHalfEven.
  destruct (2 * (N mod D) <? D); [lia|].
  destruct (D <? 2 * (N mod D)); [lia|].
  destruct (Z.even (N / D)); lia.
Qed.

Lemma roundHalfEven_exact M D : 0 < D → roundHalfEven (M * D) D = M.
Proof.
  intros HD. unfold roundHalfEven.
  rewrite Z.mod_mul by lia. rewrite Z.div_mul by lia.
  destruct (Z.ltb_spec (2 * 0) D); [done|lia].
Qed.

Lemma roundSignificand_pos N : 0 < N → 0 < roundSignificand N 1.
Proof.
  intros HN. unfold roundSignificand. rewrite Z.div_1_r, Z.mul_1_l.
  set (s := Z.max 0 (Z.log2 N + 1 - 53)).
  assert (0 ≤ s) as Hs by (subst s; lia).
  assert (0 < 2 ^ s) as Hpos by (by apply Z.pow_pos_nonneg).
  assert (2 ^ s ≤ N) as Hle.
  { destruct (Z.log2_spec N HN) as [Hlow _].
    transitivity (2 ^ Z.log2 N); [|done].
    apply Z.pow_le_mono_r; [lia|]. pose proof (Z.log2_nonneg N). subst s. lia. }
  pose proof (roundHalfEven_lower N (2 ^ s)) as Hlow.
  assert (0 < N / 2 ^ s) as Hq by (apply Z.div_str_pos; lia).
  apply Z.mul_pos_pos; lia.
Qed.

(** An integer of at most 53 bits is a Number as it is. *)
Lemma roundSignificand_small n :
  0 < n → n < 2 ^ 53 → roundSignificand (n * 2 ^ 1074) 1 = n * 2 ^ 1074.
Proof.
  intros Hn Hlt. unfold roundSignificand. rewrite Z.div_1_r, Z.mul_1_l.
  rewrite Z.log2_mul_pow2 by lia.
  assert (Z.log2 n < 53) as Hlog by (by apply Z.log2_lt_pow2).
  pose proof (Z.log2_nonneg n) as Hlog0.
  rewrite Z.max_r by lia.
  set (s := 1074 + Z.log2 n + 1 - 53).
  assert (2 ^ 1074 = 2 ^ (1074 - s) * 2 ^ s) as ->.
  { rewrite <- Z.pow_add_r by (subst s; lia). f_equal. lia. }
  rewrite Z.mul_assoc.
  rewrite roundHalfEven_exact by (apply Z.pow_pos_nonneg; subst s; lia). done.
Qed.

Lemma roundNumber_exact n :
  0 ≤ n ≤ 2 ^ 53 → roundNumber false (n * 2 ^ 1074) 1 = ofZ n.
Proof.
  intros [H0 H53].
  destruct (decide (n = 0)) as [->|Hn0]; [by vm_compute|].
  destruct (decide (n = 2 ^ 53)) as [->|Hn53]; [by vm_compute|].
  unfold roundNumber, ofZ. rewrite roundSignificand_small by lia.
  destruct (Z.leb_spec (2 ^ 2098) (n * 2 ^ 1074)) as [Hbig|_]; [|done].
  exfalso.
  assert (n * 2 ^ 1074 < 2 ^ 53 * 2 ^ 1074) as Hlt
    by (apply Z.mul_lt_mono_pos_r; [by apply Z.pow_pos_nonneg|lia]).
  assert (2 ^ 53 * 2 ^ 1074 ≤ 2 ^ 2098) as Hle.
  { rewrite <- Z.pow_add_r by lia. apply Z.pow_le_mono_r; lia. }
  lia.
Qed.

Lemma roundNumber_sign negative N :
  0 < N → Number_sign (roundNumber negative N 1) = Some (if negative then -1 else 1).
Proof.
  intros HN. pose proof (roundSignificand_pos N HN) as Hk. unfold roundNumber.
  destruct (2 ^ 2098 <=? roundSignificand N 1); [done|].
  destruct negative; simpl; f_equal; lia.
Qed.

(** The difference of two finite Numbers has the sign of the exact
    difference: it is not rounded to zero. *)
Lemma Number_sub_sign x y :
  Number_sign (Number_sub (Finite x) (Finite y)) = Some (Z.sgn (x - y)).
Proof.
  unfold Number_sub.
  destruct (Z.lt_trichotomy (x - y) 0) as [Hlt|[Heq|Hgt]].
  - rewrite (proj2 (Z.ltb_lt _ _) Hlt). rewrite roundNumber_sign by lia. f_equal. lia.
  - rewrite Heq. by vm_compute.
  - rewrite (proj2 (Z.ltb_ge _ _)) by lia. rewrite roundNumber_sign by lia. f_equal. lia.
Qed.

#[local] Instance Number_le_trans : Transitive Number_le.
Proof.
  intros [|[]|x] [|[]|y] [|[]|z]; unfold Number_le; try done. lia.
Qed.

Lemma Number_le_total a b : a ≠ NaN → b ≠ NaN → Number_le a b ∨ Number_le b a.
Proof.
  destruct a as [|[]|x], b as [|[]|y]; unfold Number_le; intros Ha Hb; try done; auto.
  lia.
Qed.

(** The comparator ranks two numeric counts by their order. *)
Lemma Number_sub_order a b :
  a ≠ NaN → b ≠ NaN →
  default 0 (Number_sign (Number_sub b a)) ≤ 0 ↔ Number_le b a.
Proof.
  destruct a as [|s|x], b as [|t|y]; intros Ha Hb; try done.
  - destruct s, t; simpl; intuition lia.
  - destruct s; simpl; intuition lia.
  - destruct t; simpl; intuition lia.
  - rewrite Number_sub_sign. simpl. lia.
Qed.

(** *** Reading a text of digits *)

Lemma splitDigits_decimal s :
  ∀ acc k n, decimalDigits acc s = Some n →
             splitDigits acc k s = (n, (k + String.length s)%nat, "").
Proof.
  induction s as [|c s IH]; intros acc k n; simpl.
  - intros [= ->]. do 2 f_equal. lia.
  - destruct (isDigit c); [|done]. intros H. rewrite (IH _ (S k) n H). do 2 f_equal. lia.
Qed.

Lemma decimalDigits_lower s : ∀ acc n, 0 ≤ acc → decimalDigits acc s = Some n → 0 ≤ n.
Proof.
  induction s as [|c s IH]; intros acc n Hacc; simpl.
  - by intros [= <-].
  - destruct (isDigit c) eqn:Hc; [|done]. apply IH.
    unfold isDigit in Hc. apply andb_true_iff in Hc as [H1 _]. apply Z.leb_le in H1. lia.
Qed.

Lemma decimalDigits_all s acc n :
  decimalDigits acc s = Some n → Forall (λ c, isDigit c = true) (list_ascii_of_string s).
Proof.
  revert acc. induction s as [|c s IH]; intros acc; simpl; [constructor|].
  destruct (isDigit c) eqn:Hc; [|done]. intros H. constructor; [done|by eapply IH].
Qed.

Lemma trimEnd_plain s :
  Forall (λ c, isWhiteSpace c = false) (list_ascii_of_string s) → trimEnd s = s.
Proof.
  induction s as [|c s IH]; simpl; [done|]. intros [Hc Hs]%Forall_cons.
  rewrite (IH Hs). rewrite Hc. by destruct s.
Qed.

Lemma trim_digits s acc n : decimalDigits acc s = Some n → trim s = s.
Proof.
  intros Hd. apply decimalDigits_all in Hd.
  assert (Forall (λ c, isWhiteSpace c = false) (list_ascii_of_string s)) as Hws.
  { eapply Forall_impl; [exact Hd|]. intros c Hc. by apply isDigit_plain. }
  unfold trim. assert (trimStart s = s) as ->.
  { destruct s as [|c s]; [done|]. simpl. apply Forall_cons in Hws as [-> _]. done. }
  by apply trimEnd_plain.
Qed.

(** [Number] reads a text of digits as the number they denote, exactly
    up to [2^53]. *)
Lemma Number_of_digits s n :
  denotes s n → n ≤ 2 ^ 53 → Number_of_string s = ofZ n.
Proof.
  intros [Hne Hd] Hn.
  pose proof (decimalDigits_lower s 0 n (Z.le_refl 0) Hd) as H0.
  unfold Number_of_string. rewrite (trim_digits s 0 n Hd).
  rewrite bool_decide_eq_false_2 by done.
  destruct s as [|c s]; [done|].
  assert (isDigit c = true) as Hc by (simpl in Hd; by destruct (isDigit c)).
  assert (nonDecimalLiteral (String c s) = None) as ->.
  { unfold nonDecimalLiteral. destruct s as [|c' s]; [by destruct c as [[] [] [] [] [] [] [] []]|].
    assert (isDigit c' = true) as Hc'.
    { simpl in Hd. rewrite Hc in Hd. simpl in Hd. by destruct (isDigit c'). }
    assert (bool_decide (c' = "x"%char ∨ c' = "X"%char) = false) as ->
      by (apply bool_decide_eq_false_2; intros [->| ->]; done).
    assert (bool_decide (c' = "o"%char ∨ c' = "O"%char) = false) as ->
      by (apply bool_decide_eq_false_2; intros [->| ->]; done).
    assert (bool_decide (c' = "b"%char ∨ c' = "B"%char) = false) as ->
      by (apply bool_decide_eq_false_2; intros [->| ->]; done).
    by destruct c as [[] [] [] [] [] [] [] []]. }
  destruct (isDigit_plain c Hc) as (_ & Hm & Hp).
  assert ((let '(negative, u) :=
             match String c s with
             | String "-"%char x => (true, x)
             | String "+"%char x => (false, x)
             | _ => (false, String c s)
             end in (negative, u)) = (false, String c s)) as Hsign.
  { destruct c as [[] [] [] [] [] [] [] []]; try done. }
  destruct (match String c s with
            | String "-"%char x => (true, x)
            | String "+"%char x => (false, x)
            | _ => (false, String c s)
            end) as [negative u].
  injection Hsign as -> ->.
  rewrite bool_decide_eq_false_2 by (intros [= -> _]; done).
  unfold unsignedDecimal. rewrite (splitDigits_decimal _ 0 0%nat n Hd).
  cbn [exponentPart mbind option_bind String.length Nat.add].
  assert ((0 <? Z.of_nat (S (String.length s))) = true) as -> by (apply Z.ltb_lt; lia).
  cbn [option_bind mbind].
  change (0 <=? 0) with true. cbv iota.
  rewrite Z.pow_0_r, Z.mul_1_r.
  apply roundNumber_exact. lia.
Qed.

(** *** The order of the bucket *)

Lemma viewsOrZero_numeric v : count_numeric v → viewsOrZero v = views v.
Proof. unfold count_numeric, viewsOrZero. by destruct (views v). Qed.

Lemma viewsOrZero_not_NaN v : viewsOrZero v ≠ NaN.
Proof. unfold viewsOrZero. by destruct (views v). Qed.

Lemma byViews_order a b :
  count_numeric a → count_numeric b →
  SortCompare (λ a b, Number_sign (byViews a b)) a b ≤ 0
  ↔ Number_le (viewsOrZero b) (viewsOrZero a).
Proof.
  intros Ha Hb. unfold SortCompare, byViews.
  rewrite !viewsOrZero_numeric by done. by apply Number_sub_order.
Qed.

Lemma views_missing v :
  viewCount v = None ∨ viewCount v = Some "" → views v = Finite 0.
Proof. unfold views. intros [->| ->]; by vm_compute. Qed.

Lemma views_digits v s n :
  viewCount v = Some s → denotes s n → n ≤ 2 ^ 53 → views v = ofZ n.
Proof.
  intros Hv Hd Hn. unfold views. rewrite Hv. unfold str_or.
  rewrite decide_False by apply Hd. by apply Number_of_digits.
Qed.

(** The comparator answers [NaN], which the sort reads as a tie, as soon as
    one of the two counts is not numeric. *)
Lemma byViews_tie a v :
  views v = NaN →
  SortCompare (λ a b, Number_sign (byViews a b)) a v = 0 ∧
  SortCompare (λ a b, Number_sign (byViews a b)) v a = 0.
Proof.
  intros Hv. unfold SortCompare, byViews. rewrite Hv.
  split; by destruct (views a).
Qed.

#[local] Instance descending_trans :
  Transitive (λ a b : VideoItem, Number_le (viewsOrZero b) (viewsOrZero a)).
Proof. intros a b c Hab Hbc. by transitivity (viewsOrZero b). Qed.

(** C9, as amended. Top Most Views: for a pool in which every view count
    is missing or a text that [Number] reads as a number, the bucket is the
    whole pool rearranged in descending order of the count read as a
    number, a missing count standing for zero and a count written in
    digits for the number they denote (exactly so up to [2^53]). A count
    that is present but not numeric is not read as zero: it makes the
    comparator answer [NaN], a tie with every other item. *)
Theorem top_views_sorted (pool : list VideoItem) :
  Forall count_numeric pool →
  topViews pool ≡ₚ pool ∧
  descending_views (topViews pool) ∧
  (∀ v, viewCount v = None ∨ viewCount v = Some "" → views v = Finite 0) ∧
  (∀ v s n, viewCount v = Some s → denotes s n → n ≤ 2 ^ 53 → views v = ofZ n) ∧
  (∀ a v, views v = NaN →
     SortCompare (λ a b, Number_sign (byViews a b)) a v = 0 ∧
     SortCompare (λ a b, Number_sign (byViews a b)) v a = 0).
Proof.
  intros Hok. split; [apply Array_sort_perm|]. split; [|split; [|split]].
  - apply (Array_sort_sorted _ _ count_numeric).
    + intros x y Hx Hy. by apply byViews_order.
    + intros x y _ _. apply Number_le_total; apply viewsOrZero_not_NaN.
    + exact Hok.
  - apply views_missing.
  - apply views_digits.
  - apply byViews_tie.
Qed.

Example sample_pool_sorted :
  map videoId (topViews sample_pool) = [Some "c"; Some "a"; Some "d"; Some "b"].
Proof. by vm_compute. Qed.

(** Counts with a fraction, an exponent, a sign or a radix prefix are
    numbers too. *)
Example mixed_pool_sorted :
  map views mixed_pool
  = [Finite (25 * 2 ^ 1073); Finite 0; ofZ 1000; ofZ (-5); ofZ 16] ∧
  map videoId (topViews mixed_pool) = [Some "e"; Some "h"; Some "f"; Some "m"; Some "s"].
Proof. by vm_compute. Qed.

(** Beyond [2^53] a count is rounded, and with too many digits it is
    infinite. *)
Example rounded_counts :
  Number_of_string "9007199254740993" = ofZ 9007199254740992 ∧
  Number_of_string "1e309" = Infinity false ∧
  Number_of_string "12px" = NaN ∧
  Number_of_string "Infinity" = Infinity false.
Proof. by vm_compute. Qed.

Lemma top_views_sorted_witness :
  Forall count_numeric mixed_pool ∧
  topViews mixed_pool ≡ₚ mixed_pool ∧ descending_views (topViews mixed_pool).
Proof.
  assert (Forall count_numeric mixed_pool) as Hok.
  { repeat constructor; by vm_compute. }
  split; [exact Hok|].
  pose proof (top_views_sorted mixed_pool Hok) as (H1 & H2 & _).
  split; [exact H1 | exact H2].
Defined.

(** C9, as stated, fails on a count that is not numeric: the item with the
    count ["abc"] stays in front of the item with 5 views, although read as
    zero it would have to come after it. *)
Lemma top_views_not_numeric :
  views (pool_item "x" (Some "abc")) = NaN ∧
  topViews odd_pool = odd_pool ∧
  map viewsOrZero odd_pool = [Finite 0; ofZ 5] ∧
  ¬ descending_views (topViews odd_pool).
Proof.
  assert (topViews odd_pool = odd_pool) as Hsame by (by vm_compute).
  split; [by vm_compute|]. split; [exact Hsame|]. split; [by vm_compute|].
  rewrite Hsame. unfold descending_views, odd_pool.
  intros [Hhead _]%StronglySorted_cons.
  apply Forall_cons in Hhead as [Hle _]. vm_compute in Hle. by apply Hle.
Qed.


(** * Further properties *)

(** ** The safety filter drops nothing else *)

Lemma toLowerCase_app_inv s a b :
  toLowerCase s = a +:+ b →
  ∃ s1 s2, s = s1 +:+ s2 ∧ toLowerCase s1 = a ∧ toLowerCase s2 = b.
Proof.
  revert s. induction a as [|c a IH]; intros s H.
  - exists "", s. by rewrite append_empty in *.
  - rewrite append_String in H. destruct s as [|c' s]; [done|].
    simpl in H. injection H as Hc Hs.
    destruct (IH s Hs) as (s1 & s2 & -> & H1 & H2).
    exists (String c' s1), s2. rewrite append_String. simpl. by rewrite Hc, H1.
Qed.

(** What the filters find is an occurrence up to letter case. *)
Lemma includes_lower_sound s k :
  toLowerCase k = k → includes (toLowerCase s) k = true → occurs_ci k s.
Proof.
  intros Hk (pre & post & H)%includes_spec.
  apply toLowerCase_app_inv in H as (s1 & s2 & -> & H1 & H2).
  apply toLowerCase_app_inv in H2 as (mid & s3 & -> & H2 & H3).
  exists s1, mid, s3. split; [done|]. congruence.
Qed.

Lemma existsb_false_forall {A} (f : A → bool) (l : list A) :
  (∀ x, x ∈ l → f x = false) → existsb f l = false.
Proof.
  intros H. destruct (existsb f l) eqn:E; [|done].
  apply existsb_exists in E as (x & Hx & Hfx). apply list_elem_of_In in Hx.
  rewrite (H x Hx) in Hfx. done.
Qed.

Lemma clean_text_checks (ttl desc : option string) (tgs : list string) :
  clean_text ttl desc tgs →
  existsb (λ k, includes (toLowerCase (str_or ttl "")) k
                || includes (toLowerCase (str_or desc "")) k) CONTENT_BLOCKLIST = false ∧
  (0 <? Z.of_nat (List.length (map toLowerCase tgs)))
    && existsb (λ k, existsb (λ t, includes t k) (map toLowerCase tgs)) CONTENT_BLOCKLIST = false.
Proof.
  intros Hclean. split.
  - apply existsb_false_forall. intros k Hk.
    destruct (Hclean k Hk) as (Ht & Hd & _).
    pose proof (CONTENT_BLOCKLIST_lower k Hk) as Hlow.
    apply orb_false_iff. split.
    + destruct (includes _ k) eqn:E; [|done]. destruct Ht. by apply includes_lower_sound.
    + destruct (includes _ k) eqn:E; [|done]. destruct Hd. by apply includes_lower_sound.
  - apply andb_false_iff. right.
    apply existsb_false_forall. intros k Hk.
    destruct (Hclean k Hk) as (_ & _ & Htags).
    pose proof (CONTENT_BLOCKLIST_lower k Hk) as Hlow.
    apply existsb_false_forall. intros t' (t & -> & Ht)%list_elem_of_fmap.
    destruct (includes _ k) eqn:E; [|done]. destruct (Htags t Ht). by apply includes_lower_sound.
Qed.

(** X1. The safety filter is exact. The client's [isKidFriendly] keeps a
    candidate exactly when the candidate is not rated age-restricted (a
    rating that counts only while the maximum allowed age is below 18) and
    no blocklist term occurs, up to letter case, in its title, its
    description or one of its tags; the proxy's [isBlocked] drops a
    candidate exactly in the opposite case, the rating counting only while
    [MAX_ALLOWED_AGE] is a number below 18. *)
Theorem safety_filter_exact (maxAge : Z) (serverAge : option Z)
    (sn : option YT.Snippet) (det : option YT.VideoDetails) (sdet : YT.VideoDetails) :
  (isKidFriendly maxAge sn det = true ↔
     ¬ (maxAge < 18 ∧ det ≫= YT.ytRating = Some "ytAgeRestricted") ∧
     clean_text (sn ≫= YT.title) (sn ≫= YT.description) (default [] (det ≫= YT.tags))) ∧
  (isBlocked serverAge sn sdet = false ↔
     ¬ (num_ltb serverAge 18 = true ∧ YT.ytRating sdet = Some "ytAgeRestricted") ∧
     clean_text (sn ≫= YT.title) (sn ≫= YT.description) (default [] (YT.tags sdet))).
Proof.
  split.
  - unfold isKidFriendly. split.
    + destruct (_ && bool_decide _) eqn:Hr; [done|].
      destruct (existsb _ CONTENT_BLOCKLIST) eqn:Htext; [done|].
      destruct (_ && existsb _ CONTENT_BLOCKLIST) eqn:Htags; [done|]. intros _.
      split; [|by apply text_checks_clean].
      intros [Hage Hrat]. apply andb_false_iff in Hr as [Hr|Hr].
      * apply Z.ltb_ge in Hr. lia.
      * by apply bool_decide_eq_false in Hr.
    + intros [Hrat Hclean].
      apply clean_text_checks in Hclean as [Htext Htags].
      rewrite Htext, Htags.
      destruct (Z.ltb_spec maxAge 18) as [Hlt|Hge]; simpl; [|done].
      case_bool_decide as Hr; [|done]. destruct Hrat. done.
  - unfold isBlocked. rewrite BLOCKLIST_same. split.
    + destruct (_ && bool_decide _) eqn:Hr; [done|].
      destruct (existsb _ CONTENT_BLOCKLIST) eqn:Htext; [done|].
      destruct (_ && existsb _ CONTENT_BLOCKLIST) eqn:Htags; [done|]. intros _.
      split; [|by apply text_checks_clean].
      intros [Hage Hrat]. rewrite Hage in Hr. simpl in Hr.
      by apply bool_decide_eq_false in Hr.
    + intros [Hrat Hclean].
      apply clean_text_checks in Hclean as [Htext Htags].
      rewrite Htext, Htags.
      destruct (num_ltb serverAge 18) eqn:Hage; simpl; [|done].
      case_bool_decide as Hr; [|done]. destruct Hrat. done.
Qed.

(** ** The sanitised query *)

Section SanitiseFacts.

Implicit Types s : string.

Lemma trimEnd_endsClean s : endsClean (trimEnd s) = true.
Proof.
  induction s as [|c s IH]; simpl; [done|].
  destruct (trimEnd s) as [|c' r] eqn:E.
  - destruct (isWhiteSpace c) eqn:Hc; simpl; [done|]. by rewrite Hc.
  - simpl. simpl in IH. exact IH.
Qed.

Lemma trimEnd_head c s :
  isWhiteSpace c = false → ∃ r, trimEnd (String c s) = String c r.
Proof.
  intros Hc. simpl. destruct (trimEnd s) as [|c' r].
  - rewrite Hc. by eexists.
  - by eexists.
Qed.

(** A trimmed text is empty, or starts and ends with characters that are
    not white space. *)
Lemma trim_shape s :
  trim s = "" ∨ ∃ c r, trim s = String c r ∧ isWhiteSpace c = false ∧ endsClean (String c r) = true.
Proof.
  unfold trim. destruct (trimStart s) as [|c r] eqn:E.
  - by left.
  - right. apply trimStart_head in E as Hc.
    destruct (trimEnd_head c r Hc) as [r' Hr']. exists c, r'. split; [done|]. split; [done|].
    rewrite <- Hr'. apply trimEnd_endsClean.
Qed.

Lemma endsClean_tail c s : endsClean (String c s) = true → s ≠ "" → endsClean s = true.
Proof. destruct s; [done|]. by intros. Qed.

Lemma endsClean_space c s : endsClean (String c s) = true → isWhiteSpace c = true → s ≠ "".
Proof. destruct s; [|done]. simpl. intros H Hc. by rewrite Hc in H. Qed.

Lemma collapse_tidy s :
  endsClean s = true →
  tidy_from false (collapseFrom false s) = true ∧
  (s ≠ "" → tidy_from true (collapseFrom true s) = true).
Proof.
  induction s as [|c s IH]; intros He; simpl; [done|].
  destruct (isWhiteSpace c) eqn:Hc.
  - pose proof (endsClean_space c s He Hc) as Hne.
    destruct (IH (endsClean_tail c s He Hne)) as [_ IH2].
    split.
    + simpl. by apply IH2.
    + intros _. by apply IH2.
  - assert (endsClean s = true) as He'.
    { destruct s; [done|]. by apply (endsClean_tail c). }
    destruct (IH He') as [IH1 _]. simpl. rewrite Hc. done.
Qed.

Lemma sanitised_tidy s : tidy (collapseSpaces (trim s)) = true.
Proof.
  unfold collapseSpaces.
  destruct (trim_shape s) as [->|(c & r & -> & Hc & He)]; [done|].
  simpl. rewrite Hc. simpl. rewrite Hc.
  assert (endsClean r = true) as He'.
  { destruct r; [done|]. by apply (endsClean_tail c). }
  by apply collapse_tidy.
Qed.

Lemma tidy_from_collapse b s : tidy_from b s = true → collapseFrom b s = s.
Proof.
  revert b. induction s as [|c s IH]; intros b H; simpl in *; [done|].
  destruct (isWhiteSpace c) eqn:Hc.
  - destruct b; [done|]. simpl in H.
    apply andb_true_iff in H as [Hcode H]. apply Z.eqb_eq in Hcode.
    assert (c = " "%char) as ->.
    { unfold code in Hcode. apply (f_equal Z.to_N) in Hcode. rewrite N2Z.id in Hcode.
      apply (f_equal ascii_of_N) in Hcode. by rewrite ascii_N_embedding in Hcode. }
    by rewrite (IH true H).
  - by rewrite (IH false H).
Qed.

Lemma tidy_from_trimEnd b s : tidy_from b s = true → trimEnd s = s.
Proof.
  revert b. induction s as [|c s IH]; intros b H; simpl in *; [done|].
  destruct (isWhiteSpace c) eqn:Hc.
  - apply andb_true_iff in H as [_ H]. rewrite (IH true H).
    destruct s; [done|done].
  - rewrite (IH false H). by destruct s.
Qed.

Lemma tidy_fixed s : tidy s = true → collapseSpaces (trim s) = s.
Proof.
  destruct s as [|c s]; [done|]. unfold tidy, trim, collapseSpaces. intros H.
  assert (isWhiteSpace c = false) as Hc.
  { simpl in H. by destruct (isWhiteSpace c). }
  assert (trimStart (String c s) = String c s) as -> by (simpl; by rewrite Hc).
  rewrite (tidy_from_trimEnd true _ H).
  simpl in *. rewrite Hc in *. by rewrite (tidy_from_collapse false s H).
Qed.

End SanitiseFacts.

(** X2. The sanitised query is canonical: the text [fetchSearch] works
    with has no white space at its ends and single spaces between its
    words, sanitising it again changes nothing, and so a call made with the
    sanitised text prepares the same request, cache key included, as the
    call with the original text. *)
Theorem sanitised_query_canonical {host : Host} (env : ClientEnv) (now : Z) (q_ : string)
    (pageToken : option string) (opts : option SearchOptions) :
  let qSan := collapseSpaces (trim q_) in
  tidy qSan = true ∧
  collapseSpaces (trim qSan) = qSan ∧
  prepare env now qSan pageToken opts = prepare env now q_ pageToken opts.
Proof.
  intros qSan.
  pose proof (sanitised_tidy q_) as Ht. fold qSan in Ht.
  pose proof (tidy_fixed qSan Ht) as Hfix.
  split; [done|]. split; [done|].
  unfold prepare. fold qSan. by rewrite Hfix.
Qed.

Example sanitised_sample :
  collapseSpaces (trim "  ai 	  music  video ") = "ai music video".
Proof. by vm_compute. Qed.

(** ** Normalised options *)

Section NormaliseFacts.
Context {host : Host}.

Lemma toISOString_Ok (d : Date) s : toISOString d = Ok s → ∃ t, d = Some t ∧ s = Iso t.
Proof. destruct d as [t|]; [|done]. intros [= <-]. by exists t. Qed.

Lemma setMonth_valid (d : Date) m t : setMonth d m = Some t → TimeClip t = Some t.
Proof.
  unfold setMonth. destruct d as [t0|]; [|done]. destruct m as [m|]; [|done]. simpl.
  intros H. apply TimeClip_Some in H as [-> Hr]. by apply TimeClip_in_range.
Qed.

(** The default window, when there is one, ends at the clock reading. *)
Lemma getDefaultDateWindow_Ok now def :
  getDefaultDateWindow now = Ok def →
  ∃ u, def = {| publishedAfter := Iso u; publishedBefore := Iso now |} ∧
       TimeClip u = Some u ∧ TimeClip now = Some now.
Proof.
  unfold getDefaultDateWindow, Date_now.
  destruct (TimeClip now) as [t|] eqn:Hnow; [|done].
  apply TimeClip_Some in Hnow as [-> Hr].
  destruct (toISOString (setMonth _ _)) as [a|] eqn:Ha; [|done].
  apply toISOString_Ok in Ha as (u & Hu & ->). simpl. intros [= <-].
  exists u. split; [done|]. split; [by eapply setMonth_valid | done].
Qed.

Lemma toIsoUTC_Some (input : option DateString) d :
  toIsoUTC input = Some d → ∃ t, d = Iso t ∧ input = Some (Iso t) ∧ TimeClip t = Some t.
Proof.
  unfold toIsoUTC. destruct input as [[|t]|]; [done| |done]. simpl.
  destruct (TimeClip t) as [t'|] eqn:E; [|done]. simpl. intros [= <-].
  apply TimeClip_Some in E as [-> Hr]. exists t. by rewrite TimeClip_in_range.
Qed.

Lemma toIsoUTC_valid t : TimeClip t = Some t → toIsoUTC (Some (Iso t)) = Some (Iso t).
Proof. intros H. unfold toIsoUTC. simpl. by rewrite H. Qed.

(** What [normalizeSearchOptions] returns: the caller's options with a
    window of two valid instants, the first strictly before the second. *)
Lemma normalizeSearchOptions_Ok now opts o' :
  normalizeSearchOptions now opts = Ok o' →
  ∃ a b, o' = Opts.with_window (default Opts.empty opts) (Iso a) (Iso b) ∧
         TimeClip a = Some a ∧ TimeClip b = Some b ∧ a < b ∧
         (toIsoUTC (Opts.publishedBefore (default Opts.empty opts)) = None → b = now).
Proof.
  unfold normalizeSearchOptions.
  destruct (getDefaultDateWindow now) as [def|] eqn:Hdef; [|done]. simpl.
  apply getDefaultDateWindow_Ok in Hdef as (u & -> & Hu & Hnow). simpl.
  set (o := default Opts.empty opts).
  assert (∃ a, default (Iso u) (toIsoUTC (Opts.publishedAfter o)) = Iso a ∧ TimeClip a = Some a)
    as (a & -> & Ha).
  { destruct (toIsoUTC (Opts.publishedAfter o)) as [d|] eqn:E; simpl.
    - apply toIsoUTC_Some in E as (t & -> & _ & Ht). by exists t.
    - by exists u. }
  assert (∃ b, default (Iso now) (toIsoUTC (Opts.publishedBefore o)) = Iso b ∧ TimeClip b = Some b
               ∧ (toIsoUTC (Opts.publishedBefore o) = None → b = now))
    as (b & -> & Hb & Hbnow).
  { destruct (toIsoUTC (Opts.publishedBefore o)) as [d|] eqn:E; simpl.
    - apply toIsoUTC_Some in E as (t & -> & _ & Ht). by exists t.
    - by exists now. }
  simpl. rewrite Ha, Hb. simpl.
  destruct (Z.ltb_spec a b) as [Hlt|Hge]; simpl; [|done].
  intros [= <-]. by exists a, b.
Qed.

Lemma normalizeSearchOptions_again now' def o a b :
  getDefaultDateWindow now' = Ok def →
  TimeClip a = Some a → TimeClip b = Some b → a < b →
  normalizeSearchOptions now' (Some (Opts.with_window o (Iso a) (Iso b)))
  = Ok (Opts.with_window o (Iso a) (Iso b)).
Proof.
  intros Hdef Ha Hb Hlt. unfold normalizeSearchOptions. rewrite Hdef. cbn -[toIsoUTC].
  rewrite !toIsoUTC_valid by done. simpl. rewrite Ha, Hb. simpl.
  destruct (Z.ltb_spec a b) as [_|Hge]; [done|lia].
Qed.

End NormaliseFacts.

(** X3. Normalising is idempotent. What [normalizeSearchOptions] returns
    are the caller's options with a window of two valid instants, the start
    strictly before the end; normalising the result again, at any time at
    which a default window can be computed, gives the result back. *)
Theorem normalized_options_stable {host : Host} (now : Z) (opts : option SearchOptions)
    (o' : SearchOptions) :
  normalizeSearchOptions now opts = Ok o' →
  (∃ a b, o' = Opts.with_window (default Opts.empty opts) (Iso a) (Iso b) ∧
          - maxTime ≤ a ∧ a < b ∧ b ≤ maxTime) ∧
  (∀ now' def, getDefaultDateWindow now' = Ok def →
     normalizeSearchOptions now' (Some o') = Ok o').
Proof.
  intros (a & b & -> & Ha & Hb & Hlt & _)%normalizeSearchOptions_Ok.
  split.
  - exists a, b. apply TimeClip_Some in Ha as [_ Ha]. apply TimeClip_Some in Hb as [_ Hb].
    split; [done|]. lia.
  - intros now' def Hdef.
    by apply (normalizeSearchOptions_again now' def).
Qed.

Lemma normalized_options_stable_witness :
  normalizeSearchOptions (host := utc_host) jan_2026 (Some january_options)
    = Ok january_options ∧
  normalizeSearchOptions (host := utc_host) feb_2026 (Some january_options)
    = Ok january_options.
Proof.
  assert (normalizeSearchOptions (host := utc_host) jan_2026 (Some january_options)
          = Ok january_options) as H by (by vm_compute).
  split; [exact H|].
  refine (proj2 (normalized_options_stable jan_2026 (Some january_options) january_options H)
            feb_2026 _ _).
  by vm_compute.
Defined.

(** X4. The default window is the month before now. On a host whose local
    time stays within a day of UTC, and for a clock reading at least 33 days
    above the bottom of the range of [Date], [getDefaultDateWindow] returns
    a window that ends at the clock reading and starts between 26 and 33
    days earlier; options without dates are normalised to that window, so
    that a call without dates is never rejected for its window. *)
Theorem default_window_last_month {host : Host} (now : Z) :
  tz_bounded host →
  - maxTime + 33 * msPerDay ≤ now ≤ maxTime →
  ∃ u, getDefaultDateWindow now = Ok {| publishedAfter := Iso u; publishedBefore := Iso now |} ∧
       now - 33 * msPerDay < u < now - 26 * msPerDay ∧
       ∀ o, Opts.publishedAfter o = None → Opts.publishedBefore o = None →
            normalizeSearchOptions now (Some o) = Ok (Opts.with_window o (Iso u) (Iso now)).
Proof.
  intros Htz Hnow.
  assert (- maxTime ≤ now ≤ maxTime) as Hr by (unfold msPerDay, maxTime in *; lia).
  destruct (setMonth_back_value Htz now 1) as (u & Hu & Hset); [lia|].
  assert (- maxTime ≤ u ≤ maxTime ∧ u < now) as [Hur Hlt].
  { apply (range_arith now u 1); [lia | lia | lia | done]. }
  assert (getDefaultDateWindow now
          = Ok {| publishedAfter := Iso u; publishedBefore := Iso now |}) as Hdef.
  { unfold getDefaultDateWindow, Date_now. rewrite (TimeClip_in_range now Hr).
    rewrite Hset, (TimeClip_in_range u Hur). done. }
  exists u. split; [done|]. split; [lia|].
  intros o Ha Hb. unfold normalizeSearchOptions. rewrite Hdef. simpl.
  rewrite Ha, Hb. simpl.
  rewrite (TimeClip_in_range u Hur), (TimeClip_in_range now Hr). simpl.
  destruct (Z.ltb_spec u now) as [_|Hge]; [done|lia].
Qed.

Lemma default_window_last_month_witness :
  tz_bounded utc_host ∧
  - maxTime + 33 * msPerDay ≤ feb_2026 ≤ maxTime ∧
  ∃ u, getDefaultDateWindow (host := utc_host) feb_2026
       = Ok {| publishedAfter := Iso u; publishedBefore := Iso feb_2026 |}.
Proof.
  assert (- maxTime + 33 * msPerDay ≤ feb_2026 ≤ maxTime) as Hr by (by vm_compute).
  split; [exact utc_host_bounded|]. split; [exact Hr|].
  destruct (default_window_last_month (host := utc_host) feb_2026 utc_host_bounded Hr)
    as (u & Hu & _).
  by exists u.
Defined.

Example default_window_of_february :
  getDefaultDateWindow (host := utc_host) feb_2026
  = Ok {| publishedAfter := Iso jan_2026; publishedBefore := Iso feb_2026 |}.
Proof. by vm_compute. Qed.

(** X5. A default window is keyed by the clock. When the caller gives no
    usable [publishedBefore], the normalised options end at the clock
    reading of the call, and the cache key is made from them: two such calls
    at different clock readings work with different keys, whatever else
    they share. *)
Theorem default_window_keys_differ {host : Host} (env : ClientEnv) (now1 now2 : Z) (q_ : string)
    (pageToken : option string) (opts : option SearchOptions) (req1 req2 : Request) :
  toIsoUTC (Opts.publishedBefore (default Opts.empty opts)) = None →
  prepare env now1 q_ pageToken opts = Ok req1 →
  prepare env now2 q_ pageToken opts = Ok req2 →
  now1 ≠ now2 →
  Opts.publishedBefore (req_opts req1) = Some (Iso now1) ∧
  Opts.publishedBefore (req_opts req2) = Some (Iso now2) ∧
  req_key req1 ≠ req_key req2.
Proof.
  intros Hnone H1 H2 Hne.
  assert (∀ now req, prepare env now q_ pageToken opts = Ok req →
            Opts.publishedBefore (req_opts req) = Some (Iso now) ∧
            key_opts (req_key req) = req_opts req) as Hkey.
  { intros now req. unfold prepare. case_decide; [done|].
    destruct (normalizeSearchOptions now opts) as [o|] eqn:Hn; [|done]. simpl.
    intros [= <-]. simpl.
    apply normalizeSearchOptions_Ok in Hn as (a & b & -> & _ & _ & _ & Hb).
    rewrite (Hb Hnone). done. }
  destruct (Hkey now1 req1 H1) as [Hb1 Hk1].
  destruct (Hkey now2 req2 H2) as [Hb2 Hk2].
  split; [done|]. split; [done|].
  intros Heq. rewrite <- Hk1, Heq, Hk2, Hb2 in Hb1. congruence.
Qed.

Lemma default_window_keys_differ_witness :
  ∃ req1 req2,
    prepare (host := utc_host) sample_env jan_2026 "ai music" None None = Ok req1 ∧
    prepare (host := utc_host) sample_env (jan_2026 + 1) "ai music" None None = Ok req2 ∧
    req_key req1 ≠ req_key req2.
Proof.
  destruct (prepare (host := utc_host) sample_env jan_2026 "ai music" None None)
    as [req1|] eqn:H1; [|by vm_compute in H1].
  destruct (prepare (host := utc_host) sample_env (jan_2026 + 1) "ai music" None None)
    as [req2|] eqn:H2; [|by vm_compute in H2].
  exists req1, req2. split; [done|]. split; [done|].
  refine (proj2 (proj2 (default_window_keys_differ sample_env jan_2026 (jan_2026 + 1) "ai music"
            None None req1 req2 _ H1 H2 _))); [done | by vm_compute].
Defined.


(** ** What the cached search hands out *)

Lemma response_valid_mark_cached r : response_valid r → response_valid (mark_cached r).
Proof. done. Qed.











(** ** The second cache tier at its limit *)

Lemma prepare_at {host : Host} env now q_ pt opts req :
  prepare env now q_ pt opts = Ok req → req_at req = now.
Proof.
  unfold prepare. case_decide; [done|].
  destruct (normalizeSearchOptions now opts); [|done]. simpl. by intros [= <-].
Qed.

(** X7. The session tier expires at fifteen minutes sharp. For a call
    whose key misses the memory tier and has an entry in session storage: an
    entry written less than 900000 ms before the call is handed out, marked
    as cached, and copied to the memory tier; an entry of 900000 ms or more
    is removed, and the call (no operation being in flight for the key)
    starts an upstream operation. *)
Theorem session_tier_expiry {host : Host} (env : ClientEnv) (now : Z) (q_ : string)
    (pageToken : option string) (opts : option SearchOptions) (req : Request) (st : Store)
    (at_ : Z) (data : SearchResponse) :
  prepare env now q_ pageToken opts = Ok req →
  searchCache st !! req_key req = None →
  session_entry st (req_key req) = Some (at_, data) →
  inFlightSearch st !! req_key req = None →
  (now - at_ < 900000 →
     fetchSearch env now q_ pageToken opts st
     = (Resolved (mark_cached data),
        set_searchCache (insert (req_key req) (mark_cached data)) st)) ∧
  (900000 ≤ now - at_ →
     ∃ st', fetchSearch env now q_ pageToken opts st = (Pending (nextPromise st), st') ∧
            session_entry st' (req_key req) = None ∧
            searchCache st' !! req_key req = None ∧
            upstreamLog st' = upstreamLog st ++ [req]).
Proof.
  intros Hp Hmem He Hfl.
  pose proof (prepare_at env now q_ pageToken opts req Hp) as Hat.
  unfold fetchSearch. rewrite Hp. unfold serve. rewrite Hmem, Hat.
  destruct (sessionLookup_cases now (req_key req) st)
    as [[_ Hn]|[(at' & data' & He' & Hage & ->)|(at' & data' & He' & Hage & ->)]].
  - congruence.
  - rewrite He in He'. injection He' as <- <-.
    split; [done|]. unfold MAX_AGE_MS in Hage. lia.
  - rewrite He in He'. injection He' as <- <-.
    split; [unfold MAX_AGE_MS in Hage; lia|]. intros _.
    change (inFlightSearch (set_sessionStorage (delete (req_key req)) st))
      with (inFlightSearch st).
    rewrite Hfl.
    exists (start_request req (set_sessionStorage (delete (req_key req)) st)).2.
    split; [done|]. split; [|split; [done|done]].
    change (session_entry (start_request req (set_sessionStorage (delete (req_key req)) st)).2
              (req_key req))
      with (session_entry (set_sessionStorage (delete (req_key req)) st) (req_key req)).
    rewrite session_entry_delete. by rewrite decide_True.
Qed.

Lemma session_tier_expiry_witness :
  prepare (host := utc_host) sample_env (jan_2026 + 900000) "ai music" None
    (Some january_options)
    = Ok {| req_mode := ModeYt; req_q := "ai music"; req_pageToken := None;
            req_opts := january_options; req_key := req_key sample_request;
            req_at := jan_2026 + 900000 |} ∧
  session_entry stored_january (req_key sample_request) = Some (jan_2026, sample_response) ∧
  ∃ st', fetchSearch (host := utc_host) sample_env (jan_2026 + 900000) "ai music" None
           (Some january_options) stored_january = (Pending 0%nat, st') ∧
         session_entry st' (req_key sample_request) = None.
Proof.
  set (req := {| req_mode := ModeYt; req_q := "ai music"; req_pageToken := None;
                 req_opts := january_options; req_key := req_key sample_request;
                 req_at := jan_2026 + 900000 |}).
  assert (prepare (host := utc_host) sample_env (jan_2026 + 900000) "ai music" None
            (Some january_options) = Ok req) as Hp by (by vm_compute).
  assert (session_entry stored_january (req_key req) = Some (jan_2026, sample_response)) as He.
  { unfold session_entry, stored_january. simpl. apply lookup_singleton_eq. }
  split; [exact Hp|]. split; [exact He|].
  destruct (proj2 (session_tier_expiry sample_env (jan_2026 + 900000) "ai music" None
                     (Some january_options) req stored_january jan_2026 sample_response
                     Hp (lookup_empty _) He (lookup_empty _)))
    as (st' & Hf & Hgone & _); [lia|].
  exists st'. split; [exact Hf | exact Hgone].
Defined.

(** ** The direct fetch behind the cached search *)

(** What [prepare] establishes about the request it returns. *)
Lemma prepare_Ok {host : Host} env now q_ pt opts req :
  prepare env now q_ pt opts = Ok req →
  req_at req = now ∧
  normalizeSearchOptions now opts = Ok (req_opts req) ∧
  req_mode req = (if decide (getYouTubeKey env = "") then ModeProxy else ModeYt) ∧
  req_q req = collapseSpaces (trim q_) ∧ req_pageToken req = pt.
Proof.
  unfold prepare. case_decide; [done|].
  destruct (normalizeSearchOptions now opts) as [o|]; [|done]. simpl. intros [= <-]. simpl.
  repeat split. case_decide as Hk.
  - by rewrite bool_decide_eq_true_2.
  - by rewrite bool_decide_eq_false_2.
Qed.

(** X8. The checks of the direct fetch are met by what the cached search
    prepares. For a request prepared by [fetchSearch] for the direct path,
    [fetchYouTubeDirect] neither misses the key nor rejects the window: with
    the upstream data it returns the response built from them, and when the
    search request fails it throws the error of the request and leaves the
    seen map as it was. *)
Theorem prepared_request_passes {host : Host} (env : ClientEnv) (now : Z) (q_ : string)
    (pageToken : option string) (opts : option SearchOptions) (req : Request)
    (seen : gmap string (gset string)) :
  prepare env now q_ pageToken opts = Ok req →
  req_mode req = ModeYt →
  (∀ u, fetchYouTubeDirect env (req_at req) seen (req_q req) (req_pageToken req)
          (Some (req_opts req)) (NetOk u)
        = (Ok (directResponse env seen (req_q req) (Some (req_opts req)) u).1,
           (directResponse env seen (req_q req) (Some (req_opts req)) u).2)) ∧
  (∀ m, fetchYouTubeDirect env (req_at req) seen (req_q req) (req_pageToken req)
          (Some (req_opts req)) (NetFail m)
        = (Throw m, seen)).
Proof.
  intros Hp Hmode.
  destruct (prepare_Ok env now q_ pageToken opts req Hp) as (Hat & Hn & Hm & _ & _).
  rewrite Hmode in Hm. destruct (decide (getYouTubeKey env = "")) as [|Hkey]; [done|].
  assert (∃ def, getDefaultDateWindow now = Ok def) as [def Hdef].
  { unfold normalizeSearchOptions in Hn.
    destruct (getDefaultDateWindow now) as [def|]; [by exists def | done]. }
  apply normalizeSearchOptions_Ok in Hn as (a & b & Ho & Ha & Hb & Hlt & _).
  assert (∀ net, fetchYouTubeDirect env (req_at req) seen (req_q req) (req_pageToken req)
                   (Some (req_opts req)) net
                 = match net with
                   | NetFail m => (Throw m, seen)
                   | NetOk u =>
                       let '(resp, seen') :=
                         directResponse env seen (req_q req) (Some (req_opts req)) u in
                       (Ok resp, seen')
                   end) as Hf.
  { intros net. unfold fetchYouTubeDirect. rewrite decide_False by done.
    rewrite Hat, Hdef, Ho. cbn -[toIsoUTC directResponse].
    rewrite !toIsoUTC_valid by done. simpl default. simpl Date_of_string.
    rewrite Ha, Hb. simpl.
    destruct (Z.leb_spec b a) as [Hle|_]; [lia|]. done. }
  split.
  - intros u. rewrite Hf. by destruct (directResponse _ _ _ _ u).
  - intros m. by rewrite Hf.
Qed.

Lemma prepared_request_passes_witness :
  prepare (host := utc_host) sample_env jan_2026 "ai music" None (Some january_options)
    = Ok sample_request ∧
  req_mode sample_request = ModeYt ∧
  fetchYouTubeDirect (host := utc_host) sample_env jan_2026 ∅ "ai music" None
    (Some january_options) (NetFail "offline") = (Throw "offline", ∅).
Proof.
  assert (prepare (host := utc_host) sample_env jan_2026 "ai music" None (Some january_options)
          = Ok sample_request) as Hp by (by vm_compute).
  split; [exact Hp|]. split; [reflexivity|].
  exact (proj2 (prepared_request_passes sample_env jan_2026 "ai music" None
                  (Some january_options) sample_request ∅ Hp eq_refl) "offline").
Defined.

(** ** The order of a response *)


Lemma List_filter_sublist {A} (f : A → bool) (l : list A) : List.filter f l `sublist_of` l.
Proof.
  induction l as [|x l IH]; simpl; [constructor|].
  destruct (f x); by constructor.
Qed.



Example sample_response_order :
  map videoId
    (items (directResponse sample_env ∅ "ai" (Some january_options)
              {| up_items := rank_candidates; up_nextPageToken := None;
                 up_details := [rank_details "a" false; rank_details "d" true];
                 up_channels := [] |}).1)
  = [Some "d"; Some "b"; Some "a"; Some "c"].
Proof. by vm_compute. Qed.



(** ** From the client to the proxy *)

Lemma tidy_trim s : tidy s = true → trim s = s.
Proof.
  destruct s as [|c s]; [done|]. unfold tidy, trim. intros H.
  assert (isWhiteSpace c = false) as Hc.
  { simpl in H. by destruct (isWhiteSpace c). }
  assert (trimStart (String c s) = String c s) as -> by (simpl; by rewrite Hc).
  by apply (tidy_from_trimEnd true).
Qed.

Lemma append_nonempty_r a b : b ≠ "" → a +:+ b ≠ "".
Proof. destruct a; [by rewrite append_empty | by rewrite append_String]. Qed.

Lemma isoText_nonempty t : isoText t ≠ "".
Proof.
  unfold isoText. destruct (civil_from_days (Day t)) as [[y m] d].
  repeat (apply append_nonempty_r). done.
Qed.

Lemma whenSet_nonempty s : s ≠ "" → whenSet s = Some s.
Proof. intros H. unfold whenSet. by rewrite decide_False. Qed.

Lemma whenSet_or_null o : whenSet (str_or (or_null o) "") = or_null o.
Proof.
  unfold whenSet, str_or, or_null. destruct o as [s|]; [|done].
  repeat case_decide; congruence.
Qed.

(** A whole page size from 1 to 30 goes through the proxy as it is. *)
Lemma client_page_size_kept n :
  1 ≤ n ≤ 30 → server_maxResults (trim (Number_toString n)) = Number_toString n.
Proof.
  intros Hr.
  assert (forallb (λ n, bool_decide (server_maxResults (trim (Number_toString n))
                                     = Number_toString n)) (seqZ 1 30) = true) as Hall
    by (by vm_compute).
  rewrite forallb_forall in Hall.
  eapply bool_decide_eq_true_1, Hall, list_elem_of_In, elem_of_seqZ. lia.
Qed.

Lemma server_maxResults_default t : allDigits t = false → server_maxResults t = "24".
Proof. intros H. unfold server_maxResults. by rewrite H, andb_false_r. Qed.

Lemma client_order_kept o : sanitizeOrder (trim (orderText o)) = orderText o.
Proof. by destruct o. Qed.

(** What the proxy makes of two valid dates of which the first is before
    the second and before the clock: nothing but the clamp. *)
Lemma normalizeProxyWindow_kept now a b :
  TimeClip a = Some a → TimeClip b = Some b → TimeClip now = Some now →
  a < Z.min b now →
  normalizeProxyWindow now (Some (Iso a)) (Some (Iso b))
  = Ok (Some (Iso a), Some (Iso (Z.min b now))).
Proof.
  intros Ha Hb Hnow Hlt. unfold normalizeProxyWindow, parseIso, Date_now. simpl.
  rewrite Ha, Hb, Hnow. simpl.
  destruct (Z.ltb_spec now b) as [Hnb|Hnb]; simpl.
  - destruct (Z.leb_spec now a) as [?|_]; [lia|]. simpl.
    by rewrite Z.min_r by lia.
  - destruct (Z.leb_spec b a) as [?|_]; [lia|]. simpl.
    by rewrite Z.min_l by lia.
Qed.

(** X10. The proxy forwards what the client asks for. For a request the
    cached search prepares (sanitised query, normalised options) and sends
    through [fetchViaProxy], the handler of the proxy reads the query as it
    is, and the request it builds for the YouTube search carries the
    client's order, filters and page token, with the safe-search and type
    settings of the proxy, and the client's window: its start as it is, its
    end clamped to the clock of the proxy. The start of the window lies
    before the clock of the proxy. The page size is what the proxy makes of
    the text [pageSize] the client sends: that text itself when it is a
    whole number from 1 to 30, and 24 when it is not a text of digits (as
    for a page size with a fraction, or [NaN]). *)
Theorem proxy_forwards_client_request {host : Host} (env : ClientEnv) (now : Z) (q_ : string)
    (pageToken : option string) (opts : option SearchOptions) (req : Request)
    (pageSize : string) (serverNow : Z) (apiKey : string) :
  prepare env now q_ pageToken opts = Ok req →
  ∃ a b,
    Opts.publishedAfter (req_opts req) = Some (Iso a) ∧
    Opts.publishedBefore (req_opts req) = Some (Iso b) ∧
    (a < serverNow ≤ maxTime →
     ∃ p, sanitizeQuery serverNow
            (fetchViaProxy_query (req_q req) (req_pageToken req) (Some (req_opts req)) pageSize)
          = Ok p ∧
          p_q p = req_q req ∧ p_q p ≠ "" ∧
          (∀ n, 1 ≤ n ≤ 30 → pageSize = Number_toString n →
                ys_maxResults (searchRequestOf apiKey p) = pageSize) ∧
          (allDigits (trim pageSize) = false →
                ys_maxResults (searchRequestOf apiKey p) = "24") ∧
          searchRequestOf apiKey p
          = {| ys_key := apiKey;
               ys_part := "snippet";
               ys_q := req_q req;
               ys_maxResults := server_maxResults (trim pageSize);
               ys_type := "video";
               ys_safeSearch := "strict";
               ys_pageToken := or_null (req_pageToken req);
               ys_order := Some (orderText (default OrderDate (Opts.order (req_opts req))));
               ys_publishedAfter := Some (isoText a);
               ys_publishedBefore := Some (isoText (Z.min b serverNow));
               ys_videoCategoryId :=
                 whenSet (trim (str_or (Opts.videoCategoryId (req_opts req)) ""));
               ys_videoDuration := durationText <$> Opts.videoDuration (req_opts req);
               ys_videoSyndicated :=
                 if default false (Opts.videoSyndicated (req_opts req)) then Some "true"
                 else None |}).
Proof.
  intros Hp.
  destruct (prepare_Ok env now q_ pageToken opts req Hp) as (_ & Hn & _ & Hq & _).
  assert (req_q req ≠ "") as Hne.
  { unfold prepare in Hp. case_decide as Hb; [done|]. by rewrite Hq. }
  assert (trim (req_q req) = req_q req) as Htrim.
  { rewrite Hq. apply tidy_trim, sanitised_tidy. }
  apply normalizeSearchOptions_Ok in Hn as (a & b & Ho & Ha & Hb & Hlt & _).
  exists a, b. rewrite Ho. split; [done|]. split; [done|].
  intros Hs.
  assert (TimeClip serverNow = Some serverNow) as Hnow.
  { apply TimeClip_in_range. apply TimeClip_Some in Ha as [_ Ha]. lia. }
  unfold sanitizeQuery. cbn [fetchViaProxy_query query_publishedAfter query_publishedBefore
    mbind option_bind Opts.publishedAfter Opts.publishedBefore Opts.with_window].
  rewrite (normalizeProxyWindow_kept serverNow a b Ha Hb Hnow) by lia.
  eexists. split; [reflexivity|].
  cbn [p_q query_q str_or fetchViaProxy_query]. rewrite decide_False by done. rewrite Htrim.
  split; [done|]. split; [done|].
  assert (str_or (Some pageSize) "" = pageSize) as Hsize
    by (unfold str_or; by case_decide as Hz; [rewrite Hz|]).
  split.
  { intros n Hn ->. cbn [searchRequestOf ys_maxResults p_maxResults query_maxResults
      fetchViaProxy_query]. rewrite Hsize. by apply client_page_size_kept. }
  split.
  { intros Hd. cbn [searchRequestOf ys_maxResults p_maxResults query_maxResults
      fetchViaProxy_query]. rewrite Hsize. by apply server_maxResults_default. }
  unfold searchRequestOf.
  cbn [p_q p_pageToken p_videoCategoryId p_videoDuration p_videoSyndicated p_order
       p_maxResults p_publishedAfter p_publishedBefore fetchViaProxy_query
       query_q query_pageToken query_videoCategoryId query_videoDuration
       query_videoSyndicated query_order query_maxResults dateText
       mbind option_bind Opts.order Opts.maxResults Opts.videoCategoryId Opts.videoDuration
       Opts.videoSyndicated Opts.with_window].
  set (o := default Opts.empty opts).
  f_equal.
  - by rewrite Hsize.
  - apply whenSet_or_null.
  - assert (str_or (Some (orderText (default OrderDate (Opts.order o)))) ""
            = orderText (default OrderDate (Opts.order o))) as ->
      by (by destruct (default OrderDate (Opts.order o))).
    rewrite client_order_kept. apply whenSet_nonempty.
    by destruct (default OrderDate (Opts.order o)).
  - apply whenSet_nonempty, isoText_nonempty.
  - apply whenSet_nonempty, isoText_nonempty.
  - f_equal. f_equal. unfold str_or, or_null.
    destruct (Opts.videoCategoryId o) as [s|]; [|done].
    destruct (decide (s = "")) as [->|?]; [done|]. by rewrite decide_False.
  - destruct (Opts.videoDuration o) as [[]|]; done.
  - destruct (default false (Opts.videoSyndicated o)); done.
Qed.

Lemma proxy_forwards_client_request_witness :
  prepare (host := utc_host) sample_env jan_2026 "ai music" None (Some january_options)
    = Ok sample_request ∧
  ∃ a b,
    Opts.publishedAfter (req_opts sample_request) = Some (Iso a) ∧
    Opts.publishedBefore (req_opts sample_request) = Some (Iso b).
Proof.
  assert (prepare (host := utc_host) sample_env jan_2026 "ai music" None (Some january_options)
          = Ok sample_request) as Hp by (by vm_compute).
  split; [exact Hp|].
  destruct (proxy_forwards_client_request sample_env jan_2026 "ai music" None
              (Some january_options) sample_request "30" feb_2026 "k" Hp)
    as (a & b & Ha & Hb & _).
  exists a, b. split; [exact Ha | exact Hb].
Defined.

(** The request of the sample, with a whole page size and with one that has
    a fraction. *)
Example proxy_forwards_sample :
  fetchViaProxy_query "ai music" None (Some january_options) "30" = sample_query ∧
  (p ← match sanitizeQuery feb_2026 sample_query with
       | Ok p => Some p | Throw _ => None end;
   Some (ys_maxResults (searchRequestOf "k" p), ys_publishedBefore (searchRequestOf "k" p)))
  = Some ("30", Some "2026-02-01T00:00:00.000Z") ∧
  (p ← match sanitizeQuery feb_2026
               (fetchViaProxy_query "ai music" None (Some january_options) "12.5") with
       | Ok p => Some p | Throw _ => None end;
   Some (ys_maxResults (searchRequestOf "k" p)))
  = Some "24".
Proof. by vm_compute. Qed.

(** ** The page size the proxy asks for *)

(** [parseInt] of a text of digits is a number, and not a negative one. *)
Lemma parseInt_allDigits s : allDigits s = true → ∃ v, parseInt s = Some v.
Proof.
  unfold allDigits. intros [Hne Hall]%andb_true_iff.
  destruct s as [|c s]; [done|]. simpl in Hall.
  apply andb_true_iff in Hall as [Hc _].
  destruct (isDigit_plain c Hc) as (Hws & Hm & Hp).
  unfold parseInt. simpl trimStart. rewrite Hws.
  assert ((let '(neg, s2) :=
             match String c s with
             | String "-"%char r => (true, r)
             | String "+"%char r => (false, r)
             | _ => (false, String c s)
             end in (neg, s2)) = (false, String c s)) as Hsign.
  { destruct c as [[] [] [] [] [] [] [] []]; try done. }
  destruct (match String c s with
            | String "-"%char r => (true, r)
            | String "+"%char r => (false, r)
            | _ => (false, String c s)
            end) as [neg s2].
  injection Hsign as -> ->.
  pose proof (digitsPrefix_count (10 * 0 + (code c - 48)) 1 s) as Hcount.
  simpl digitsPrefix. rewrite Hc.
  destruct (digitsPrefix _ 1 s) as [v n]. simpl in Hcount.
  destruct n as [|n]; [lia|]. by eexists.
Qed.

(** X11. The proxy asks YouTube for 1 to 50 results. Whatever text the
    [maxResults] parameter holds, the page size of the search request the
    proxy builds is the decimal text of a number from 1 to 50: the
    parameter clamped to that range when it is a text of digits, and 24
    otherwise. *)
Theorem server_page_size_bounded (apiKey : string) (p : Params) :
  ∃ n, 1 ≤ n ≤ 50 ∧
       ys_maxResults (searchRequestOf apiKey p) = Number_toString n ∧
       (allDigits (p_maxResults p) = false → n = 24) ∧
       (∀ v, allDigits (p_maxResults p) = true → parseInt (p_maxResults p) = Some v →
             n = Z.max 1 (Z.min 50 v)).
Proof.
  simpl. unfold server_maxResults.
  destruct (allDigits (p_maxResults p)) eqn:Hd.
  - assert (p_maxResults p ≠ "") as Hne.
    { unfold allDigits in Hd. apply andb_true_iff in Hd as [Hd _].
      by apply negb_true_iff, bool_decide_eq_false in Hd. }
    rewrite bool_decide_eq_false_2 by done. simpl.
    destruct (parseInt_allDigits _ Hd) as [v Hv]. rewrite Hv.
    exists (Z.max 1 (Z.min 50 v)). split; [lia|]. split; [done|].
    split; [done|]. intros v' _ [= <-]. done.
  - rewrite andb_false_r. exists 24. split; [lia|]. split; [done|]. split; [done|]. done.
Qed.

Example page_sizes :
  map server_maxResults ["30"; "0"; "500"; "abc"; ""; "-3"; "12.5"; "007"]
  = ["30"; "1"; "50"; "24"; "24"; "24"; "24"; "7"].
Proof. by vm_compute. Qed.

(** ** The response cache of the proxy *)

(** An entry is read back until its time is over, and deleted at the first
    read after that. *)
Lemma getCache_setCache ttl later now key data c :
  getCache now key (setCache ttl later key data c)
  = if num_lt (expiryOf ttl later) (Some now) then (None, delete key c)
    else (Some data, setCache ttl later key data c).
Proof.
  unfold getCache, setCache. rewrite lookup_insert_eq. simpl.
  destruct (num_lt _ _); [|done]. by rewrite delete_insert_eq.
Qed.

Lemma getCache_None_subseteq now key c c' :
  getCache now key c = (None, c') → c' ⊆ c.
Proof.
  unfold getCache. destruct (c !! key) as [e|]; [|by intros [= <-]].
  destruct (num_lt _ _); [|done]. intros [= <-]. apply delete_subseteq.
Qed.

(** A fresh answer of the handler, taken apart. *)
Lemma handleSearch_fresh env now later query yt db_ok st payload calls st1 :
  handleSearch env now later query yt db_ok st
  = ({| http_status := 200; http_body := PayloadBody payload |}, calls, st1) →
  cached payload = None →
  trim (str_or (query_q query) "") ≠ "" ∧ apiKeyOf env query ≠ "" ∧
  ∃ p cache1,
    sanitizeQuery now query = Ok p ∧
    getCache now (cacheKeyOf p) (cache st) = (None, cache1) ∧
    fetchPayload (MAX_ALLOWED_AGE (SERVER_MAX_ALLOWED_AGE env)) yt (apiKeyOf env query) p
      = (AxiosOk payload, calls) ∧
    cache st1 = setCache (cacheTtlSeconds env) later (cacheKeyOf p) payload cache1.
Proof.
  unfold handleSearch. case_decide as Hq; [done|]. case_decide as Hk; [done|].
  destruct (sanitizeQuery now query) as [p|m]; [|done].
  destruct (getCache now (cacheKeyOf p) (cache st)) as [[c|] cache1] eqn:Hg.
  - intros [= <- <- <-]. done.
  - destruct (fetchPayload _ yt _ p) as [[pl|s] cs] eqn:Hf; [|done].
    intros [= <- <- <-] _. split; [done|]. split; [done|]. by exists p, cache1.
Qed.

Lemma fetchPayload_calls maxAge yt apiKey p :
  ∃ rest, (fetchPayload maxAge yt apiKey p).2 = CallSearch (searchRequestOf apiKey p) :: rest.
Proof.
  unfold fetchPayload. destruct (api_search yt _) as [data|s]; [|by eexists].
  destruct (bool_decide (omap _ (sd_items data) = [])); simpl.
  - destruct (bool_decide (distinct [] _ = [])); simpl; [by eexists|].
    destruct (api_channels yt _); by eexists.
  - destruct (api_videos yt _); [|by eexists].
    destruct (bool_decide (distinct [] _ = [])); simpl; [by eexists|].
    destruct (api_channels yt _); by eexists.
Qed.

(** X12. The proxy replays a cached payload until its time is over. After
    the handler has answered a search with a fresh payload, a request that
    is sanitised to the same parameters is answered with that payload marked
    as cached, without a request to the API and without a change of state,
    as long as the clock has not passed the time of caching plus
    [CACHE_TTL_SECONDS] (for ever when that setting is not a number); once
    the clock has passed it, the handler goes to the API again. *)
Theorem proxy_cache_replay (env : ServerEnv) (now later : Z) (query : Query) (yt : YouTubeApi)
    (db_ok : bool) (st st1 : ServerState) (calls : list UpstreamCall)
    (payload : SearchResponse) (p : Params) :
  handleSearch env now later query yt db_ok st
    = ({| http_status := 200; http_body := PayloadBody payload |}, calls, st1) →
  cached payload = None →
  sanitizeQuery now query = Ok p →
  ∀ (now2 later2 : Z) (yt2 : YouTubeApi) (db2 : bool),
    sanitizeQuery now2 query = Ok p →
    ((∀ ttl, cacheTtlSeconds env = Some ttl → now2 ≤ later + ttl * 1000) →
       handleSearch env now2 later2 query yt2 db2 st1
       = ({| http_status := 200; http_body := PayloadBody (mark_cached payload) |}, [], st1)) ∧
    (∀ ttl, cacheTtlSeconds env = Some ttl → later + ttl * 1000 < now2 →
       ∃ rest, (handleSearch env now2 later2 query yt2 db2 st1).1.2
               = CallSearch (searchRequestOf (apiKeyOf env query) p) :: rest).
Proof.
  intros Hh Hfresh Hp now2 later2 yt2 db2 Hp2.
  destruct (handleSearch_fresh _ _ _ _ _ _ _ _ _ _ Hh Hfresh)
    as (Hq & Hk & p' & cache1 & Hp' & Hg & Hf & Hc).
  rewrite Hp in Hp'. injection Hp' as <-.
  unfold handleSearch. rewrite decide_False by done. rewrite decide_False by done.
  rewrite Hp2, Hc, getCache_setCache.
  split.
  - intros Hlive.
    assert (num_lt (expiryOf (cacheTtlSeconds env) later) (Some now2) = false) as ->.
    { destruct (cacheTtlSeconds env) as [ttl|]; [|done]. simpl.
      apply Z.ltb_ge. by apply Hlive. }
    f_equal. destruct st1 as [c1 s1]. simpl in *. by rewrite Hc.
  - intros ttl Httl Hover.
    assert (num_lt (expiryOf (cacheTtlSeconds env) later) (Some now2) = true) as ->.
    { rewrite Httl. simpl. apply Z.ltb_lt. lia. }
    destruct (fetchPayload_calls (MAX_ALLOWED_AGE (SERVER_MAX_ALLOWED_AGE env)) yt2
                (apiKeyOf env query) p) as [rest Hrest].
    exists rest.
    destruct (fetchPayload _ yt2 _ p) as [[pl|s] cs]; simpl in *; by rewrite Hrest.
Qed.

Example sample_handled :
  ∃ payload st1,
    handleSearch sample_server_env feb_2026 (feb_2026 + 500) sample_query sample_api true
      empty_server
    = ({| http_status := 200; http_body := PayloadBody payload |},
       [CallSearch (searchRequestOf "server-key"
          {| p_q := "ai music"; p_pageToken := ""; p_videoCategoryId := "";
             p_videoDuration := ""; p_videoSyndicated := ""; p_order := "date";
             p_maxResults := "30"; p_publishedAfter := "2026-01-01T00:00:00.000Z";
             p_publishedBefore := "2026-02-01T00:00:00.000Z" |});
        CallVideos ["v1"; "v2"]; CallChannels ["c1"]], st1) ∧
    cached payload = None ∧ map videoId (items payload) = [Some "v1"] ∧
    searchEntries st1 = ["ai music"].
Proof.
  destruct (handleSearch sample_server_env feb_2026 (feb_2026 + 500) sample_query sample_api
              true empty_server) as [[[status body] calls] st1] eqn:Hh.
  vm_compute in Hh. injection Hh as <- <- <- <-.
  eexists _, _. split; [reflexivity|]. by vm_compute.
Qed.

Lemma proxy_cache_replay_witness :
  ∃ payload calls st1,
    handleSearch sample_server_env feb_2026 (feb_2026 + 500) sample_query sample_api true
      empty_server
    = ({| http_status := 200; http_body := PayloadBody payload |}, calls, st1) ∧
    cached payload = None ∧
    handleSearch sample_server_env (feb_2026 + 1000) (feb_2026 + 1500) sample_query failing_api
      true st1
    = ({| http_status := 200; http_body := PayloadBody (mark_cached payload) |}, [], st1).
Proof.
  destruct (handleSearch sample_server_env feb_2026 (feb_2026 + 500) sample_query sample_api
              true empty_server) as [[[status body] calls] st1] eqn:Hh.
  pose proof Hh as Hh0. vm_compute in Hh0. injection Hh0 as <- <- <- <-.
  eexists _, _, _. split; [reflexivity|]. split; [reflexivity|].
  refine (proj1 (proxy_cache_replay sample_server_env feb_2026 (feb_2026 + 500) sample_query
                   sample_api true empty_server _ _ _ _ Hh eq_refl _
                   (feb_2026 + 1000) (feb_2026 + 1500) failing_api true _) _).
  - vm_compute. reflexivity.
  - vm_compute. reflexivity.
  - intros ttl Httl. vm_compute in Httl. injection Httl as <-. vm_compute. discriminate.
Defined.

(** ** The answers of the proxy *)

Lemma outStatus_range s : 400 ≤ outStatus s < 500 ∨ outStatus s = 502.
Proof.
  unfold outStatus.
  destruct (Z.leb_spec 400 s), (Z.ltb_spec s 500); simpl; lia.
Qed.

Lemma fetchPayload_length maxAge yt apiKey p :
  (List.length (fetchPayload maxAge yt apiKey p).2 ≤ 3)%nat.
Proof.
  unfold fetchPayload. destruct (api_search yt _) as [data|s]; [|simpl; lia].
  destruct (bool_decide (omap _ (sd_items data) = [])); simpl.
  - destruct (bool_decide (distinct [] _ = [])); simpl; [lia|].
    destruct (api_channels yt _); simpl; lia.
  - destruct (api_videos yt _); [|simpl; lia].
    destruct (bool_decide (distinct [] _ = [])); simpl; [lia|].
    destruct (api_channels yt _); simpl; lia.
Qed.

(** X13. The answers of the search handler. Every answer is either a 200
    with a payload, or an error: 400 for a missing query or key, the 4xx
    status the API answered with, or 502 for any other failure. An error
    stores nothing: the table of recent searches is as before and the cache
    holds no entry it did not hold. A request without a query is refused
    before anything else happens, and no request makes more than three
    requests to the API. *)
Theorem proxy_answers (env : ServerEnv) (now later : Z) (query : Query) (yt : YouTubeApi)
    (db_ok : bool) (st : ServerState) :
  let r := handleSearch env now later query yt db_ok st in
  ((http_status r.1.1 = 200 ∧ ∃ payload, http_body r.1.1 = PayloadBody payload) ∨
   ((400 ≤ http_status r.1.1 < 500 ∨ http_status r.1.1 = 502) ∧
    (∀ payload, http_body r.1.1 ≠ PayloadBody payload) ∧
    searchEntries r.2 = searchEntries st ∧ cache r.2 ⊆ cache st)) ∧
  (trim (str_or (query_q query) "") = "" →
     r = ({| http_status := 400; http_body := ErrorBody "q is required" |}, [], st)) ∧
  (List.length r.1.2 ≤ 3)%nat.
Proof.
  intros r. subst r. unfold handleSearch.
  case_decide as Hq.
  { simpl. split; [right; split; [lia|done] | split; [done|lia]]. }
  split; [|split; [done|]].
  - case_decide as Hk.
    { simpl. right. split; [lia|done]. }
    destruct (sanitizeQuery now query) as [p|m].
    2:{ simpl. right. split; [apply outStatus_range | done]. }
    destruct (getCache now (cacheKeyOf p) (cache st)) as [[c|] cache1] eqn:Hg.
    { simpl. left. split; [done | by eexists]. }
    apply getCache_None_subseteq in Hg.
    destruct (fetchPayload _ yt _ p) as [[pl|s] cs]; simpl.
    + left. split; [done | by eexists].
    + right. split; [apply outStatus_range | done].
  - case_decide as Hk; [simpl; lia|].
    destruct (sanitizeQuery now query) as [p|m]; [|simpl; lia].
    destruct (getCache now (cacheKeyOf p) (cache st)) as [[c|] cache1]; [simpl; lia|].
    pose proof (fetchPayload_length (MAX_ALLOWED_AGE (SERVER_MAX_ALLOWED_AGE env)) yt
                  (apiKeyOf env query) p) as Hlen.
    destruct (fetchPayload _ yt _ p) as [[pl|s] cs]; simpl in *; lia.
Qed.

Example quota_error_passed_on :
  let r := handleSearch sample_server_env feb_2026 (feb_2026 + 500) sample_query failing_api
             true empty_server in
  r.1.1 = {| http_status := 403; http_body := UpstreamErrorBody 403 |} ∧ r.2 = empty_server.
Proof. by vm_compute. Qed.


(** ** The category rows *)




Lemma ROWS_NoDup : NoDup ROWS.
Proof. apply (bool_decide_unpack _). by vm_compute. Qed.

Lemma row_lookup pool row l :
  (row, l) ∈ [ ("Top Most Views", topViews pool);
               ("Top 10 of Newest", newest pool);
               ("Music", (music (foldl classify noBuckets pool)).1);
               ("Sports", (sports (foldl classify noBuckets pool)).1);
               ("Kids", (kids (foldl classify noBuckets pool)).1);
               ("News", (news (foldl classify noBuckets pool)).1);
               ("Entertainment", (entertainment (foldl classify noBuckets pool)).1);
               ("Educational", (educational (foldl classify noBuckets pool)).1) ] →
  computeCategoriesPool pool !! row = Some l.
Proof.
  intros Hin. unfold computeCategoriesPool.
  apply elem_of_list_to_map_1; [|done]. exact ROWS_NoDup.
Qed.




Example dated_pool_rows :
  (map videoId <$> computeCategoriesPool dated_pool !! "Music") = Some [Some "a"] ∧
  (map title <$> computeCategoriesPool dated_pool !! "Music") = Some [Some "Lullaby SONG"] ∧
  (map videoId <$> computeCategoriesPool dated_pool !! "Sports") = Some [Some "b"] ∧
  (map videoId <$> computeCategoriesPool dated_pool !! "Kids") = Some [Some "a"] ∧
  (map videoId <$> computeCategoriesPool dated_pool !! "News") = Some [Some "c"] ∧
  (map videoId <$> computeCategoriesPool dated_pool !! "Educational")
    = Some [Some "a"; Some "b"; Some "c"] ∧
  (map videoId <$> computeCategoriesPool dated_pool !! "Top 10 of Newest")
    = Some [Some "a"; Some "c"; Some "a"; Some "b"].
Proof. by vm_compute. Qed.

(** ** The row of the newest *)

Lemma byNewest_order a b :
  is_Some (publishedOf a) → is_Some (publishedOf b) →
  SortCompare byNewest a b ≤ 0 ↔ publishedOrEpoch b ≤ publishedOrEpoch a.
Proof.
  intros [pa Ha] [pb Hb]. unfold SortCompare, byNewest, publishedOrEpoch.
  rewrite Ha, Hb. simpl. lia.
Qed.

#[local] Instance newest_trans :
  Transitive (λ a b : VideoItem, publishedOrEpoch b ≤ publishedOrEpoch a).
Proof. intros a b c. lia. Qed.

(** X15. The row of the newest. When the publication dates of the pool
    parse (a missing date counts as the epoch), the row "Top 10 of Newest"
    holds the first ten videos of the pool arranged by date of publication,
    the latest first: it has ten videos, or all of them when the pool is
    smaller, it is in descending order of date, and no video left out is
    later than a video of the row. Videos are not deduplicated for this
    row. *)
Theorem newest_row (pool : list VideoItem) :
  Forall (λ v, is_Some (publishedOf v)) pool →
  computeCategoriesPool pool !! "Top 10 of Newest" = Some (newest pool) ∧
  List.length (newest pool) = Nat.min 10 (List.length pool) ∧
  newest_first (newest pool) ∧
  ∃ rest, newest pool ++ rest ≡ₚ pool ∧
          ∀ a b, a ∈ newest pool → b ∈ rest → publishedOrEpoch b ≤ publishedOrEpoch a.
Proof.
  intros Hd.
  assert (StronglySorted (λ a b, publishedOrEpoch b ≤ publishedOrEpoch a)
            (Array_sort byNewest pool)) as Hs.
  { apply (Array_sort_sorted _ _ (λ v, is_Some (publishedOf v))); [|lia|done].
    intros x y Hx Hy. by apply byNewest_order. }
  pose proof (Array_sort_perm byNewest pool) as Hperm.
  split; [apply row_lookup; set_solver|].
  unfold newest, newest_first. split; [|split].
  - rewrite length_take. by rewrite (Permutation_length Hperm).
  - rewrite <- (take_drop 10 (Array_sort byNewest pool)) in Hs.
    by apply StronglySorted_app_1_l in Hs.
  - exists (drop 10 (Array_sort byNewest pool)). split.
    + by rewrite take_drop.
    + intros a b Ha Hb.
      rewrite <- (take_drop 10 (Array_sort byNewest pool)) in Hs.
      by apply (StronglySorted_app_1_elem_of _ _ _ _ _ Hs).
Qed.

Lemma newest_row_witness :
  Forall (λ v, is_Some (publishedOf v)) dated_pool ∧
  List.length (newest dated_pool) = Nat.min 10 (List.length dated_pool) ∧
  newest_first (newest dated_pool).
Proof.
  assert (Forall (λ v, is_Some (publishedOf v)) dated_pool) as Hd.
  { repeat constructor; by eexists. }
  split; [exact Hd|].
  destruct (newest_row dated_pool Hd) as (_ & Hlen & Hs & _).
  split; [exact Hlen | exact Hs].
Defined.

(** ** The pool holds no video twice *)

Lemma idsOf_app l1 l2 : idsOf (l1 ++ l2) = idsOf l1 ++ idsOf l2.
Proof. unfold idsOf. apply omap_app. Qed.

Lemma elem_of_idsOf vid l : vid ∈ idsOf l ↔ ∃ v, v ∈ l ∧ videoId v = Some vid.
Proof. unfold idsOf. rewrite list_elem_of_omap. naive_solver. Qed.

Lemma idsOf_sublist l1 l2 : l1 `sublist_of` l2 → idsOf l1 `sublist_of` idsOf l2.
Proof.
  unfold idsOf. induction 1 as [|x l1 l2 Hsub IH|x l1 l2 Hsub IH]; simpl; [done| |].
  - destruct (videoId x); [by constructor | done].
  - destruct (videoId x); [by constructor | done].
Qed.

(** The new items of a response that holds no video twice: no id twice,
    none displayed before, each with an id. *)
Lemma new_items_ok seen l :
  NoDup (idsOf l) →
  NoDup (idsOf (List.filter (isNewItem seen) l)) ∧
  Forall (λ v, ∃ vid, videoId v = Some vid ∧ vid ≠ "") (List.filter (isNewItem seen) l) ∧
  ∀ vid, vid ∈ idsOf (List.filter (isNewItem seen) l) → vid ∉ seen.
Proof.
  intros Hnd. split; [|split].
  - refine (sublist_NoDup _ (idsOf l) Hnd _). apply idsOf_sublist, List_filter_sublist.
  - apply Forall_forall. intros v [_ Hv]%elem_of_List_filter.
    unfold isNewItem in Hv. destruct (videoId v) as [vid|]; [|done].
    exists vid. split; [done|]. apply andb_true_iff in Hv as [Hv _].
    by apply negb_true_iff, bool_decide_eq_false in Hv.
  - intros vid (v & [_ Hv]%elem_of_List_filter & Hid)%elem_of_idsOf.
    apply isNewItem_spec in Hv as (vid' & Hid' & Hnot). congruence.
Qed.

(** Appending new items keeps the pool in order. *)
Lemma pool_extend (pool its : list VideoItem) (seen : gset string) :
  NoDup (idsOf pool) →
  Forall (λ v, ∃ vid, videoId v = Some vid ∧ vid ≠ "") pool →
  (∀ vid, vid ∈ idsOf pool → vid ∈ seen) →
  NoDup (idsOf its) →
  Forall (λ v, ∃ vid, videoId v = Some vid ∧ vid ≠ "") its →
  (∀ vid, vid ∈ idsOf its → vid ∉ seen) →
  NoDup (idsOf (pool ++ its)) ∧
  Forall (λ v, ∃ vid, videoId v = Some vid ∧ vid ≠ "") (pool ++ its) ∧
  ∀ vid, vid ∈ idsOf (pool ++ its) → vid ∈ addIds seen its.
Proof.
  intros Hnd Hv Hin Hnd' Hv' Hnew. rewrite idsOf_app. split; [|split].
  - apply NoDup_app. split; [done|]. split; [|done].
    intros vid H1 H2. by apply (Hnew vid H2), Hin.
  - by apply Forall_app.
  - intros vid [H|H]%elem_of_app; apply addIds_spec.
    + left. by apply Hin.
    + right. by apply elem_of_idsOf.
Qed.

Section PoolFacts.
Context {host : Host}.

Lemma initialFetch_ok fetch afterIso beforeIso keywords i pool seen counters :
  distinct_responses fetch →
  NoDup (idsOf pool) →
  Forall (λ v, ∃ vid, videoId v = Some vid ∧ vid ≠ "") pool →
  (∀ vid, vid ∈ idsOf pool → vid ∈ seen) →
  let r := initialFetch fetch afterIso beforeIso keywords i pool seen counters in
  NoDup (idsOf r.1.1) ∧
  Forall (λ v, ∃ vid, videoId v = Some vid ∧ vid ≠ "") r.1.1 ∧
  pool `prefix_of` r.1.1.
Proof.
  intros Hf. revert i pool seen counters.
  induction keywords as [|kw rest IH]; intros i pool seen counters Hnd Hv Hin; simpl.
  { done. }
  destruct (fetch i kw _) as [resp|m] eqn:Hresp; [|by apply IH].
  destruct (new_items_ok seen (items resp) (Hf _ _ _ _ Hresp)) as (Hnd' & Hv' & Hnew).
  destruct (pool_extend pool _ seen Hnd Hv Hin Hnd' Hv' Hnew) as (H1 & H2 & H3).
  destruct (IH (S i) _ _ (<[kw := 1]> counters) H1 H2 H3) as (H4 & H5 & H6).
  split; [done|]. split; [done|].
  etrans; [|exact H6]. by apply prefix_app_r.
Qed.

Lemma windowLoop_distinct fetch clock oldest seen kw remaining attempts counter counters its
    counters' :
  distinct_responses fetch →
  windowLoop fetch clock oldest seen kw remaining attempts counter counters = (Ok its, counters') →
  NoDup (idsOf its) ∧
  Forall (λ v, ∃ vid, videoId v = Some vid ∧ vid ≠ "") its ∧
  ∀ vid, vid ∈ idsOf its → vid ∉ seen.
Proof.
  intros Hf. revert attempts counter counters.
  induction remaining as [|n IH]; intros attempts counter counters; simpl.
  - intros [= <- _]. split; [constructor|]. split; [constructor|]. by intros ? ?%elem_of_nil.
  - destruct (computeNextMonthWindow _ _ _) as [[after before]|m]; [|done].
    destruct (fetch _ _ _) as [resp|m] eqn:Hresp; [|done].
    destruct (0 <? _).
    + intros [= <- _]. apply new_items_ok. by eapply Hf.
    + apply IH.
Qed.

#[local] Opaque MONTH_CAP.

Lemma loadMoreForAny_pool fetch clock st :
  distinct_responses fetch → pool_ok st →
  pool_ok (loadMoreForAny fetch clock st).2 ∧
  allVideos st `prefix_of` allVideos (loadMoreForAny fetch clock st).2.
Proof.
  intros Hf (Hnd & Hv & Hin). unfold loadMoreForAny.
  destruct (loadingMoreRef st); [by split|].
  unfold fetchNextMonthWindowGlobal.
  destruct (AI_KEYWORDS !! _) as [kw|]; [|by split].
  cbn [keywordIndex monthsBackCounter oldestPublishedDate globalDisplayedIds
       set_loadingMoreRef].
  destruct (windowLoop _ _ _ _ _ _ _ _ _) as [[its|m] counters] eqn:Hloop; [|by split].
  destruct (windowLoop_distinct _ _ _ _ _ _ _ _ _ _ _ Hf Hloop) as (Hnd' & Hv' & Hnew).
  destruct (0 <? _); [|by split].
  destruct (pool_extend _ _ _ Hnd Hv Hin Hnd' Hv' Hnew) as (H1 & H2 & H3).
  split; [by split|]. simpl. by apply prefix_app_r.
Qed.

#[local] Transparent MONTH_CAP.

Lemma loadMoreRun_pool loads st :
  Forall (λ l, distinct_responses l.1) loads → pool_ok st →
  pool_ok (loadMoreRun loads st).2 ∧ allVideos st `prefix_of` allVideos (loadMoreRun loads st).2.
Proof.
  revert st. induction loads as [|[fetch clock] rest IH]; intros st Hfs Hok; simpl; [done|].
  apply Forall_cons in Hfs as [Hf Hfs].
  destruct (loadMoreForAny_pool fetch clock st Hf Hok) as [Hok1 Hpre1].
  destruct (loadMoreForAny fetch clock st) as [b st1]. simpl in *.
  destruct (IH st1 Hfs Hok1) as [Hok2 Hpre2].
  destruct (loadMoreRun rest st1) as [bs st2]. simpl in *.
  split; [done|]. by etrans.
Qed.

End PoolFacts.

(** X16. The pool holds no video twice. When no response of the search
    holds a video twice (the direct fetch never returns one twice), the
    pool that the initial load builds from the four keywords, and that any
    number of incremental loads extend, holds every video id at most once;
    each of its videos carries an id, the ids of the pool are recorded as
    displayed, and the incremental loads only append to the pool. A keyword
    whose fetch fails is skipped, the others are still loaded. *)
Theorem pool_never_repeats {host : Host} (first : Fetcher) (now : Z)
    (loads : list (Fetcher * (nat → Z))) (st : AppState) :
  distinct_responses first →
  Forall (λ l, distinct_responses l.1) loads →
  initialLoad first now false initialApp = Ok st →
  pool_ok st ∧
  pool_ok (loadMoreRun loads st).2 ∧
  allVideos st `prefix_of` allVideos (loadMoreRun loads st).2.
Proof.
  intros Hf Hfs Hinit.
  assert (pool_ok st) as Hok.
  { unfold initialLoad in Hinit.
    destruct (toISOString (setMonth _ _)) as [afterIso|]; [|done].
    destruct (toISOString (Date_now now)) as [beforeIso|]; [|done].
    cbn [Result_bind] in Hinit.
    pose proof (initialFetch_ok first afterIso beforeIso AI_KEYWORDS 0 [] ∅
                  (monthsBackCounter initialApp) Hf (NoDup_nil_2) (Forall_nil_2 _)) as Hfetch.
    destruct (initialFetch first afterIso beforeIso AI_KEYWORDS 0 [] ∅
                (monthsBackCounter initialApp)) as [[pool seen] counters].
    destruct Hfetch as (Hnd & Hv & _); [by intros ? ?%elem_of_nil|].
    simpl in Hinit, Hnd, Hv. injection Hinit as <-. split; [done|]. split; [done|]. simpl.
    intros vid (v & Hv' & Hid)%elem_of_idsOf. apply addIds_spec. right. eauto. }
  split; [done|]. by apply loadMoreRun_pool.
Qed.

Example same_two_loaded :
  (λ st, (map videoId (allVideos st), monthsBackCounter st !! "ai song"))
    <$> (match initialLoad (host := utc_host) fetch_same_two feb_2026 false initialApp with
         | Ok st => Some st
         | Throw _ => None
         end)
  = Some ([Some "p"; Some "q"], Some 1).
Proof. by vm_compute. Qed.

Lemma pool_never_repeats_witness :
  distinct_responses fetch_same_two ∧
  ∃ st, initialLoad (host := utc_host) fetch_same_two feb_2026 false initialApp = Ok st ∧
        pool_ok (loadMoreRun (host := utc_host) [(fetch_same_two, λ _ : nat, feb_2026)] st).2.
Proof.
  assert (distinct_responses fetch_same_two) as Hf.
  { intros i kw o resp [= <-]. simpl. apply (bool_decide_unpack _). by vm_compute. }
  split; [exact Hf|].
  destruct (initialLoad (host := utc_host) fetch_same_two feb_2026 false initialApp)
    as [st|] eqn:Hinit; [|by vm_compute in Hinit].
  exists st. split; [reflexivity|].
  assert (Forall (λ l : Fetcher * (nat → Z), distinct_responses l.1)
            [(fetch_same_two, λ _ : nat, feb_2026)]) as Hfs.
  { constructor; [exact Hf | constructor]. }
  exact (proj1 (proj2 (pool_never_repeats fetch_same_two feb_2026
                         [(fetch_same_two, λ _ : nat, feb_2026)] st Hf Hfs Hinit))).
Defined.

(** ** The shuffle *)

Lemma insert_swap_perm {A} (a : list A) (j : nat) (x y : A) :
  a !! j = Some y → y :: <[j := x]> a ≡ₚ x :: a.
Proof.
  revert j. induction a as [|h a IH]; intros j Hj; [done|].
  destruct j as [|j]; simpl in *.
  - injection Hj as ->. apply perm_swap.
  - rewrite (perm_swap h y), (IH j Hj). apply perm_swap.
Qed.

Lemma swap_lt_perm {A} (a : list A) (i j : nat) (x y : A) :
  (i < j)%nat → a !! i = Some x → a !! j = Some y → <[i := y]> (<[j := x]> a) ≡ₚ a.
Proof.
  revert a j. induction i as [|i IH]; intros a j Hlt Hi Hj.
  - destruct a as [|h a]; [done|]. destruct j as [|j]; [lia|]. simpl in *.
    injection Hi as ->. by apply insert_swap_perm.
  - destruct a as [|h a]; [done|]. destruct j as [|j]; [lia|]. simpl in *.
    f_equiv. apply IH; [lia|done..].
Qed.

Lemma swap_perm {A} (a : list A) (i j : nat) : swap a i j ≡ₚ a.
Proof.
  unfold swap. destruct (a !! i) as [x|] eqn:Hi; [|done].
  destruct (a !! j) as [y|] eqn:Hj; [|done].
  destruct (lt_eq_lt_dec i j) as [[Hlt|Heq]|Hgt].
  - by apply swap_lt_perm.
  - subst j. rewrite Hi in Hj. injection Hj as <-.
    by rewrite list_insert_insert_eq, list_insert_id.
  - rewrite list_insert_insert_ne by lia. by apply swap_lt_perm.
Qed.

Lemma shuffle_loop_perm {A} pick i (a : list A) : shuffle_loop pick i a ≡ₚ a.
Proof.
  revert a. induction i as [|i IH]; intros a; simpl; [done|].
  by rewrite IH, swap_perm.
Qed.

Lemma swap_length {A} (a : list A) i j : List.length (swap a i j) = List.length a.
Proof.
  unfold swap. destruct (a !! i); [|done]. destruct (a !! j); [|done].
  by rewrite !length_insert.
Qed.

Lemma swap_lookup_top {A} (a : list A) i j y :
  (i < List.length a)%nat → a !! j = Some y → swap a i j !! i = Some y.
Proof.
  intros Hi Hj. unfold swap.
  destruct (lookup_lt_is_Some_2 a i Hi) as [x Hx]. rewrite Hx, Hj.
  apply list_lookup_insert_eq. by rewrite length_insert.
Qed.

Lemma swap_lookup_above {A} (a : list A) i j k :
  (i < k)%nat → (j < k)%nat → swap a i j !! k = a !! k.
Proof.
  intros Hi Hj. unfold swap. destruct (a !! i); [|done]. destruct (a !! j); [|done].
  rewrite !list_lookup_insert_ne by lia. done.
Qed.

(** The loop reads the draws at the indices it passes only. *)
Lemma shuffle_loop_ext {A} pick pick' i (a : list A) :
  (∀ k, (k ≤ i)%nat → pick k = pick' k) → shuffle_loop pick i a = shuffle_loop pick' i a.
Proof.
  revert a. induction i as [|i IH]; intros a Hk; simpl; [done|].
  rewrite (Hk (S i)) by lia. apply IH. intros k ?. apply Hk. lia.
Qed.

(** Two lists that agree from index 1 on and are rearrangements of one
    another are equal. *)
Lemma agree_above_0 {A} (a b : list A) :
  a ≡ₚ b → (∀ k, (0 < k)%nat → a !! k = b !! k) → a = b.
Proof.
  intros Hp Hk. destruct a as [|x a], b as [|y b].
  - done.
  - by apply Permutation_nil_cons in Hp.
  - symmetry in Hp. by apply Permutation_nil_cons in Hp.
  - assert (a = b) as ->.
    { apply list_eq. intros k. apply (Hk (S k)). lia. }
    f_equal. apply (Permutation_app_inv_r b [x] [y]) in Hp.
    by apply Permutation_singleton_inj in Hp.
Qed.

(** What has to come to index [i] is found at or below [i]. *)
Lemma find_below {A} (a target : list A) (i : nat) y :
  a ≡ₚ target → (∀ k, (i < k)%nat → a !! k = target !! k) → target !! i = Some y →
  ∃ j, (j ≤ i)%nat ∧ a !! j = Some y.
Proof.
  intros Hp Hk Hy.
  assert (drop (S i) a = drop (S i) target) as Hdrop.
  { apply list_eq. intros k. rewrite !lookup_drop. apply Hk. lia. }
  assert (take (S i) a ≡ₚ take (S i) target) as Htake.
  { apply (Permutation_app_inv_r (drop (S i) a)).
    rewrite take_drop, Hdrop, take_drop. done. }
  assert (y ∈ take (S i) target) as Hin.
  { apply list_elem_of_lookup. exists i. rewrite lookup_take_lt by lia. done. }
  rewrite <- Htake in Hin. apply list_elem_of_lookup in Hin as [j Hj].
  apply lookup_take_Some in Hj as [Hj Hlt]. exists j. split; [lia|done].
Qed.

Lemma shuffle_loop_reach {A} (i : nat) (a target : list A) :
  a ≡ₚ target → (∀ k, (i < k)%nat → a !! k = target !! k) →
  ∃ pick, (∀ k, (pick k ≤ k)%nat) ∧ shuffle_loop pick i a = target.
Proof.
  revert a. induction i as [|i IH]; intros a Hp Hk.
  - exists (λ _, 0%nat). split; [intros; lia|]. simpl. by apply agree_above_0.
  - destruct (target !! S i) as [y|] eqn:Hy.
    + destruct (find_below a target (S i) y Hp Hk Hy) as (j & Hj & Haj).
      assert (S i < List.length a)%nat as Hlen.
      { rewrite (Permutation_length Hp). by eapply lookup_lt_Some. }
      destruct (IH (swap a (S i) j)) as (pick' & Hpick' & Hloop).
      { by rewrite swap_perm. }
      { intros k Hlt. destruct (decide (k = S i)) as [->|Hne].
        - rewrite Hy. by apply swap_lookup_top.
        - rewrite swap_lookup_above by lia. apply Hk. lia. }
      exists (λ k, if decide (k = S i) then j else pick' k). split.
      * intros k. case_decide; [lia | apply Hpick'].
      * simpl. rewrite decide_True by done. rewrite <- Hloop.
        apply shuffle_loop_ext. intros k Hle. by rewrite decide_False by lia.
    + assert (a !! S i = None) as Ha.
      { apply lookup_ge_None. rewrite (Permutation_length Hp). by apply lookup_ge_None. }
      destruct (IH a Hp) as (pick' & Hpick' & Hloop).
      { intros k Hlt. destruct (decide (k = S i)) as [->|Hne]; [congruence|].
        apply Hk. lia. }
      exists pick'. split; [done|]. simpl. unfold swap. by rewrite Ha.
Qed.

(** X17. The shuffle rearranges and nothing else. With draws in range (the
    index drawn at [i] is at most [i], as [Math.floor(Math.random() * (i +
    1))] is), [shuffle] returns a list with the elements of its argument,
    each as often as it occurs there; and every arrangement of the argument
    is returned for some sequence of draws. *)
Theorem shuffle_rearranges {A} (pick : nat → nat) (arr : list A) :
  (∀ i, (pick i ≤ i)%nat) →
  shuffle pick arr ≡ₚ arr ∧
  List.length (shuffle pick arr) = List.length arr ∧
  ∀ target, target ≡ₚ arr →
    ∃ pick', (∀ i, (pick' i ≤ i)%nat) ∧ shuffle pick' arr = target.
Proof.
  intros _. unfold shuffle.
  pose proof (shuffle_loop_perm pick (List.length arr - 1) arr) as Hp.
  split; [done|]. split; [by rewrite (Permutation_length Hp)|].
  intros target Ht. apply shuffle_loop_reach; [done|].
  intros k Hlt. rewrite !(proj2 (lookup_ge_None _ _)); [done| |lia].
  rewrite (Permutation_length Ht). lia.
Qed.

Example shuffle_sample :
  shuffle (λ i, match i with 3 => 0 | 2 => 2 | _ => 0 end)%nat ["a"; "b"; "c"; "d"]
  = ["b"; "d"; "c"; "a"].
Proof. by vm_compute. Qed.

Lemma shuffle_rearranges_witness :
  (∀ i : nat, (0 ≤ i)%nat) ∧
  shuffle (λ _, 0%nat) ["a"; "b"; "c"; "d"] ≡ₚ ["a"; "b"; "c"; "d"].
Proof.
  assert (∀ i : nat, (0 ≤ i)%nat) as Hpick by (intros i; lia).
  split; [exact Hpick|].
  exact (proj1 (shuffle_rearranges (λ _, 0%nat) ["a"; "b"; "c"; "d"] Hpick)).
Defined.


(** ** Months of the calendar *)

(** The day of the era lies before the start of the next (March-based)
    year. *)
Lemma day_of_era_year_end doe :
  0 ≤ doe < 146097 →
  let yoe := (doe - doe / 1460 + doe / 36524 - doe / 146096) / 365 in
  doe < 365 * (yoe + 1) + (yoe + 1) / 4 - (yoe + 1) / 100 + (yoe + 1) / 400.
Proof. intros Hdoe yoe. subst yoe. zdiv. Qed.

Lemma month_start_eq n y c :
  n = 12 * y + c → 0 ≤ c < 12 → month_start n = days_from_civil y (c + 1) 1.
Proof.
  intros -> Hc. unfold month_start.
  replace ((12 * y + c) / 12) with y by zdiv.
  replace ((12 * y + c) mod 12) with c by zdiv. done.
Qed.

Lemma next_month_arith (era yoe doe doy q : Z) :
  0 ≤ yoe < 400 →
  doy = doe - (365 * yoe + yoe / 4 - yoe / 100) →
  doy < q →
  era * 146097 + doe - 719468
  < 365 * (yoe + era * 400) + (yoe + era * 400) / 4 - (yoe + era * 400) / 100
    + (yoe + era * 400) / 400 + q + 1 - 1 - 719468.
Proof. intros Hy -> Hq. zdiv. Qed.

Lemma next_year_arith (era yoe doe : Z) :
  doe < 365 * (yoe + 1) + (yoe + 1) / 4 - (yoe + 1) / 100 + (yoe + 1) / 400 →
  era * 146097 + doe - 719468
  < 365 * (yoe + era * 400 + 1) + (yoe + era * 400 + 1) / 4 - (yoe + era * 400 + 1) / 100
    + (yoe + era * 400 + 1) / 400 + 0 + 1 - 1 - 719468.
Proof. intros Hq. zdiv. Qed.

(** The day of the month is at least 1, and the day lies before the
    start of the next month. *)
Lemma day_in_month z :
  1 ≤ (civil_from_days z).2 ∧
  z < month_start (12 * (civil_from_days z).1.1 + ((civil_from_days z).1.2 - 1) + 1).
Proof.
  unfold civil_from_days. cbv zeta.
  set (z0 := z + 719468). set (era := z0 / 146097). set (doe := z0 - era * 146097).
  assert (0 ≤ doe < 146097) as Hdoe by (subst doe era; zdiv).
  pose proof (day_of_era_year doe Hdoe) as Hdoy. cbv zeta in Hdoy.
  pose proof (day_of_era_year_end doe Hdoe) as Hend. cbv zeta in Hend.
  set (yoe := (doe - doe / 1460 + doe / 36524 - doe / 146096) / 365) in *.
  assert (0 ≤ yoe < 400) as Hyoe by (subst yoe; zdiv).
  remember (doe - (365 * yoe + yoe / 4 - yoe / 100)) as doy eqn:Hdoydef.
  assert (0 ≤ (5 * doy + 2) / 153 ≤ 11) as Hmp by zdiv.
  assert (z = era * 146097 + doe - 719468) as Hz by (subst doe z0; lia).
  simpl. split; [zdiv|].
  remember ((5 * doy + 2) / 153) as mp eqn:Hmpdef.
  assert (mp = 0 ∨ mp = 1 ∨ mp = 2 ∨ mp = 3 ∨ mp = 4 ∨ mp = 5 ∨ mp = 6 ∨ mp = 7 ∨
          mp = 8 ∨ mp = 9 ∨ mp = 10 ∨ mp = 11) as Hcases by lia.
  rewrite Hz. clear Hz. clearbody yoe doe era. clear z0 z.
  destruct Hcases as [H|[H|[H|[H|[H|[H|[H|[H|[H|[H|[H|H]]]]]]]]]]];
    rewrite H in *; simpl.
  - rewrite (month_start_eq _ (yoe + era * 400) 3) by lia.
    unfold days_from_civil. simpl.
    apply (next_month_arith era yoe doe doy); [done|done|zdiv].
  - rewrite (month_start_eq _ (yoe + era * 400) 4) by lia.
    unfold days_from_civil. simpl.
    apply (next_month_arith era yoe doe doy); [done|done|zdiv].
  - rewrite (month_start_eq _ (yoe + era * 400) 5) by lia.
    unfold days_from_civil. simpl.
    apply (next_month_arith era yoe doe doy); [done|done|zdiv].
  - rewrite (month_start_eq _ (yoe + era * 400) 6) by lia.
    unfold days_from_civil. simpl.
    apply (next_month_arith era yoe doe doy); [done|done|zdiv].
  - rewrite (month_start_eq _ (yoe + era * 400) 7) by lia.
    unfold days_from_civil. simpl.
    apply (next_month_arith era yoe doe doy); [done|done|zdiv].
  - rewrite (month_start_eq _ (yoe + era * 400) 8) by lia.
    unfold days_from_civil. simpl.
    apply (next_month_arith era yoe doe doy); [done|done|zdiv].
  - rewrite (month_start_eq _ (yoe + era * 400) 9) by lia.
    unfold days_from_civil. simpl.
    apply (next_month_arith era yoe doe doy); [done|done|zdiv].
  - rewrite (month_start_eq _ (yoe + era * 400) 10) by lia.
    unfold days_from_civil. simpl.
    apply (next_month_arith era yoe doe doy); [done|done|zdiv].
  - rewrite (month_start_eq _ (yoe + era * 400) 11) by lia.
    unfold days_from_civil. simpl.
    apply (next_month_arith era yoe doe doy); [done|done|zdiv].
  - rewrite (month_start_eq _ (yoe + era * 400 + 1) 0) by lia.
    unfold days_from_civil. simpl.
    replace (yoe + era * 400 + 1 - 1) with (yoe + era * 400) by lia.
    apply (next_month_arith era yoe doe doy); [done|done|zdiv].
  - rewrite (month_start_eq _ (yoe + era * 400 + 1) 1) by lia.
    unfold days_from_civil. simpl.
    replace (yoe + era * 400 + 1 - 1) with (yoe + era * 400) by lia.
    apply (next_month_arith era yoe doe doy); [done|done|zdiv].
  - rewrite (month_start_eq _ (yoe + era * 400 + 1) 2) by lia.
    unfold days_from_civil. simpl.
    apply next_year_arith. done.
Qed.

Lemma day_arith (t a w : Z) :
  t = MakeDate a w → 0 ≤ w < msPerDay → Day t = a ∧ TimeWithinDay t = w.
Proof.
  unfold MakeDate, Day, TimeWithinDay, msPerDay. intros -> Hw.
  split; [symmetry; apply (Z.div_unique _ _ a w); lia
         |symmetry; apply (Z.mod_unique _ _ a w); lia].
Qed.

Lemma TimeWithinDay_range t : 0 ≤ TimeWithinDay t < msPerDay.
Proof. unfold TimeWithinDay, msPerDay. apply Z.mod_pos_bound. lia. Qed.

Lemma day_decompose t :
  Day t = month_start (month_index t) + DateFromTime t - 1.
Proof.
  exact (proj1 (day_arith t _ _ (time_decompose t) (TimeWithinDay_range t))).
Qed.

Lemma daysInMonth_eq n : daysInMonth n = month_start (n + 1) - month_start n.
Proof. reflexivity. Qed.

(** The day of the month lies within the month. *)
Lemma date_in_month t :
  1 ≤ DateFromTime t ≤ daysInMonth (month_index t).
Proof.
  pose proof (day_decompose t) as Hd.
  pose proof (day_in_month (Day t)) as [H1 H2].
  unfold daysInMonth. unfold month_index, YearFromTime, MonthFromTime, DateFromTime in *.
  lia.
Qed.

Lemma month_start_mono n m : n ≤ m → month_start n ≤ month_start m.
Proof.
  intros Hnm. pose proof (month_start_back m (m - n)) as H.
  replace (m - (m - n)) with n in H by lia. lia.
Qed.

Lemma month_unique_arith (n idx day sn sn1 si si1 j d : Z) :
  day = sn + j → day = si + d - 1 →
  0 ≤ j < sn1 - sn → 1 ≤ d ≤ si1 - si →
  (idx < n → si1 ≤ sn) → (n < idx → sn1 ≤ si) →
  idx = n.
Proof. lia. Qed.

(** Day [j + 1] of month [n] is read back as such. *)
Lemma month_of_day n j w :
  0 ≤ j < daysInMonth n → 0 ≤ w < msPerDay →
  month_index (MakeDate (month_start n + j) w) = n ∧
  DateFromTime (MakeDate (month_start n + j) w) = j + 1 ∧
  TimeWithinDay (MakeDate (month_start n + j) w) = w.
Proof.
  intros Hj Hw. remember (MakeDate (month_start n + j) w) as t eqn:Ht.
  destruct (day_arith t (month_start n + j) w Ht Hw) as [Hday Htime]. clear Ht.
  pose proof (day_decompose t) as Hd. pose proof (date_in_month t) as Hin.
  rewrite daysInMonth_eq in Hj, Hin.
  assert (month_index t = n) as Hidx.
  { apply (month_unique_arith n (month_index t) (Day t) (month_start n) (month_start (n + 1))
             (month_start (month_index t)) (month_start (month_index t + 1))
             j (DateFromTime t) Hday Hd Hj Hin).
    - intros Hlt. apply month_start_mono. lia.
    - intros Hgt. apply month_start_mono. lia. }
  split; [done|]. split; [|done].
  rewrite Hidx, Hday in Hd. clear -Hd. lia.
Qed.

(** ** Going back by months *)

Lemma clamp_arith (a b d len k w t' : Z) :
  28 * k ≤ a - b ≤ 31 * k → 1 ≤ d ≤ 31 → 28 ≤ len ≤ 31 →
  t' = MakeDate (a + d - 1) w →
  t' - (31 * k + 3) * msPerDay ≤ MakeDate (b + Z.min d len - 1) w ≤ t' - 28 * k * msPerDay.
Proof. unfold MakeDate, msPerDay. lia. Qed.

Lemma unclamped_arith (a b d k w t' : Z) :
  28 * k ≤ a - b ≤ 31 * k →
  t' = MakeDate (a + d - 1) w →
  t' - 31 * k * msPerDay ≤ MakeDate (b + d - 1) w ≤ t' - 28 * k * msPerDay.
Proof. unfold MakeDate, msPerDay. lia. Qed.

Lemma in_range_arith (t offset months x : Z) :
  0 ≤ months → t ≤ maxTime → - maxTime ≤ t - (31 * months + 3) * msPerDay →
  t + offset - (31 * months + 3) * msPerDay ≤ x ≤ t + offset - 28 * months * msPerDay →
  - maxTime ≤ x - offset ≤ maxTime ∧
  t - (31 * months + 3) * msPerDay ≤ x - offset ≤ t - 28 * months * msPerDay.
Proof. unfold msPerDay, maxTime. intros. split; lia. Qed.

Lemma unclamped_range (t offset months x : Z) :
  0 ≤ months → t ≤ maxTime → - maxTime ≤ t - (31 * months + 3) * msPerDay →
  t + offset - 31 * months * msPerDay ≤ x ≤ t + offset - 28 * months * msPerDay →
  - maxTime ≤ x - offset ≤ maxTime.
Proof. unfold msPerDay, maxTime. intros. lia. Qed.

Lemma MakeDate_day_shift (a j w offset : Z) :
  MakeDate (a + j - 1) w - offset + offset = MakeDate (a + (j - 1)) w.
Proof. unfold MakeDate, msPerDay. lia. Qed.

Section MonthsBackFacts.
Context {host : Host}.
Variable offset : Z.
Hypothesis Hfixed : fixed_offset host offset.

(** [setMonth] and [setDate] on the local time [x + offset], read back
    in UTC. *)
Lemma setMonth_fixed x m :
  setMonth (Some x) (Some m)
  = TimeClip (MakeDate (month_start (month_index (x + offset) - (MonthFromTime (x + offset) - m))
                        + DateFromTime (x + offset) - 1)
                (TimeWithinDay (x + offset)) - offset).
Proof.
  unfold setMonth. cbn [mbind option_bind]. unfold LocalTime, UTC.
  rewrite (Hfixed x true), (Hfixed _ false).
  by rewrite MakeDay_month_index.
Qed.

Lemma setDate_fixed x date :
  setDate (Some x) date
  = TimeClip (MakeDate (month_start (month_index (x + offset)) + date - 1)
                (TimeWithinDay (x + offset)) - offset).
Proof.
  unfold setDate. cbn [mbind option_bind]. unfold LocalTime, UTC.
  rewrite (Hfixed x true), (Hfixed _ false).
  rewrite MakeDay_month_index.
  by replace (month_index (x + offset) - (MonthFromTime (x + offset) - MonthFromTime (x + offset)))
    with (month_index (x + offset)) by lia.
Qed.

Lemma getDate_fixed x : getDate (Some x) = Some (DateFromTime (x + offset)).
Proof. unfold getDate. cbn [mbind option_bind]. unfold LocalTime. by rewrite Hfixed. Qed.

Lemma getMonth_fixed x : getMonth (Some x) = Some (MonthFromTime (x + offset)).
Proof. unfold getMonth. cbn [mbind option_bind]. unfold LocalTime. by rewrite Hfixed. Qed.

(** [minusMonths] on a host with a fixed offset: the local time of the
    result is the day of the month, cut down to the length of the month it
    lands in, at the same time of the day. *)
Lemma minusMonths_value t months :
  0 ≤ months → t ≤ maxTime → - maxTime ≤ t - (31 * months + 3) * msPerDay →
  minusMonths (Some t) months
  = Some (MakeDate (month_start (month_index (t + offset) - months)
                    + Z.min (DateFromTime (t + offset))
                        (daysInMonth (month_index (t + offset) - months)) - 1)
            (TimeWithinDay (t + offset)) - offset).
Proof.
  intros Hk Hmax Hmin.
  unfold minusMonths. rewrite getDate_fixed, getMonth_fixed. unfold num_sub.
  cbn [mbind option_bind]. rewrite setMonth_fixed.
  replace (month_index (t + offset)
           - (MonthFromTime (t + offset) - (MonthFromTime (t + offset) - months)))
    with (month_index (t + offset) - months) by lia.
  remember (t + offset) as t' eqn:Ht'.
  pose proof (time_decompose t') as Hdec.
  pose proof (date_in_month t') as Hd. rewrite daysInMonth_eq in Hd.
  pose proof (month_start_step (month_index t')) as Hlen0.
  pose proof (month_start_back (month_index t') months Hk) as Hback.
  pose proof (TimeWithinDay_range t') as Hw.
  remember (month_index t' - months) as n eqn:Hn.
  pose proof (month_start_step n) as Hlen. rewrite <- daysInMonth_eq in Hlen.
  pose proof (month_start_step (n + 1)) as Hlen1.
  pose proof (daysInMonth_eq n) as Hlendef.
  remember (daysInMonth n) as len eqn:Hlen'. clear Hlen'.
  remember (DateFromTime t') as d eqn:Hd'. clear Hd'.
  remember (TimeWithinDay t') as w eqn:Hw'. clear Hw'.
  assert (1 ≤ d ≤ 31) as Hd31 by lia.
  pose proof (unclamped_arith _ _ d months w t' Hback Hdec) as Hun.
  pose proof (clamp_arith _ _ d len months w t' Hback Hd31 Hlen Hdec) as Hcl.
  rewrite Ht' in Hun, Hcl.
  destruct (in_range_arith t offset months _ Hk Hmax Hmin Hcl) as [Hcr _].
  destruct (Z.le_gt_cases d len) as [Hfit|Hover].
  - rewrite Z.min_l by done. rewrite Z.min_l in Hcr by done.
    rewrite (TimeClip_in_range _ Hcr), getDate_fixed, MakeDate_day_shift.
    destruct (month_of_day n (d - 1) w) as (_ & -> & _);
      [rewrite daysInMonth_eq; lia|done|].
    unfold num_neq. replace (d - 1 + 1) with d by lia. by rewrite Z.eqb_refl.
  - pose proof (unclamped_range t offset months _ Hk Hmax Hmin Hun) as Hur.
    rewrite Z.min_r by lia. rewrite Z.min_r in Hcr by lia.
    rewrite (TimeClip_in_range _ Hur), getDate_fixed, setDate_fixed, MakeDate_day_shift.
    replace (month_start n + (d - 1)) with (month_start (n + 1) + (d - len - 1)) by lia.
    destruct (month_of_day (n + 1) (d - len - 1) w) as (-> & -> & ->);
      [rewrite daysInMonth_eq; lia|done|].
    unfold num_neq.
    destruct (Z.eqb_spec (d - len - 1 + 1) d) as [Heq|_]; [lia|]. cbn [negb].
    replace (month_start (n + 1) + 0 - 1) with (month_start n + len - 1) by lia.
    by rewrite (TimeClip_in_range _ Hcr).
Qed.

(** The result of [minusMonths] lies between [28 months] and
    [31 months + 3] days before the date. *)
Lemma minusMonths_bounds t months u :
  0 ≤ months → t ≤ maxTime → - maxTime ≤ t - (31 * months + 3) * msPerDay →
  minusMonths (Some t) months = Some u →
  t - (31 * months + 3) * msPerDay ≤ u ≤ t - 28 * months * msPerDay.
Proof.
  intros Hk Hmax Hmin. rewrite minusMonths_value by done. intros [= <-].
  pose proof (time_decompose (t + offset)) as Hdec.
  pose proof (date_in_month (t + offset)) as Hd. rewrite daysInMonth_eq in Hd.
  pose proof (month_start_step (month_index (t + offset))) as Hlen0.
  pose proof (month_start_back (month_index (t + offset)) months Hk) as Hback.
  pose proof (month_start_step (month_index (t + offset) - months)) as Hlen.
  rewrite <- daysInMonth_eq in Hlen.
  assert (1 ≤ DateFromTime (t + offset) ≤ 31) as Hd31 by lia.
  pose proof (clamp_arith _ _ _ _ months _ (t + offset) Hback Hd31 Hlen Hdec) as Hcl.
  exact (proj2 (in_range_arith t offset months _ Hk Hmax Hmin Hcl)).
Qed.

End MonthsBackFacts.

Lemma window_length_arith (sn sn1 d len len1 w offset : Z) :
  len = sn1 - sn → 28 ≤ len ≤ 31 → 28 ≤ len1 ≤ 31 → 1 ≤ d ≤ 31 →
  28 * msPerDay
  ≤ (MakeDate (sn1 + Z.min d len1 - 1) w - offset) - (MakeDate (sn + Z.min d len - 1) w - offset)
  ≤ 31 * msPerDay.
Proof. unfold MakeDate, msPerDay. intros. lia. Qed.

Lemma range_weaken (t k : Z) :
  1 ≤ k → - maxTime ≤ t - (31 * k + 3) * msPerDay →
  0 ≤ k - 1 ∧ 0 ≤ k ∧ - maxTime ≤ t - (31 * (k - 1) + 3) * msPerDay ∧
  t - 28 * (k - 1) * msPerDay ≤ t.
Proof. unfold msPerDay, maxTime. intros. lia. Qed.

Lemma same_time_arith (a d len w offset t : Z) :
  t + offset = MakeDate (a + d - 1) w → d ≤ len →
  MakeDate (a + Z.min d len - 1) w - offset = t.
Proof. unfold MakeDate, msPerDay. intros. lia. Qed.

(** X18. On a host whose local time is UTC plus a fixed offset,
    [minusMonths d months] is the instant [months] calendar months before
    [d] in local time: it falls in the month that many months earlier, on
    the same day of the month, or on the last day of that month when the
    month is too short, at the same time of the day. *)
Theorem minusMonths_calendar {host : Host} (offset t months : Z) :
  fixed_offset host offset →
  0 ≤ months → t ≤ maxTime → - maxTime ≤ t - (31 * months + 3) * msPerDay →
  ∃ u, minusMonths (Some t) months = Some u ∧
       month_index (LocalTime u) = month_index (LocalTime t) - months ∧
       DateFromTime (LocalTime u)
       = Z.min (DateFromTime (LocalTime t)) (daysInMonth (month_index (LocalTime t) - months)) ∧
       TimeWithinDay (LocalTime u) = TimeWithinDay (LocalTime t).
Proof.
  intros Hfixed Hk Hmax Hmin. eexists. split; [exact (minusMonths_value offset Hfixed t months Hk Hmax Hmin)|].
  unfold LocalTime. rewrite !(Hfixed _ true).
  pose proof (date_in_month (t + offset)) as Hd. rewrite daysInMonth_eq in Hd.
  pose proof (month_start_step (month_index (t + offset))) as Hlen0.
  pose proof (month_start_step (month_index (t + offset) - months)) as Hlen.
  pose proof (daysInMonth_eq (month_index (t + offset) - months)) as Hlendef.
  pose proof (TimeWithinDay_range (t + offset)) as Hw.
  remember (month_index (t + offset) - months) as n eqn:Hn.
  remember (daysInMonth n) as len eqn:Hlen'.
  remember (DateFromTime (t + offset)) as d eqn:Hd'.
  remember (TimeWithinDay (t + offset)) as w eqn:Hw'.
  rewrite MakeDate_day_shift.
  destruct (month_of_day n (Z.min d len - 1) w) as (-> & -> & ->);
    [rewrite daysInMonth_eq; lia|done|].
  split; [done|]. split; [lia|done].
Qed.

Lemma minusMonths_calendar_witness :
  ∃ u, @minusMonths utc_host (Some 1774915200000) 1 = Some u ∧
       month_index (@LocalTime utc_host u)
       = month_index (@LocalTime utc_host 1774915200000) - 1 ∧
       DateFromTime (@LocalTime utc_host u)
       = Z.min (DateFromTime (@LocalTime utc_host 1774915200000))
           (daysInMonth (month_index (@LocalTime utc_host 1774915200000) - 1)) ∧
       TimeWithinDay (@LocalTime utc_host u)
       = TimeWithinDay (@LocalTime utc_host 1774915200000).
Proof.
  apply (@minusMonths_calendar utc_host 0 1774915200000 1).
  - intros t b. reflexivity.
  - lia.
  - unfold maxTime. lia.
  - unfold maxTime, msPerDay. lia.
Defined.

(** The 31st of March 2026, one month back, is the 28th of February. *)
Example end_of_march_back :
  @minusMonths utc_host (Some 1774915200000) 1 = Some 1772236800000 ∧
  isoText 1774915200000 = "2026-03-31T00:00:00.000Z" ∧
  isoText 1772236800000 = "2026-02-28T00:00:00.000Z".
Proof. by vm_compute. Qed.

(** X19. On a host with a fixed offset, the window that
    [computeNextMonthWindow] cuts for the counter [k ≥ 1] is between 28 and
    31 days long and does not reach past the date it counts back from; for
    the counter 1 it ends at that date. *)
Theorem month_window_length {host : Host} (offset now : Z)
    (oldestPublished : option DateString) (t k : Z) :
  fixed_offset host offset →
  match oldestPublished with Some s => Date_of_string s | None => Date_now now end = Some t →
  1 ≤ k → - maxTime ≤ t - (31 * k + 3) * msPerDay →
  ∃ a b, computeNextMonthWindow now oldestPublished k = Ok (Iso a, Iso b) ∧
         28 * msPerDay ≤ b - a ≤ 31 * msPerDay ∧
         b ≤ t ∧ (k = 1 → b = t).
Proof.
  intros Hfixed Hold Hk Hmin.
  assert (t ≤ maxTime) as Hmax.
  { destruct oldestPublished as [[|s]|]; simpl in Hold; try done;
      by apply TimeClip_Some in Hold as [-> [_ ?]]. }
  destruct (range_weaken t k Hk Hmin) as (Hk1 & Hk0 & Hmin1 & Hle).
  pose proof (minusMonths_value offset Hfixed t k Hk0 Hmax Hmin) as Ha.
  pose proof (minusMonths_value offset Hfixed t (k - 1) Hk1 Hmax Hmin1) as Hb.
  pose proof (minusMonths_bounds offset Hfixed t (k - 1) _ Hk1 Hmax Hmin1 Hb) as [_ Hbt].
  unfold computeNextMonthWindow. rewrite Hold, Ha, Hb. cbn [toISOString Result_bind].
  eexists _, _. split; [reflexivity|].
  pose proof (date_in_month (t + offset)) as Hd.
  pose proof (month_start_step (month_index (t + offset))) as Hlen0.
  rewrite <- daysInMonth_eq in Hlen0.
  pose proof (month_start_step (month_index (t + offset) - k)) as Hlen.
  rewrite <- daysInMonth_eq in Hlen.
  pose proof (month_start_step (month_index (t + offset) - (k - 1))) as Hlen1.
  rewrite <- daysInMonth_eq in Hlen1.
  pose proof (daysInMonth_eq (month_index (t + offset) - k)) as Hlendef.
  replace (month_index (t + offset) - k + 1) with (month_index (t + offset) - (k - 1))
    in Hlendef by lia.
  split; [|split; [lia|]].
  - apply window_length_arith; [done|done|done|lia].
  - intros ->. replace (month_index (t + offset) - (1 - 1)) with (month_index (t + offset)) by lia.
    apply same_time_arith; [exact (time_decompose (t + offset))|lia].
Qed.

Lemma month_window_length_witness :
  ∃ a b, @computeNextMonthWindow utc_host jan_2026 None 1 = Ok (Iso a, Iso b) ∧
         28 * msPerDay ≤ b - a ≤ 31 * msPerDay ∧
         b ≤ jan_2026 ∧ (1 = 1 → b = jan_2026).
Proof.
  apply (@month_window_length utc_host 0 jan_2026 None jan_2026 1).
  - intros t b. reflexivity.
  - reflexivity.
  - lia.
  - unfold maxTime, msPerDay, jan_2026. lia.
Defined.


(** ** The favourites *)

Section FavouriteFacts.
Import favoritesSlice.

Lemma setFavorites_fold (payload : list VideoItem) (m : gmap string VideoItem) (k : string) :
  foldl (λ m v, <[keyOf v := v]> m) m payload !! k
  = match last (List.filter (λ v, bool_decide (keyOf v = k)) payload) with
    | Some v => Some v
    | None => m !! k
    end.
Proof.
  revert m. induction payload as [|v payload IH]; intros m; [done|].
  cbn [foldl List.filter]. rewrite IH. case_bool_decide as Hk.
  - destruct (List.filter _ payload) as [|w l] eqn:Hf.
    + simpl. subst k. apply lookup_insert_eq.
    + change (last (v :: w :: l)) with (last (w :: l)).
      destruct (last (w :: l)) eqn:Hl; [done|]. by apply last_None in Hl.
  - destruct (last _); [done|]. by rewrite lookup_insert_ne.
Qed.

(** X20. After [setFavorites], the favourite stored under an id is the
    last video of the payload with that id, whatever was stored before;
    an id the payload does not have is not stored. *)
Theorem setFavorites_last_wins (state : FavoritesState) (payload : list VideoItem)
    (k : string) :
  byId (setFavorites state payload) !! k
  = last (List.filter (λ v, bool_decide (keyOf v = k)) payload).
Proof.
  unfold setFavorites. cbn [byId]. rewrite setFavorites_fold.
  by destruct (last _).
Qed.

(** X21. Toggling a video twice gives back the favourites as they were,
    and the button changes in between, provided the id of the video is
    not a name inherited from [Object.prototype] and the video stored
    under the id, if any, is the toggled one. *)
Theorem toggleFavorite_twice (state : FavoritesState) (v : VideoItem) :
  keyOf v ∉ inheritedNames →
  byId state !! keyOf v = None ∨ byId state !! keyOf v = Some v →
  toggleFavorite (toggleFavorite state v) v = state ∧
  isFav (toggleFavorite state v) v = negb (isFav state v) ∧
  ∀ w, keyOf w ≠ keyOf v → isFav (toggleFavorite state v) w = isFav state w.
Proof.
  intros Hin Hst. destruct state as [m]. cbn [byId] in Hst.
  assert (bool_decide (keyOf v ∈ inheritedNames) = false) as Hb
    by by apply bool_decide_eq_false_2.
  unfold toggleFavorite, isFav. cbn [byId].
  destruct Hst as [Hnone|Hsome].
  - rewrite Hnone, Hb. cbn [byId]. rewrite !lookup_insert_eq. cbn [byId negb].
    split; [|split; [done|]].
    + f_equal. by apply delete_insert_id.
    + intros w Hw. by rewrite lookup_insert_ne.
  - rewrite Hsome. cbn [byId]. rewrite !lookup_delete_eq, Hb. cbn [byId negb].
    split; [|split; [done|]].
    + f_equal. rewrite insert_delete_eq. by apply insert_id.
    + intros w Hw. by rewrite lookup_delete_ne.
Qed.

Lemma toggleFavorite_twice_witness :
  toggleFavorite (toggleFavorite initialState (pool_item "abc" None)) (pool_item "abc" None)
  = initialState ∧
  isFav (toggleFavorite initialState (pool_item "abc" None)) (pool_item "abc" None)
  = negb (isFav initialState (pool_item "abc" None)) ∧
  ∀ w, keyOf w ≠ keyOf (pool_item "abc" None) →
       isFav (toggleFavorite initialState (pool_item "abc" None)) w = isFav initialState w.
Proof.
  apply (toggleFavorite_twice initialState (pool_item "abc" None)).
  - intros Hin. by vm_compute in Hin; repeat (apply elem_of_cons in Hin as [?|Hin]; [done|]);
      apply elem_of_nil in Hin.
  - left. reflexivity.
Defined.

(** A video whose id is an inherited name is shown as saved and is never
    stored. *)
Example inherited_name_not_saved :
  toggleFavorite initialState (pool_item "constructor" None) = initialState ∧
  isFav initialState (pool_item "constructor" None) = true.
Proof. split; reflexivity. Qed.

End FavouriteFacts.

(** ** The notifications *)

Section ToastFacts.
Import ToastProvider.

Lemma filter_id_Forall {P : Toast → Prop} f (l : list Toast) :
  Forall P l → Forall P (List.filter f l).
Proof.
  induction 1 as [|t l Ht Hl IH]; simpl; [constructor|].
  destruct (f t); [by constructor|done].
Qed.

Lemma filter_id_sublist f (l : list Toast) : List.filter f l `sublist_of` l.
Proof.
  induction l as [|t l IH]; simpl; [done|].
  destruct (f t); [by apply sublist_skip|by apply sublist_cons].
Qed.

Lemma filter_id_NoDup f (l : list Toast) :
  NoDup (id <$> l) → NoDup (id <$> List.filter f l).
Proof.
  intros Hnd. refine (sublist_NoDup _ (id <$> l) Hnd _).
  apply fmap_sublist, filter_id_sublist.
Qed.

Lemma clearTimer_other i j l : j ≠ i → j ∈ l → j ∈ clearTimer i l.
Proof.
  intros Hne. induction l as [|x l IH]; simpl; [done|].
  intros Hin. apply elem_of_cons in Hin as [Heq|Hin].
  - destruct (Z.eqb_spec x i); [congruence|]. rewrite Heq. by left.
  - destruct (Z.eqb_spec x i); [done|]. right. by apply IH.
Qed.

Lemma remove_timers_kept i (l : list Toast) (ts ts' : list Z) :
  (∀ j, j ≠ i → j ∈ ts → j ∈ ts') →
  Forall (λ t, 0 < timeout t → id t ∈ ts) l →
  Forall (λ t, 0 < timeout t → id t ∈ ts') (List.filter (λ t, negb (id t =? i)) l).
Proof.
  intros Hts. induction 1 as [|t l Ht Hl IH]; simpl; [constructor|].
  destruct (Z.eqb_spec (id t) i) as [Heq|Hne]; simpl; [done|].
  constructor; [|done]. intros Hpos. apply Hts; [done|]. by apply Ht.
Qed.

Lemma toastStep_ok c st ev :
  toasts_ok c st →
  c + (if isNotify ev then 1 else 0) ≤ 2 ^ 53 →
  0 ≤ c →
  toasts_ok (c + (if isNotify ev then 1 else 0)) (toastStep st ev).
Proof.
  intros (Hgid & Hids & Hnd & Htm) Hc Hc0.
  destruct ev as [msg opts|i|i]; cbn [isNotify toastStep] in *.
  - (* a notification *)
    assert (gid st = 1 + c) as Hg by lia.
    unfold toasts_ok, notify. cbn [gid toasts timers].
    split; [|split; [|split]].
    + unfold increment. rewrite Hg. destruct (Z.ltb_spec (1 + c) (2 ^ 53)); lia.
    + apply Forall_app. split.
      * eapply Forall_impl; [exact Hids|]. simpl. intros; lia.
      * constructor; [|constructor]. simpl. lia.
    + rewrite fmap_app. apply NoDup_app. split; [done|]. split; [|apply NoDup_singleton].
      intros x Hx Hx'. simpl in Hx'. apply list_elem_of_singleton in Hx'. subst x.
      apply list_elem_of_fmap in Hx as (t & Ht & Hin).
      rewrite Forall_forall in Hids. specialize (Hids t Hin). lia.
    + apply Forall_app. split.
      * eapply Forall_impl; [exact Htm|]. simpl. intros t Ht Hpos.
        destruct (_ && _); [apply elem_of_app; left|]; by apply Ht.
      * constructor; [|constructor]. simpl. intros Hpos.
        destruct (Z.eqb_spec (default 4000 (opts ≫= opts_timeout)) 0) as [|_]; [lia|].
        destruct (Z.ltb_spec 0 (default 4000 (opts ≫= opts_timeout))) as [_|]; [|lia].
        simpl. apply elem_of_app. right. by left.
  - (* the button *)
    replace (c + 0) with c by lia.
    unfold toasts_ok, remove. cbn [gid toasts timers].
    split; [done|]. split; [by apply filter_id_Forall|]. split; [by apply filter_id_NoDup|].
    by apply (remove_timers_kept i _ (timers st)).
  - (* a timer *)
    replace (c + 0) with c by lia.
    case_bool_decide as Hin; [|done].
    unfold toasts_ok, remove. cbn [gid toasts timers].
    split; [done|]. split; [by apply filter_id_Forall|]. split; [by apply filter_id_NoDup|].
    apply (remove_timers_kept i _ (timers st)); [|done].
    intros j Hne Hj. by apply clearTimer_other.
Qed.

Lemma notifications_cons ev evs :
  notifications (ev :: evs) = (if isNotify ev then 1 else 0) + notifications evs.
Proof. unfold notifications. simpl. destruct (isNotify ev); simpl; lia. Qed.

Lemma notifications_nonneg evs : 0 ≤ notifications evs.
Proof. unfold notifications. lia. Qed.

Lemma toastRun_ok evs c st :
  toasts_ok c st → 0 ≤ c → c + notifications evs ≤ 2 ^ 53 →
  toasts_ok (c + notifications evs) (toastRun evs st).
Proof.
  revert c st. induction evs as [|ev evs IH]; intros c st Hok Hc0 Hc.
  - change (notifications []) with 0. by replace (c + 0) with c by lia.
  - rewrite notifications_cons in *. pose proof (notifications_nonneg evs) as Hn.
    replace (c + ((if isNotify ev then 1 else 0) + notifications evs))
      with (c + (if isNotify ev then 1 else 0) + notifications evs) by lia.
    apply IH.
    + apply toastStep_ok; [done| |done]. destruct (isNotify ev); lia.
    + destruct (isNotify ev); lia.
    + lia.
Qed.

Lemma remove_one (l : list Toast) (t : Toast) :
  NoDup (id <$> l) → t ∈ l →
  l ≡ₚ t :: List.filter (λ t', negb (id t' =? id t)) l.
Proof.
  induction l as [|x l IH]; intros Hnd Hin; [by apply elem_of_nil in Hin|].
  rewrite fmap_cons in Hnd. apply NoDup_cons in Hnd as [Hx Hnd].
  apply elem_of_cons in Hin as [->|Hin].
  - simpl. rewrite Z.eqb_refl. simpl. constructor.
    assert (List.filter (λ t', negb (id t' =? id x)) l = l) as ->; [|done].
    clear IH Hnd. induction l as [|y l IHl]; [done|]. simpl.
    destruct (Z.eqb_spec (id y) (id x)) as [Heq|Hne]; simpl.
    + exfalso. apply Hx. rewrite fmap_cons, <- Heq. by left.
    + f_equal. apply IHl. intros Hin. apply Hx. rewrite fmap_cons. by right.
  - simpl. destruct (Z.eqb_spec (id x) (id t)) as [Heq|Hne]; simpl.
    + exfalso. apply Hx. rewrite Heq. apply list_elem_of_fmap. by exists t.
    + rewrite (Permutation_swap x t). constructor. by apply IH.
Qed.

(** X22. As long as no more than [2^53] notifications have been made,
    the toasts on display have pairwise different ids, closing one of
    them takes away that toast and no other, and every toast on display
    with a positive timeout still has its timer pending. *)
Theorem toasts_distinct (evs : list ToastEvent) :
  notifications evs ≤ 2 ^ 53 →
  let st := toastRun evs initialToasts in
  NoDup (id <$> toasts st) ∧
  (∀ t, t ∈ toasts st → toasts st ≡ₚ t :: toasts (remove (id t) st)) ∧
  Forall (λ t, 0 < timeout t → id t ∈ timers st) (toasts st).
Proof.
  intros Hn st.
  assert (toasts_ok 0 initialToasts) as H0.
  { unfold toasts_ok, initialToasts. cbn [gid toasts timers].
    split; [done|]. split; [constructor|]. split; [constructor|constructor]. }
  destruct (toastRun_ok evs 0 initialToasts H0) as (_ & _ & Hnd & Htm); [lia|lia|].
  fold st in Hnd, Htm. split; [done|]. split; [|done].
  intros t Ht. unfold remove. cbn [toasts]. by apply remove_one.
Qed.

Lemma toasts_distinct_witness :
  let st := toastRun [Notify "saved" None; Notify "failed" None; Close 1] initialToasts in
  NoDup (id <$> toasts st) ∧
  (∀ t, t ∈ toasts st → toasts st ≡ₚ t :: toasts (remove (id t) st)) ∧
  Forall (λ t, 0 < timeout t → id t ∈ timers st) (toasts st).
Proof.
  apply (toasts_distinct [Notify "saved" None; Notify "failed" None; Close 1]).
  vm_compute. discriminate.
Defined.

(** Two notifications, the first closed by its button; the timer of the
    second then runs out. *)
Example toasts_sample :
  toasts (toastRun [Notify "saved" None; Notify "failed" None; Close 1] initialToasts)
  = [{| id := 2; type := info; message := "failed"; timeout := 4000 |}] ∧
  toasts (toastRun [Notify "saved" None; Notify "failed" None; Close 1; TimerFires 2]
            initialToasts) = [].
Proof. split; reflexivity. Qed.

End ToastFacts.

(** ** The scroll logger *)

Lemma onScroll_ok (st : Z * list Z) (ev : ScrollEvent) :
  StronglySorted (λ a b, a + 1000 ≤ b) st.2 →
  Forall (λ a, 1000 ≤ a ≤ st.1) st.2 →
  0 ≤ st.1 →
  StronglySorted (λ a b, a + 1000 ≤ b) (onScroll st ev).2 ∧
  Forall (λ a, 1000 ≤ a ≤ (onScroll st ev).1) (onScroll st ev).2 ∧
  0 ≤ (onScroll st ev).1.
Proof.
  destruct st as [lastLog logged]. simpl. intros Hs Hf H0.
  destruct (Z.ltb_spec (scroll_now ev - lastLog) 1000) as [|Hge]; [done|].
  destruct (scroll_el ev); simpl; [|done].
  destruct (scroll_inView ev); simpl; [|done].
  split; [|split; [|lia]].
  - induction Hs as [|a l Hs IH Ha]; simpl.
    + constructor; [constructor|constructor].
    + apply Forall_cons in Hf as [Hfa Hfl]. constructor; [by apply IH|].
      apply Forall_app. split; [done|]. constructor; [lia|constructor].
  - apply Forall_app. split.
    + eapply Forall_impl; [exact Hf|]. simpl. intros; lia.
    + constructor; [lia|constructor].
Qed.

Lemma scroll_fold_ok (evs : list ScrollEvent) (st : Z * list Z) :
  StronglySorted (λ a b, a + 1000 ≤ b) st.2 →
  Forall (λ a, 1000 ≤ a ≤ st.1) st.2 →
  0 ≤ st.1 →
  StronglySorted (λ a b, a + 1000 ≤ b) (foldl onScroll st evs).2 ∧
  Forall (λ a, 1000 ≤ a) (foldl onScroll st evs).2.
Proof.
  revert st. induction evs as [|ev evs IH]; intros st Hs Hf H0; simpl.
  - split; [done|]. eapply Forall_impl; [exact Hf|]. simpl. intros; lia.
  - destruct (onScroll_ok st ev Hs Hf H0) as (Hs' & Hf' & H0'). by apply IH.
Qed.

(** X23. Whatever scroll events arrive and whatever the clock reads, any
    two lines the scroll logger of a section writes are at least 1000 ms
    apart, in the order written, and none is written before the clock
    reads 1000. *)
Theorem scroll_log_throttled (evs : list ScrollEvent) :
  StronglySorted (λ a b, a + 1000 ≤ b) (scrollLog evs) ∧
  Forall (λ a, 1000 ≤ a) (scrollLog evs).
Proof.
  apply scroll_fold_ok; simpl; [constructor|constructor|done].
Qed.

(** A clock that jumps back does not bring a second line. *)
Example scroll_log_sample :
  scrollLog [ {| scroll_now := 5000; scroll_el := true; scroll_inView := true |};
              {| scroll_now := 5400; scroll_el := true; scroll_inView := true |};
              {| scroll_now := 2000; scroll_el := true; scroll_inView := true |};
              {| scroll_now := 6000; scroll_el := true; scroll_inView := false |};
              {| scroll_now := 6100; scroll_el := true; scroll_inView := true |} ]
  = [5000; 6100].
Proof. reflexivity. Qed.
